(** * Arithmetic compression wizard: a shallow embedding in Rocq

    This development embeds the core of the crate
    [arithmetic_compression_wizard]:
    - [compression_engine::compression_conjurer] (dictionary discovery,
      substitution, frequency analysis, encoder),
    - [bit_wizardry::bit_manipulation_spells] (bit writer/reader and the
      interval codec),
    - [decompression_oracle::decompression_sage] (decoder and symbol
      reconstruction),
    - [simple_api] in [lib.rs] (artifact serialisation).

    Conventions.  Bytes are [Byte.byte]; Rust [u8]/[u32]/[u64]/[usize]
    values are [Z] and every place where the Rust code can wrap has its
    wrap-around written out (the release-build semantics: [as] casts
    truncate, arithmetic wraps).  A Rust [String] is the list of its UTF-8
    bytes.  A [HashMap] is an association list in insertion order; the
    order in which [into_iter] hands out its entries is unspecified in Rust
    (it is randomised per map), so it is a parameter of the model
    ([HashIter]). *)

From Stdlib Require Import String.
From Stdlib Require Import ZArith List Lia Bool Permutation Sorted.
Import ListNotations.
Open Scope Z_scope.

(* ------------------------------------------------------------------ *)
(** ** Machine integers and bytes *)

Definition u8_of (z : Z) : Z := z mod 2 ^ 8.
Definition u32_of (z : Z) : Z := z mod 2 ^ 32.
Definition u64_of (z : Z) : Z := z mod 2 ^ 64.
Definition i64_of (z : Z) : Z := (z + 2 ^ 63) mod 2 ^ 64 - 2 ^ 63.

(** The numeric value of a byte, [b as u32]. *)
Definition byte_val (b : Byte.byte) : Z := Z.of_N (Byte.to_N b).

(** [z as u8] as a byte. *)
Definition byte_of (z : Z) : Byte.byte :=
  match Byte.of_N (Z.to_N (u8_of z)) with
  | Some b => b
  | None => Byte.x00
  end.

(** [u8::is_ascii_alphabetic]. *)
Definition is_ascii_alphabetic (b : Byte.byte) : bool :=
  let v := byte_val b in
  ((65 <=? v) && (v <=? 90)) || ((97 <=? v) && (v <=? 122)).

(** [b'\''] *)
Definition APOSTROPHE : Byte.byte := Byte.x27.

Definition byte_eqb := Byte.eqb.

(** [bytes[i]] for an index known to be in range. *)
Definition byte_at (bs : list Byte.byte) (i : nat) : Byte.byte :=
  nth i bs Byte.x00.

(* ------------------------------------------------------------------ *)
(** ** Dictionary substitution: [transform_manuscript_to_symbols] *)

(** The inner comparison loop
    [for (offset, &expected_byte) in word_bytes.iter().enumerate()]:
    it is only entered when [byte_position + word_bytes.len() <= len]. *)
Fixpoint word_bytes_match (bs : list Byte.byte) (pos : nat)
    (word : list Byte.byte) : bool :=
  match word with
  | [] => true
  | e :: word' => byte_eqb (byte_at bs pos) e && word_bytes_match bs (S pos) word'
  end.

(** [valid_word_start && valid_word_end] for a match at [pos] ending at [fin]. *)
Definition word_bounded (bs : list Byte.byte) (pos fin : nat) : bool :=
  ((pos =? 0)%nat || negb (is_ascii_alphabetic (byte_at bs (pred pos))))
  && ((length bs <=? fin)%nat || negb (is_ascii_alphabetic (byte_at bs fin))).

(** The dictionary symbol [256u32 + grimoire_index as u32]. *)
Definition reference_symbol (grimoire_index : nat) : Z :=
  u32_of (256 + u32_of (Z.of_nat grimoire_index)).

(** The loop [for (grimoire_index, mystical_word) in word_grimoire.iter()
    .enumerate()] at [byte_position = pos]: the first word that matches and
    is bounded gives the symbol and the new position. *)
Fixpoint try_grimoire (bs : list Byte.byte) (pos : nat)
    (ws : list (list Byte.byte)) (grimoire_index : nat) : option (Z * nat) :=
  match ws with
  | [] => None
  | w :: ws' =>
      if (pos + length w <=? length bs)%nat
         && word_bytes_match bs pos w
         && word_bounded bs pos (pos + length w)
      then Some (reference_symbol grimoire_index, (pos + length w)%nat)
      else try_grimoire bs pos ws' (S grimoire_index)
  end.

(** One iteration of the [while byte_position < len] loop: the emitted
    symbol and the next position. *)
Definition transform_step (bs : list Byte.byte) (ws : list (list Byte.byte))
    (pos : nat) : Z * nat :=
  let b := byte_at bs pos in
  let found :=
    if is_ascii_alphabetic b || byte_eqb b APOSTROPHE
    then try_grimoire bs pos ws 0 else None in
  match found with
  | Some r => r
  | None => (byte_val b, S pos)
  end.

(** The [while] loop, with [fuel] bounding the number of iterations (the
    loop makes progress on every iteration when all words are non-empty,
    so [length bs] iterations suffice; see [transform_fuel_enough]). *)
Fixpoint transform_loop (bs : list Byte.byte) (ws : list (list Byte.byte))
    (fuel pos : nat) : list Z :=
  match fuel with
  | O => []
  | S fuel' =>
      if (pos <? length bs)%nat then
        let '(sym, pos') := transform_step bs ws pos in
        sym :: transform_loop bs ws fuel' pos'
      else []
  end.

Definition transform_manuscript_to_symbols (bs : list Byte.byte)
    (word_grimoire : list (list Byte.byte)) : list Z :=
  transform_loop bs word_grimoire (length bs) 0.

(* ------------------------------------------------------------------ *)
(** ** Symbol reconstruction: [reconstruct_original_manuscript] *)

(** One symbol: [0..=255] is the byte itself; anything else is the word
    [word_grimoire.get((word_reference - 256) as usize)], and a reference
    with no word is skipped ("invalid references are ignored"). *)
Definition reconstruct_symbol (word_grimoire : list (list Byte.byte))
    (sym : Z) : list Byte.byte :=
  if (0 <=? sym) && (sym <=? 255) then [byte_of sym]
  else match nth_error word_grimoire (Z.to_nat (u32_of (sym - 256))) with
       | Some w => w
       | None => []
       end.

Fixpoint reconstruct_original_manuscript (syms : list Z)
    (word_grimoire : list (list Byte.byte)) : list Byte.byte :=
  match syms with
  | [] => []
  | s :: syms' =>
      reconstruct_symbol word_grimoire s
        ++ reconstruct_original_manuscript syms' word_grimoire
  end.

Definition theme_text : list Byte.byte := list_byte_of_string "theme the theory the"%string.
Definition the_word : list Byte.byte := list_byte_of_string "the"%string.

(* ------------------------------------------------------------------ *)
(** ** Facts about bytes and the substitution loop *)

Lemma byte_val_range (b : Byte.byte) : 0 <= byte_val b <= 255.
Proof.
  unfold byte_val. pose proof (Byte.to_N_bounded b). lia.
Qed.

Lemma byte_of_byte_val (b : Byte.byte) : byte_of (byte_val b) = b.
Proof.
  unfold byte_of, u8_of. pose proof (byte_val_range b) as Hr.
  rewrite Z.mod_small by (cbn; lia).
  unfold byte_val. rewrite N2Z.id, Byte.of_to_N. reflexivity.
Qed.

Lemma skipn_byte_at (bs : list Byte.byte) (pos : nat) :
  (pos < length bs)%nat -> skipn pos bs = byte_at bs pos :: skipn (S pos) bs.
Proof.
  unfold byte_at. revert pos. induction bs as [|b bs IH]; intros pos H.
  - cbn in H. lia.
  - destruct pos as [|pos]; [reflexivity|]. cbn in *. apply IH. lia.
Qed.

Lemma word_bytes_match_skipn (bs : list Byte.byte) (w : list Byte.byte) :
  forall pos, (pos + length w <= length bs)%nat ->
  word_bytes_match bs pos w = true ->
  skipn pos bs = w ++ skipn (pos + length w) bs.
Proof.
  induction w as [|e w IH]; intros pos Hlen Hm.
  - cbn. now rewrite Nat.add_0_r.
  - cbn in Hm, Hlen. apply andb_prop in Hm as [He Hm].
    apply Byte.byte_dec_bl in He. rewrite skipn_byte_at by lia.
    rewrite He. cbn [app]. f_equal. rewrite IH by (auto; lia).
    now replace (S pos + length w)%nat with (pos + S (length w))%nat by lia.
Qed.

Lemma try_grimoire_spec (bs : list Byte.byte) (pos : nat) :
  forall ws i sym pos',
  try_grimoire bs pos ws i = Some (sym, pos') ->
  exists k w, nth_error ws k = Some w
    /\ sym = reference_symbol (i + k) /\ pos' = (pos + length w)%nat
    /\ (pos + length w <= length bs)%nat
    /\ word_bytes_match bs pos w = true
    /\ word_bounded bs pos (pos + length w) = true.
Proof.
  induction ws as [|w ws IH]; intros i sym pos' H; cbn in H; [discriminate|].
  destruct (_ && _ && _) eqn:Hc.
  - injection H as <- <-. apply andb_prop in Hc as [Hc Hb].
    apply andb_prop in Hc as [Hl Hm]. apply Nat.leb_le in Hl.
    exists 0%nat, w. rewrite Nat.add_0_r. repeat split; auto.
  - destruct (IH _ _ _ H) as (k & w' & Hk & Hs & Hp & Hrest).
    exists (S k), w'. rewrite Nat.add_succ_r. cbn. auto.
Qed.

Lemma transform_step_spec (bs : list Byte.byte) (ws : list (list Byte.byte))
    (pos : nat) :
  let '(sym, pos') := transform_step bs ws pos in
  (sym = byte_val (byte_at bs pos) /\ pos' = S pos)
  \/ exists k w, nth_error ws k = Some w
      /\ sym = reference_symbol k /\ pos' = (pos + length w)%nat
      /\ (pos + length w <= length bs)%nat
      /\ word_bytes_match bs pos w = true
      /\ word_bounded bs pos (pos + length w) = true.
Proof.
  unfold transform_step.
  destruct (is_ascii_alphabetic _ || _); [|left; auto].
  destruct (try_grimoire bs pos ws 0) as [[sym pos']|] eqn:Ht; [|left; auto].
  right. exact (try_grimoire_spec _ _ _ _ _ _ Ht).
Qed.

(** With [length ws <= 2^32 - 256] the dictionary symbol is [256 + k]. *)
Lemma reference_symbol_small (k : nat) :
  (Z.of_nat k < 2 ^ 32 - 256) -> reference_symbol k = 256 + Z.of_nat k.
Proof.
  intros H. unfold reference_symbol, u32_of.
  rewrite (Z.mod_small (Z.of_nat k)) by lia.
  apply Z.mod_small. lia.
Qed.

Lemma reconstruct_app (s1 s2 : list Z) (ws : list (list Byte.byte)) :
  reconstruct_original_manuscript (s1 ++ s2) ws
  = reconstruct_original_manuscript s1 ws ++ reconstruct_original_manuscript s2 ws.
Proof.
  induction s1 as [|s s1 IH]; cbn; [reflexivity|]. now rewrite IH, app_assoc.
Qed.

Lemma transform_loop_reconstruct (bs : list Byte.byte) (ws : list (list Byte.byte)) :
  (forall w, In w ws -> w <> []) ->
  (Z.of_nat (length ws) <= 2 ^ 32 - 256) ->
  forall fuel pos, (length bs - pos <= fuel)%nat ->
  reconstruct_original_manuscript (transform_loop bs ws fuel pos) ws = skipn pos bs.
Proof.
  intros Hne Hlen. induction fuel as [|fuel IH]; intros pos Hf.
  - cbn. rewrite skipn_all2 by lia. reflexivity.
  - cbn [transform_loop].
    destruct (Nat.ltb_spec pos (length bs)) as [Hlt|Hge].
    2:{ rewrite skipn_all2 by lia. reflexivity. }
    pose proof (transform_step_spec bs ws pos) as Hs.
    destruct (transform_step bs ws pos) as [sym pos'].
    cbn [reconstruct_original_manuscript].
    destruct Hs as [[-> ->] | (k & w & Hk & -> & -> & Hl & Hm & _)].
    + rewrite IH by lia. rewrite (skipn_byte_at _ _ Hlt).
      unfold reconstruct_symbol. pose proof (byte_val_range (byte_at bs pos)).
      replace ((0 <=? _) && (_ <=? 255)) with true by (symmetry; apply andb_true_intro; split; apply Z.leb_le; lia).
      rewrite byte_of_byte_val. reflexivity.
    + assert (Hw : w <> []) by (apply Hne; eapply nth_error_In; eauto).
      assert (Hwl : (1 <= length w)%nat) by (destruct w; [congruence|cbn; lia]).
      assert (Hkl : (k < length ws)%nat) by (apply nth_error_Some; congruence).
      rewrite IH by lia. rewrite (word_bytes_match_skipn bs w pos Hl Hm).
      unfold reconstruct_symbol. rewrite reference_symbol_small by lia.
      replace ((0 <=? 256 + Z.of_nat k) && (256 + Z.of_nat k <=? 255)) with false
        by (symmetry; apply andb_false_intro2; apply Z.leb_gt; lia).
      replace (u32_of (256 + Z.of_nat k - 256)) with (Z.of_nat k)
        by (unfold u32_of; rewrite Z.mod_small; lia).
      rewrite Nat2Z.id, Hk. reflexivity.
Qed.

Lemma try_grimoire_skip_repeat (bs : list Byte.byte) (pos : nat)
    (w : list Byte.byte) (rest : list (list Byte.byte)) :
  ((pos + length w <=? length bs)%nat && word_bytes_match bs pos w
     && word_bounded bs pos (pos + length w)) = false ->
  forall n i, try_grimoire bs pos (repeat w n ++ rest) i
              = try_grimoire bs pos rest (i + n).
Proof.
  intros Hw. induction n as [|n IH]; intros i.
  - cbn. now rewrite Nat.add_0_r.
  - cbn [repeat app try_grimoire]. rewrite Hw, IH. f_equal. lia.
Qed.

(** A dictionary of [n] copies of ["b"] followed by ["a"]: the text ["a"]
    is replaced by the reference of index [n]. *)
Lemma transform_a_after_repeat (n : nat) :
  transform_manuscript_to_symbols [Byte.x61]
    (repeat [Byte.x62] n ++ [[Byte.x61]]) = [reference_symbol n].
Proof.
  unfold transform_manuscript_to_symbols. cbn [length transform_loop].
  cbn [Nat.ltb Nat.leb]. unfold transform_step.
  replace (is_ascii_alphabetic (byte_at [Byte.x61] 0)
           || byte_eqb (byte_at [Byte.x61] 0) APOSTROPHE) with true by reflexivity.
  rewrite try_grimoire_skip_repeat by reflexivity.
  reflexivity.
Qed.

(** The dictionary used to show the [u32] wrap of dictionary symbols:
    [2^32] copies of the word ["b"], then the word ["a"]. *)
Definition wrap_grimoire : list (list Byte.byte) :=
  repeat [Byte.x62] (Z.to_nat (2 ^ 32)) ++ [[Byte.x61]].

(* ------------------------------------------------------------------ *)
(** ** Hash maps, stable sorting *)

(** The iteration order of [HashMap::into_iter] for the two maps of the
    crate: [HashMap<String, u64>] in the dictionary discovery and
    [HashMap<u32, u64>] in the frequency analysis.  Rust leaves this order
    unspecified and randomises it per map instance. *)
Record HashIter := {
  iter_words : list (list Byte.byte * Z) -> list (list Byte.byte * Z);
  iter_symbols : list (Z * Z) -> list (Z * Z)
}.

(** [into_iter] hands out exactly the entries of the map. *)
Definition hash_iter_ok (h : HashIter) : Prop :=
  (forall m, Permutation (iter_words h m) m)
  /\ (forall m, Permutation (iter_symbols h m) m).

(** One possible order: the insertion order. *)
Definition insertion_order : HashIter :=
  {| iter_words := fun m => m; iter_symbols := fun m => m |}.

(** [*map.entry(k).or_insert(0u64) += 1] on a map as an association list. *)
Fixpoint entry_increment {K : Type} (eqb : K -> K -> bool) (k : K)
    (m : list (K * Z)) : list (K * Z) :=
  match m with
  | [] => [(k, 1)]
  | (k', v) :: m' =>
      if eqb k k' then (k', u64_of (v + 1)) :: m'
      else (k', v) :: entry_increment eqb k m'
  end.

(** A stable sort ([slice::sort_by_key] is a stable sort): [before x y]
    holds when the key of [x] is at most the key of [y]; an element is put
    in front of every later element of equal key. *)
Fixpoint insert_stable {A : Type} (before : A -> A -> bool) (x : A)
    (l : list A) : list A :=
  match l with
  | [] => [x]
  | y :: l' => if before x y then x :: l else y :: insert_stable before x l'
  end.

Fixpoint sort_stable {A : Type} (before : A -> A -> bool) (l : list A) : list A :=
  match l with
  | [] => []
  | x :: l' => insert_stable before x (sort_stable before l')
  end.

(* ------------------------------------------------------------------ *)
(** ** [String::from_utf8_lossy] and [str::chars] *)

Definition is_utf8_cont (b : Z) : bool := Z.land b 192 =? 128.

(** [core::str::utf8_char_width]. *)
Definition utf8_char_width (b : Z) : nat :=
  if b <? 128 then 1 else if b <? 194 then 0 else if b <? 224 then 2
  else if b <? 240 then 3 else if b <? 245 then 4 else 0.

(** [safe_get]: the byte at [i], or [0] past the end. *)
Definition safe_get (bs : list Z) (i : nat) : Z := nth i bs 0.

(** One step of [Utf8Chunks::next] at the head of [bs]: either a valid
    character (its code point and width) or an invalid sequence (its
    length), which [from_utf8_lossy] turns into one U+FFFD. *)
Definition utf8_unit (bs : list Z) : option Z * nat :=
  let b0 := safe_get bs 0 in
  let b1 := safe_get bs 1 in
  let b2 := safe_get bs 2 in
  let b3 := safe_get bs 3 in
  match utf8_char_width b0 with
  | 1%nat => (Some b0, 1%nat)
  | 2%nat =>
      if negb (is_utf8_cont b1) then (None, 1%nat)
      else (Some (Z.lor (Z.shiftl (Z.land b0 31) 6) (Z.land b1 63)), 2%nat)
  | 3%nat =>
      let second_ok :=
        ((b0 =? 224) && (160 <=? b1) && (b1 <=? 191))
        || ((225 <=? b0) && (b0 <=? 236) && (128 <=? b1) && (b1 <=? 191))
        || ((b0 =? 237) && (128 <=? b1) && (b1 <=? 159))
        || ((238 <=? b0) && (b0 <=? 239) && (128 <=? b1) && (b1 <=? 191)) in
      if negb second_ok then (None, 1%nat)
      else if negb (is_utf8_cont b2) then (None, 2%nat)
      else (Some (Z.lor (Z.lor (Z.shiftl (Z.land b0 15) 12)
                                (Z.shiftl (Z.land b1 63) 6)) (Z.land b2 63)), 3%nat)
  | 4%nat =>
      let second_ok :=
        ((b0 =? 240) && (144 <=? b1) && (b1 <=? 191))
        || ((241 <=? b0) && (b0 <=? 243) && (128 <=? b1) && (b1 <=? 191))
        || ((b0 =? 244) && (128 <=? b1) && (b1 <=? 143)) in
      if negb second_ok then (None, 1%nat)
      else if negb (is_utf8_cont b2) then (None, 2%nat)
      else if negb (is_utf8_cont b3) then (None, 3%nat)
      else (Some (Z.lor (Z.lor (Z.lor (Z.shiftl (Z.land b0 7) 18)
                                       (Z.shiftl (Z.land b1 63) 12))
                                (Z.shiftl (Z.land b2 63) 6)) (Z.land b3 63)), 4%nat)
  | _ => (None, 1%nat)
  end.

Definition REPLACEMENT_CHARACTER : Z := 65533.

Fixpoint lossy_chars_fuel (fuel : nat) (bs : list Z) : list Z :=
  match fuel with
  | O => []
  | S fuel' =>
      match bs with
      | [] => []
      | _ =>
          let '(c, w) := utf8_unit bs in
          match c with
          | Some c => c
          | None => REPLACEMENT_CHARACTER
          end :: lossy_chars_fuel fuel' (skipn w bs)
      end
  end.

(** [String::from_utf8_lossy(bs).chars()]: every step consumes at least
    one byte, so [length bs] steps suffice. *)
Definition lossy_chars (bs : list Byte.byte) : list Z :=
  lossy_chars_fuel (length bs) (map byte_val bs).

(** The UTF-8 encoding of a character ([String::push]). *)
Definition char_utf8_bytes (c : Z) : list Byte.byte :=
  if c <? 128 then [byte_of c]
  else if c <? 2048 then
    [byte_of (Z.lor 192 (Z.shiftr c 6)); byte_of (Z.lor 128 (Z.land c 63))]
  else if c <? 65536 then
    [byte_of (Z.lor 224 (Z.shiftr c 12));
     byte_of (Z.lor 128 (Z.land (Z.shiftr c 6) 63));
     byte_of (Z.lor 128 (Z.land c 63))]
  else
    [byte_of (Z.lor 240 (Z.shiftr c 18));
     byte_of (Z.lor 128 (Z.land (Z.shiftr c 12) 63));
     byte_of (Z.lor 128 (Z.land (Z.shiftr c 6) 63));
     byte_of (Z.lor 128 (Z.land c 63))].

(** The bytes of [String::from_utf8_lossy(bs)]. *)
Definition from_utf8_lossy (bs : list Byte.byte) : list Byte.byte :=
  flat_map char_utf8_bytes (lossy_chars bs).

(* ------------------------------------------------------------------ *)
(** ** Dictionary discovery: [discover_profitable_word_enchantments] *)

(** [char::is_ascii_alphabetic] *)
Definition char_is_ascii_alphabetic (c : Z) : bool :=
  ((65 <=? c) && (c <=? 90)) || ((97 <=? c) && (c <=? 122)).

Definition list_byte_eqb (a b : list Byte.byte) : bool :=
  if list_eq_dec Byte.byte_eq_dec a b then true else false.

(** [if current_word_buffer.len() >= 3 { *almanac.entry(buffer).or_insert(0) += 1 }] *)
Definition count_word (buf : list Byte.byte) (almanac : list (list Byte.byte * Z))
  : list (list Byte.byte * Z) :=
  if (3 <=? length buf)%nat then entry_increment list_byte_eqb buf almanac
  else almanac.

(** The tokenising loop over [manuscript_text.chars()]; the state is
    [(current_word_buffer, word_frequency_almanac)]. *)
Fixpoint tokenize_words (cs : list Z) (buf : list Byte.byte)
    (almanac : list (list Byte.byte * Z)) : list (list Byte.byte * Z) :=
  match cs with
  | [] => count_word buf almanac
  | c :: cs' =>
      if char_is_ascii_alphabetic c || (c =? 39)
      then tokenize_words cs' (buf ++ char_utf8_bytes c) almanac
      else tokenize_words cs' [] (count_word buf almanac)
  end.

(** The [filter_map]: [(word, frequency, savings)] for a profitable word,
    with [savings] computed in [i64]. *)
Definition profitable_candidate (e : list Byte.byte * Z)
  : option (list Byte.byte * Z * Z) :=
  let '(w, f) := e in
  let l := i64_of (Z.of_nat (length w)) in
  let savings := i64_of (i64_of (l * i64_of f) - i64_of (l + 4)) in
  if (3 <? f) && (0 <? savings) then Some (w, f, savings) else None.

Definition MAX_GRIMOIRE_WORDS : nat := 25.
Definition MIN_DISCOVERY_LEN : nat := 1000.

(** The non-test build ([#[cfg(not(test))]] early return). *)
Definition discover_profitable_word_enchantments (h : HashIter)
    (manuscript_bytes : list Byte.byte) : list (list Byte.byte) :=
  if (length manuscript_bytes <? MIN_DISCOVERY_LEN)%nat then []
  else
    let almanac := tokenize_words (lossy_chars manuscript_bytes) [] [] in
    let candidates := flat_map (fun e => match profitable_candidate e with
                                         | Some c => [c] | None => [] end)
                               (iter_words h almanac) in
    let sorted := sort_stable (fun x y => snd y <=? snd x) candidates in
    map (fun c => fst (fst c)) (firstn MAX_GRIMOIRE_WORDS sorted).

(* ------------------------------------------------------------------ *)
(** ** Frequency analysis: [analyze_symbolic_frequencies] *)

Record FrequencyAnalysisWisdom := {
  frequency_entries : list (Z * Z * Z);   (* (symbol, count, cumulative start) *)
  total_frequency_mass : Z
}.

Fixpoint count_symbols (syms : list Z) (m : list (Z * Z)) : list (Z * Z) :=
  match syms with
  | [] => m
  | s :: syms' => count_symbols syms' (entry_increment Z.eqb s m)
  end.

(** The cumulative table: [current_position] before each entry. *)
Fixpoint cumulate (pos : Z) (pairs : list (Z * Z)) : list (Z * Z * Z) :=
  match pairs with
  | [] => []
  | (s, f) :: pairs' => (s, f, pos) :: cumulate (u64_of (pos + f)) pairs'
  end.

Definition analyze_symbolic_frequencies (h : HashIter) (syms : list Z)
  : FrequencyAnalysisWisdom :=
  let pairs := sort_stable (fun x y => fst x <=? fst y)
                 (iter_symbols h (count_symbols syms [])) in
  {| frequency_entries := cumulate 0 pairs;
     total_frequency_mass := u64_of (fold_right (fun p acc => snd p + acc) 0 pairs) |}.

Fixpoint repeat_text (n : nat) (t : list Byte.byte) : list Byte.byte :=
  match n with O => [] | S n' => t ++ repeat_text n' t end.

(** ["foo bar "] repeated 125 times: 1000 bytes, two equally profitable words. *)
Definition foo_bar_text : list Byte.byte :=
  repeat_text 125 (list_byte_of_string "foo bar "%string).

(** The reversed insertion order. *)
Definition reversed_order : HashIter :=
  {| iter_words := @rev _; iter_symbols := @rev _ |}.

(* ------------------------------------------------------------------ *)
(** ** Loops that may not terminate *)

(** A loop body either breaks ([Finished]) or continues ([Running]). *)
Inductive LoopResult (S : Type) : Type :=
| Finished (s : S)
| Running (s : S).
Arguments Finished {S} s.
Arguments Running {S} s.

(** At most [n] iterations of a [loop]. *)
Fixpoint loop_nat {S : Type} (body : S -> LoopResult S) (n : nat) (s : S)
  : LoopResult S :=
  match n with
  | O => Running s
  | S n' =>
      match body s with
      | Finished s' => Finished s'
      | Running s' => loop_nat body n' s'
      end
  end.

(** At most [2^k] iterations, computed lazily (only the iterations that are
    actually run are evaluated). *)
Fixpoint loop_pow {S : Type} (body : S -> LoopResult S) (k : nat) (s : S)
  : LoopResult S :=
  match k with
  | O => body s
  | S k' =>
      match loop_pow body k' s with
      | Finished s' => Finished s'
      | Running s' => loop_pow body k' s'
      end
  end.

(** The Rust [loop { ... }] of the two [normalize] functions.  Whether
    their body breaks depends only on [(low, high)], a pair of [u32]
    values; a run of [2^64] iterations without a break visits [2^64 + 1]
    states, so two of them share [(low, high)] and the loop runs forever.
    [None] is therefore exactly non-termination. *)
Definition run_loop {S : Type} (body : S -> LoopResult S) (s : S) : option S :=
  match loop_pow body 64 s with
  | Finished s' => Some s'
  | Running _ => None
  end.

(* ------------------------------------------------------------------ *)
(** ** [BitMagicWriter] *)

Definition ARITHMETIC_PRECISION_LIMIT : Z := 2 ^ 24 - 1.
Definition FIRST_QTR : Z := ARITHMETIC_PRECISION_LIMIT / 4 + 1.
Definition HALF : Z := 2 * FIRST_QTR.
Definition THIRD_QTR : Z := 3 * FIRST_QTR.

Record BitMagicWriter := {
  mystical_output_scroll : list Byte.byte;
  bit_accumulation_cauldron : Z;   (* u8 *)
  bits_brewing_count : Z;          (* u8 *)
  pending_mystical_bits : Z        (* u32 *)
}.

Definition conjure_new : BitMagicWriter :=
  {| mystical_output_scroll := []; bit_accumulation_cauldron := 0;
     bits_brewing_count := 0; pending_mystical_bits := 0 |}.

Definition write_bit (w : BitMagicWriter) (bit : Z) : BitMagicWriter :=
  let cauldron := u8_of (Z.lor (Z.shiftl (bit_accumulation_cauldron w) 1) (Z.land bit 1)) in
  let count := u8_of (bits_brewing_count w + 1) in
  if count =? 8 then
    {| mystical_output_scroll := mystical_output_scroll w ++ [byte_of cauldron];
       bit_accumulation_cauldron := 0; bits_brewing_count := 0;
       pending_mystical_bits := pending_mystical_bits w |}
  else
    {| mystical_output_scroll := mystical_output_scroll w;
       bit_accumulation_cauldron := cauldron; bits_brewing_count := count;
       pending_mystical_bits := pending_mystical_bits w |}.

Fixpoint repeat_write (n : nat) (w : BitMagicWriter) (bit : Z) : BitMagicWriter :=
  match n with O => w | S n' => repeat_write n' (write_bit w bit) bit end.

Definition with_pending (w : BitMagicWriter) (p : Z) : BitMagicWriter :=
  {| mystical_output_scroll := mystical_output_scroll w;
     bit_accumulation_cauldron := bit_accumulation_cauldron w;
     bits_brewing_count := bits_brewing_count w; pending_mystical_bits := p |}.

(** [output_bit]: the bit, then [pending] opposite bits. *)
Definition output_bit (w : BitMagicWriter) (bit : Z) : BitMagicWriter :=
  let w1 := write_bit w bit in
  let w2 := repeat_write (Z.to_nat (pending_mystical_bits w)) w1 (u8_of (1 - bit)) in
  with_pending w2 0.

Fixpoint repeat_output (n : nat) (w : BitMagicWriter) (bit : Z) : BitMagicWriter :=
  match n with O => w | S n' => repeat_output n' (output_bit w bit) bit end.

(** [bit_plus_follow]: its own follow loop reads [pending] after
    [output_bit] has reset it. *)
Definition bit_plus_follow (w : BitMagicWriter) (bit : Z) : BitMagicWriter :=
  let w1 := output_bit w bit in
  let w2 := repeat_output (Z.to_nat (pending_mystical_bits w1)) w1 (u8_of (1 - bit)) in
  with_pending w2 0.

Definition complete_compression_ritual (w : BitMagicWriter) : list Byte.byte :=
  let w1 := with_pending w (u32_of (pending_mystical_bits w + 1)) in
  let w2 := if 0 <? pending_mystical_bits w1 then bit_plus_follow w1 1 else w1 in
  if 0 <? bits_brewing_count w2 then
    mystical_output_scroll w2
      ++ [byte_of (u8_of (Z.shiftl (bit_accumulation_cauldron w2) (8 - bits_brewing_count w2)))]
  else mystical_output_scroll w2.

(* ------------------------------------------------------------------ *)
(** ** The interval codec *)

(** The narrowing shared by [encode_mystical_symbol] and
    [update_mystical_intervals], in [u64] then cast to [u32]. *)
Definition narrow_interval (low high start fin total : Z) : Z * Z :=
  let range := u64_of (u64_of (high - low) + 1) in
  let high' := u32_of (u64_of (u64_of (low + u64_of (range * fin) / total) - 1)) in
  let low' := u32_of (u64_of (low + u64_of (range * start) / total)) in
  (low', high').

(** Encoder state: the writer and the interval [(low, high)]. *)
Record EncState := {
  enc_writer : BitMagicWriter;
  enc_low : Z;
  enc_high : Z
}.

(** One iteration of [BitMagicWriter::normalize]. *)
Definition enc_normalize_body (s : EncState) : LoopResult EncState :=
  let w := enc_writer s in
  let low := enc_low s in
  let high := enc_high s in
  let scale w low high :=
    Running {| enc_writer := w; enc_low := u32_of (2 * low);
               enc_high := u32_of (2 * high + 1) |} in
  if high <? HALF then scale (bit_plus_follow w 0) low high
  else if HALF <=? low then scale (bit_plus_follow w 1) (low - HALF) (high - HALF)
  else if (FIRST_QTR <=? low) && (high <? THIRD_QTR) then
    scale (with_pending w (u32_of (pending_mystical_bits w + 1)))
          (low - FIRST_QTR) (high - FIRST_QTR)
  else Finished s.

Definition enc_normalize (s : EncState) : option EncState :=
  run_loop enc_normalize_body s.

(** [None] also covers the division-by-zero panic of [total = 0]. *)
Definition encode_mystical_symbol (s : EncState) (start fin total : Z)
  : option EncState :=
  if total =? 0 then None else
  let '(low', high') := narrow_interval (enc_low s) (enc_high s) start fin total in
  enc_normalize {| enc_writer := enc_writer s; enc_low := low'; enc_high := high' |}.

(* ------------------------------------------------------------------ *)
(** ** The encoder: [weave_compression_spell] *)

Record CompressionArtifact := {
  mystical_frequency_codex : list (Z * Z * Z);
  total_frequency_essence : Z;
  compressed_bit_stream : list Byte.byte;
  mystical_word_grimoire : list (list Byte.byte)
}.

(** [iter().find(pred)], together with the number of entries the scan
    examined. *)
Fixpoint find_with_probes {A : Type} (p : A -> bool) (l : list A)
  : option A * nat :=
  match l with
  | [] => (None, 0%nat)
  | x :: l' =>
      if p x then (Some x, 1%nat)
      else let '(r, n) := find_with_probes p l' in (r, S n)
  end.

Definition find_entry {A : Type} (p : A -> bool) (l : list A) : option A :=
  fst (find_with_probes p l).

Definition entry_symbol (e : Z * Z * Z) : Z := fst (fst e).
Definition entry_count (e : Z * Z * Z) : Z := snd (fst e).
Definition entry_start (e : Z * Z * Z) : Z := snd e.

(** [frequency_entries.iter().find(|&&(symbol_id, _, _)| symbol_id == s)] *)
Definition find_by_symbol (entries : list (Z * Z * Z)) (s : Z) : option (Z * Z * Z) :=
  find_entry (fun e => entry_symbol e =? s) entries.

(** The body of [for mystical_symbol in symbolic_incantations]. *)
Definition encode_one (fa : FrequencyAnalysisWisdom) (s : EncState) (sym : Z)
  : option EncState :=
  match find_by_symbol (frequency_entries fa) sym with
  | Some e =>
      encode_mystical_symbol s (u32_of (entry_start e))
        (u32_of (u64_of (entry_start e + entry_count e)))
        (u32_of (total_frequency_mass fa))
  | None => Some s
  end.

Fixpoint encode_symbols (fa : FrequencyAnalysisWisdom) (s : EncState)
    (syms : list Z) : option EncState :=
  match syms with
  | [] => Some s
  | sym :: syms' =>
      match encode_one fa s sym with
      | Some s' => encode_symbols fa s' syms'
      | None => None
      end
  end.

Definition enc_init : EncState :=
  {| enc_writer := conjure_new; enc_low := 0; enc_high := ARITHMETIC_PRECISION_LIMIT |}.

(** [None] when a renormalisation loop never terminates or the coder
    divides by a zero total. *)
Definition weave_compression_spell (h : HashIter) (original_manuscript : list Byte.byte)
  : option CompressionArtifact :=
  let grimoire := discover_profitable_word_enchantments h original_manuscript in
  let syms := transform_manuscript_to_symbols original_manuscript grimoire in
  let fa := analyze_symbolic_frequencies h syms in
  match encode_symbols fa enc_init syms with
  | Some s =>
      Some {| mystical_frequency_codex := frequency_entries fa;
              total_frequency_essence := total_frequency_mass fa;
              compressed_bit_stream := complete_compression_ritual (enc_writer s);
              mystical_word_grimoire := grimoire |}
  | None => None
  end.

(* ------------------------------------------------------------------ *)
(** ** [BitMagicReader] and the decoder: [unweave_compression_spell] *)

Record BitMagicReader := {
  compressed_mystical_scroll : list Byte.byte;
  byte_pos : nat;
  bit_pos : Z;                     (* u8 *)
  interval_position_tracker : Z    (* u32 *)
}.

Definition read_bit (r : BitMagicReader) : Z * BitMagicReader :=
  if (length (compressed_mystical_scroll r) <=? byte_pos r)%nat then (0, r)
  else
    let bit := Z.land (Z.shiftr (byte_val (byte_at (compressed_mystical_scroll r) (byte_pos r)))
                                (7 - bit_pos r)) 1 in
    let bp := u8_of (bit_pos r + 1) in
    let r' := if bp =? 8
      then {| compressed_mystical_scroll := compressed_mystical_scroll r;
              byte_pos := S (byte_pos r); bit_pos := 0;
              interval_position_tracker := interval_position_tracker r |}
      else {| compressed_mystical_scroll := compressed_mystical_scroll r;
              byte_pos := byte_pos r; bit_pos := bp;
              interval_position_tracker := interval_position_tracker r |} in
    (bit, r').

Definition set_tracker (r : BitMagicReader) (t : Z) : BitMagicReader :=
  {| compressed_mystical_scroll := compressed_mystical_scroll r;
     byte_pos := byte_pos r; bit_pos := bit_pos r; interval_position_tracker := t |}.

(** [tracker = (tracker << 1) | read_bit()], [n] times. *)
Fixpoint prime_tracker (n : nat) (r : BitMagicReader) : BitMagicReader :=
  match n with
  | O => r
  | S n' =>
      let '(bit, r1) := read_bit r in
      prime_tracker n' (set_tracker r1
        (u32_of (Z.lor (Z.shiftl (interval_position_tracker r1) 1) bit)))
  end.

Definition conjure_from_scroll (scroll : list Byte.byte) : BitMagicReader :=
  prime_tracker 24 {| compressed_mystical_scroll := scroll; byte_pos := 0;
                      bit_pos := 0; interval_position_tracker := 0 |}.

(** [decode_mystical_target]; [None] is the division-by-zero panic of an
    empty range. *)
Definition decode_mystical_target (r : BitMagicReader) (total low high : Z) : option Z :=
  let range := u64_of (u64_of (high - low) + 1) in
  if range =? 0 then None
  else Some (u32_of (u64_of (u64_of (u64_of (u64_of (interval_position_tracker r - low) + 1)
                                     * total) - 1) / range)).

Record DecState := {
  dec_reader : BitMagicReader;
  dec_low : Z;
  dec_high : Z
}.

(** One iteration of [BitMagicReader::normalize]. *)
Definition dec_normalize_body (s : DecState) : LoopResult DecState :=
  let r := dec_reader s in
  let low := dec_low s in
  let high := dec_high s in
  let scale r low high :=
    let '(bit, r1) := read_bit r in
    Running {| dec_reader := set_tracker r1
                 (u32_of (2 * interval_position_tracker r1 + bit));
               dec_low := u32_of (2 * low); dec_high := u32_of (2 * high + 1) |} in
  if high <? HALF then scale r low high
  else if HALF <=? low then
    scale (set_tracker r (u32_of (interval_position_tracker r - HALF)))
          (low - HALF) (high - HALF)
  else if (FIRST_QTR <=? low) && (high <? THIRD_QTR) then
    scale (set_tracker r (u32_of (interval_position_tracker r - FIRST_QTR)))
          (low - FIRST_QTR) (high - FIRST_QTR)
  else Finished s.

Definition dec_normalize (s : DecState) : option DecState :=
  run_loop dec_normalize_body s.

Definition update_mystical_intervals (s : DecState) (start fin total : Z)
  : option DecState :=
  if total =? 0 then None else
  let '(low', high') := narrow_interval (dec_low s) (dec_high s) start fin total in
  dec_normalize {| dec_reader := dec_reader s; dec_low := low'; dec_high := high' |}.

(** The [find] of the symbol whose cumulative range contains [target]. *)
Definition range_contains (target : Z) (e : Z * Z * Z) : bool :=
  let symbol_end := u64_of (entry_start e + entry_count e) in
  (u32_of (entry_start e) <=? target) && (target <? u32_of symbol_end).

(** The symbol lookup of the decoder, falling back to the first entry
    (or [0]) when no range contains [target]. *)
Definition resolve_symbol (codex : list (Z * Z * Z)) (target : Z) : Z :=
  match find_entry (range_contains target) codex with
  | Some e => entry_symbol e
  | None => match codex with e :: _ => entry_symbol e | [] => 0 end
  end.

(** The body of [for _symbol_position in 0..total_frequency_essence]. *)
Definition decode_one (codex : list (Z * Z * Z)) (total : Z) (s : DecState)
  : option (Z * DecState) :=
  match decode_mystical_target (dec_reader s) (u32_of total) (dec_low s) (dec_high s) with
  | None => None
  | Some target =>
      let sym := resolve_symbol codex target in
      match find_by_symbol codex sym with
      | Some e =>
          match update_mystical_intervals s (u32_of (entry_start e))
                  (u32_of (u64_of (entry_start e + entry_count e))) (u32_of total) with
          | Some s' => Some (sym, s')
          | None => None
          end
      | None => Some (sym, s)
      end
  end.

Fixpoint decode_symbols (codex : list (Z * Z * Z)) (total : Z) (n : nat)
    (s : DecState) : option (list Z) :=
  match n with
  | O => Some []
  | S n' =>
      match decode_one codex total s with
      | Some (sym, s') =>
          match decode_symbols codex total n' s' with
          | Some syms => Some (sym :: syms)
          | None => None
          end
      | None => None
      end
  end.

(** [Vec::<u32>::with_capacity(n)] panics with a capacity overflow when
    [n * size_of::<u32>()] exceeds [isize::MAX = 2^63 - 1], that is for
    [n >= 2^61]. *)
Definition vec_u32_capacity_ok (n : Z) : bool := 4 * n <=? 2 ^ 63 - 4.

(** [None] when the decoder panics (capacity overflow of the result
    vector, division by zero) or a renormalisation loop never terminates.
    The table printing of [display_frequency_codex_wisdom] has no effect
    on the result. *)
Definition unweave_compression_spell (a : CompressionArtifact) : option (list Byte.byte) :=
  let st := {| dec_reader := conjure_from_scroll (compressed_bit_stream a);
               dec_low := 0; dec_high := ARITHMETIC_PRECISION_LIMIT |} in
  if negb (vec_u32_capacity_ok (total_frequency_essence a)) then None else
  match decode_symbols (mystical_frequency_codex a) (total_frequency_essence a)
          (Z.to_nat (total_frequency_essence a)) st with
  | Some syms => Some (reconstruct_original_manuscript syms (mystical_word_grimoire a))
  | None => None
  end.

Definition roundtrip (h : HashIter) (x : list Byte.byte) : option (list Byte.byte) :=
  match weave_compression_spell h x with
  | Some a => unweave_compression_spell a
  | None => None
  end.

(* ------------------------------------------------------------------ *)
(** ** Facts about the stable sort and the frequency table *)

Section StableSort.
Context {A : Type} (before : A -> A -> bool).
Hypothesis before_total : forall x y, before x y = false -> before y x = true.

Lemma insert_stable_perm (x : A) (l : list A) :
  Permutation (insert_stable before x l) (x :: l).
Proof.
  induction l as [|y l IH]; cbn; [auto|].
  destruct (before x y); [auto|].
  eapply perm_trans; [apply perm_skip, IH|apply perm_swap].
Qed.

Lemma sort_stable_perm (l : list A) : Permutation (sort_stable before l) l.
Proof.
  induction l as [|x l IH]; cbn; [auto|].
  eapply perm_trans; [apply insert_stable_perm|]. auto.
Qed.

Lemma insert_stable_sorted (x : A) (l : list A) :
  Sorted (fun a b => before a b = true) l ->
  Sorted (fun a b => before a b = true) (insert_stable before x l).
Proof.
  induction 1 as [|y l Hs IH Hhd]; cbn; [auto|].
  destruct (before x y) eqn:Hxy; [auto|].
  constructor; [exact IH|].
  destruct l as [|z l]; cbn; [constructor; auto|].
  inversion Hhd; subst.
  destruct (before x z); constructor; auto.
Qed.

Lemma sort_stable_sorted (l : list A) :
  Sorted (fun a b => before a b = true) (sort_stable before l).
Proof.
  induction l as [|x l IH]; cbn; [constructor|]. now apply insert_stable_sorted.
Qed.
End StableSort.

(** A well-formed cumulative table starting at [c] and ending at [total]:
    each entry starts where the previous one ended and has a positive
    count. *)
Fixpoint table_from (c : Z) (es : list (Z * Z * Z)) (total : Z) : Prop :=
  match es with
  | [] => c = total
  | e :: es' => entry_start e = c /\ 1 <= entry_count e
                /\ table_from (c + entry_count e) es' total
  end.

Definition sum_counts (pairs : list (Z * Z)) : Z :=
  fold_right (fun p acc => snd p + acc) 0 pairs.

Lemma sum_counts_perm (l1 l2 : list (Z * Z)) :
  Permutation l1 l2 -> sum_counts l1 = sum_counts l2.
Proof.
  unfold sum_counts. induction 1; cbn; lia.
Qed.

(** The number of occurrences of [s] in [syms]. *)
Definition occurrences (s : Z) (syms : list Z) : Z :=
  Z.of_nat (count_occ Z.eq_dec syms s).

(** Facts on the counting map. *)
Definition count_map_ok (m : list (Z * Z)) : Prop :=
  NoDup (map fst m) /\ (forall k v, In (k, v) m -> 1 <= v).

Lemma entry_increment_keys (k : Z) (m : list (Z * Z)) :
  forall x, In x (map fst (entry_increment Z.eqb k m)) <-> x = k \/ In x (map fst m).
Proof.
  induction m as [|[k' v] m IH]; intros x; cbn; [intuition (subst; auto)|].
  destruct (Z.eqb_spec k k') as [->|Hne]; cbn; [intuition (subst; auto)|].
  rewrite IH. intuition (subst; auto).
Qed.

Lemma entry_increment_lookup (k : Z) (m : list (Z * Z)) :
  NoDup (map fst m) ->
  forall k0 v0, In (k0, v0) (entry_increment Z.eqb k m) ->
    (k0 <> k /\ In (k0, v0) m)
    \/ (k0 = k /\ ((v0 = 1 /\ ~ In k (map fst m))
                   \/ exists v, In (k, v) m /\ v0 = u64_of (v + 1))).
Proof.
  induction m as [|[k' v] m IH]; intros Hnd k0 v0 Hin; cbn in Hin.
  - destruct Hin as [[= <- <-]|[]]. right. split; [reflexivity|].
    left. split; [reflexivity|intros []].
  - inversion Hnd as [|? ? Hk' Hnd']; subst.
    destruct (Z.eqb_spec k k') as [<-|Hne].
    + destruct Hin as [[= <- <-]|Hin].
      * right. split; auto. right. exists v. cbn. auto.
      * left. split; [intros ->; apply Hk'; now apply (in_map fst) in Hin|cbn; auto].
    + destruct Hin as [[= <- <-]|Hin].
      * left. cbn. split; [congruence|auto].
      * destruct (IH Hnd' _ _ Hin) as [[H1 H2]|[H1 [[H2 H3]|(v1 & H2 & H3)]]].
        -- left. cbn. auto.
        -- right. split; auto. left. split; auto. cbn. intros [H|H]; auto.
        -- right. split; auto. right. exists v1. cbn. auto.
Qed.

(** The count stored for [k] ([0] when absent); the first entry wins. *)
Fixpoint lookupZ (k : Z) (m : list (Z * Z)) : Z :=
  match m with
  | [] => 0
  | (k', v) :: m' => if k =? k' then v else lookupZ k m'
  end.

Lemma entry_increment_lookupZ (k k0 : Z) (m : list (Z * Z)) :
  lookupZ k0 (entry_increment Z.eqb k m)
  = if k0 =? k then u64_of (lookupZ k m + 1) else lookupZ k0 m.
Proof.
  induction m as [|[k' v] m IH]; cbn.
  - now destruct (k0 =? k).
  - destruct (Z.eqb_spec k k') as [<-|Hne]; cbn.
    + now destruct (k0 =? k).
    + rewrite IH. destruct (Z.eqb_spec k0 k) as [->|]; [|reflexivity].
      apply Z.eqb_neq in Hne. now rewrite Hne.
Qed.

Lemma entry_increment_keys_eq (k : Z) (m : list (Z * Z)) :
  map fst (entry_increment Z.eqb k m)
  = if existsb (Z.eqb k) (map fst m) then map fst m else map fst m ++ [k].
Proof.
  induction m as [|[k' v] m IH]; cbn; [reflexivity|].
  destruct (Z.eqb k k'); cbn; [reflexivity|].
  rewrite IH. now destruct (existsb _ _).
Qed.

Lemma entry_increment_nodup (k : Z) (m : list (Z * Z)) :
  NoDup (map fst m) -> NoDup (map fst (entry_increment Z.eqb k m)).
Proof.
  intros Hnd. rewrite entry_increment_keys_eq.
  destruct (existsb (Z.eqb k) (map fst m)) eqn:He; [exact Hnd|].
  apply NoDup_app; auto using NoDup_cons, NoDup_nil.
  intros x Hx [->|[]]. assert (existsb (Z.eqb x) (map fst m) = true)
    by (apply existsb_exists; exists x; split; auto; apply Z.eqb_refl).
  congruence.
Qed.

Lemma lookupZ_nonneg (m : list (Z * Z)) :
  (forall k v, In (k, v) m -> 0 <= v) -> forall k, 0 <= lookupZ k m.
Proof.
  induction m as [|[k' v] m IH]; intros Hm k; cbn; [lia|].
  destruct (k =? k'); [eapply Hm; left; eauto|].
  apply IH. intros; eapply Hm; right; eauto.
Qed.

Lemma lookupZ_In (m : list (Z * Z)) :
  NoDup (map fst m) -> forall k v, In (k, v) m -> lookupZ k m = v.
Proof.
  induction m as [|[k' v'] m IH]; intros Hnd k v Hin; [destruct Hin|].
  inversion Hnd as [|? ? Hk' Hnd']; subst. cbn.
  destruct Hin as [[= -> ->]|Hin]; [now rewrite Z.eqb_refl|].
  destruct (Z.eqb_spec k k') as [->|]; [|auto].
  exfalso. apply Hk'. now apply (in_map fst) in Hin.
Qed.

Lemma sum_counts_increment (k : Z) (m : list (Z * Z)) :
  0 <= lookupZ k m -> lookupZ k m + 1 < 2 ^ 64 ->
  sum_counts (entry_increment Z.eqb k m) = sum_counts m + 1.
Proof.
  unfold sum_counts. induction m as [|[k' v] m IH]; intros H0 H1; cbn in *; [reflexivity|].
  destruct (k =? k'); cbn.
  - unfold u64_of. rewrite Z.mod_small by lia. lia.
  - rewrite IH by lia. lia.
Qed.

Lemma entry_increment_values (k : Z) (m : list (Z * Z)) :
  (forall k0 v0, In (k0, v0) m -> 0 <= v0) ->
  forall k0 v0, In (k0, v0) (entry_increment Z.eqb k m) -> 0 <= v0.
Proof.
  induction m as [|[k' v] m IH]; intros Hm k0 v0 Hin; cbn in Hin.
  - destruct Hin as [[= _ <-]|[]]. lia.
  - destruct (k =? k'); destruct Hin as [Hin|Hin].
    + injection Hin as _ <-. unfold u64_of. apply Z.mod_pos_bound. lia.
    + eapply Hm. right. eauto.
    + injection Hin as _ <-. eapply Hm. left. eauto.
    + eapply IH; eauto. intros; eapply Hm; right; eauto.
Qed.

Lemma occurrences_cons (s k : Z) (syms : list Z) :
  occurrences k (s :: syms) = (if k =? s then 1 else 0) + occurrences k syms.
Proof.
  unfold occurrences. cbn. destruct (Z.eq_dec s k) as [->|Hne].
  - rewrite Z.eqb_refl. lia.
  - replace (k =? s) with false by (symmetry; apply Z.eqb_neq; congruence). lia.
Qed.

Lemma occurrences_nonneg (k : Z) (syms : list Z) : 0 <= occurrences k syms.
Proof. unfold occurrences. lia. Qed.

Lemma occurrences_le_length (k : Z) (syms : list Z) :
  occurrences k syms <= Z.of_nat (length syms).
Proof.
  unfold occurrences. induction syms as [|s syms IH]; cbn; [lia|].
  destruct (Z.eq_dec s k); lia.
Qed.

(** The counting loop of [analyze_symbolic_frequencies], without overflow. *)
Lemma count_symbols_spec (syms : list Z) :
  forall m, NoDup (map fst m) ->
  (forall k v, In (k, v) m -> 0 <= v) ->
  (forall k, lookupZ k m + occurrences k syms < 2 ^ 64) ->
  NoDup (map fst (count_symbols syms m))
  /\ (forall k v, In (k, v) (count_symbols syms m) -> 0 <= v)
  /\ (forall k, lookupZ k (count_symbols syms m) = lookupZ k m + occurrences k syms)
  /\ (forall k, In k (map fst (count_symbols syms m)) <-> In k (map fst m) \/ In k syms)
  /\ sum_counts (count_symbols syms m) = sum_counts m + Z.of_nat (length syms).
Proof.
  induction syms as [|s syms IH]; intros m Hnd Hpos Hov; cbn [count_symbols].
  - repeat split; auto.
    + intros k. unfold occurrences. cbn. lia.
    + intros [H|[]]; auto.
    + cbn. lia.
  - assert (Hs : 0 <= lookupZ s m) by (apply lookupZ_nonneg; auto).
    assert (Hs1 : lookupZ s m + 1 < 2 ^ 64)
      by (specialize (Hov s); rewrite occurrences_cons, Z.eqb_refl in Hov;
          pose proof (occurrences_nonneg s syms); lia).
    destruct (IH (entry_increment Z.eqb s m)) as (H1 & H2 & H3 & H4 & H5).
    + now apply entry_increment_nodup.
    + now apply entry_increment_values.
    + intros k. rewrite entry_increment_lookupZ. specialize (Hov k).
      rewrite occurrences_cons in Hov.
      destruct (Z.eqb_spec k s) as [Hks|]; [subst k|lia].
      unfold u64_of. rewrite Z.mod_small by lia. lia.
    + refine (conj H1 (conj H2 (conj _ (conj _ _)))).
      * intros k. rewrite H3, entry_increment_lookupZ, occurrences_cons.
        destruct (Z.eqb_spec k s) as [Hks|]; [subst k|lia].
        unfold u64_of. rewrite Z.mod_small by lia. lia.
      * intros k. rewrite H4, entry_increment_keys. cbn. intuition (subst; auto).
      * rewrite H5, sum_counts_increment by auto. cbn [length]. lia.
Qed.

Lemma occurrences_pos (k : Z) (syms : list Z) : In k syms -> 1 <= occurrences k syms.
Proof.
  intros H. unfold occurrences. apply (count_occ_In Z.eq_dec) in H. lia.
Qed.

Lemma cumulate_symbols (c : Z) (pairs : list (Z * Z)) :
  map entry_symbol (cumulate c pairs) = map fst pairs.
Proof.
  revert c. induction pairs as [|[s f] pairs IH]; intros c; cbn; [reflexivity|].
  now rewrite IH.
Qed.

Lemma sum_counts_nonneg (pairs : list (Z * Z)) :
  (forall k v, In (k, v) pairs -> 0 <= v) -> 0 <= sum_counts pairs.
Proof.
  unfold sum_counts. induction pairs as [|[k v] pairs IH]; intros H; cbn; [lia|].
  assert (0 <= v) by (eapply H; left; eauto).
  enough (0 <= fold_right (fun p acc => snd p + acc) 0 pairs) by lia.
  apply IH. intros; eapply H; right; eauto.
Qed.

Lemma cumulate_table (pairs : list (Z * Z)) :
  forall c, 0 <= c -> c + sum_counts pairs < 2 ^ 64 ->
  (forall k v, In (k, v) pairs -> 1 <= v) ->
  table_from c (cumulate c pairs) (c + sum_counts pairs).
Proof.
  unfold sum_counts.
  induction pairs as [|[s f] pairs IH]; intros c Hc Hb Hpos; cbn in *; [lia|].
  assert (Hf : 1 <= f) by (eapply Hpos; left; eauto).
  assert (Hr : 0 <= fold_right (fun p acc => snd p + acc) 0 pairs).
  { apply (sum_counts_nonneg pairs). intros k v Hk. enough (1 <= v) by lia.
    eapply Hpos; right; eauto. }
  unfold entry_start, entry_count; cbn. repeat split; [lia|].
  unfold u64_of. rewrite Z.mod_small by lia.
  replace (c + (f + fold_right (fun p acc => snd p + acc) 0 pairs))
    with (c + f + fold_right (fun p acc => snd p + acc) 0 pairs) by lia.
  apply IH; [lia|lia|]. intros; eapply Hpos; right; eauto.
Qed.

Definition fst_leb (x y : Z * Z) : bool := fst x <=? fst y.

Lemma fst_leb_total (x y : Z * Z) : fst_leb x y = false -> fst_leb y x = true.
Proof. unfold fst_leb. intros H. apply Z.leb_gt in H. apply Z.leb_le. lia. Qed.

Lemma sorted_nodup_strict (l : list (Z * Z)) :
  Sorted (fun a b => fst_leb a b = true) l -> NoDup (map fst l) ->
  StronglySorted (fun a b => fst a < fst b) l.
Proof.
  intros Hs Hnd. apply Sorted_StronglySorted.
  - intros x y z; lia.
  - induction Hs as [|x l Hs IH Hhd]; constructor.
    + apply IH. now inversion Hnd.
    + inversion Hhd as [|y l' Hxy]; subst; constructor.
      unfold fst_leb in Hxy. apply Z.leb_le in Hxy.
      inversion Hnd as [|? ? Hx]; subst. cbn in Hx.
      assert (fst x <> fst y) by (intros He; apply Hx; left; auto). lia.
Qed.

(** The sorted pairs of [analyze_symbolic_frequencies]. *)
Definition analysis_pairs (h : HashIter) (syms : list Z) : list (Z * Z) :=
  sort_stable fst_leb (iter_symbols h (count_symbols syms [])).

Lemma analyze_unfold (h : HashIter) (syms : list Z) :
  analyze_symbolic_frequencies h syms
  = {| frequency_entries := cumulate 0 (analysis_pairs h syms);
       total_frequency_mass := u64_of (sum_counts (analysis_pairs h syms)) |}.
Proof. reflexivity. Qed.

Lemma analysis_pairs_spec (h : HashIter) (syms : list Z) :
  hash_iter_ok h -> Z.of_nat (length syms) < 2 ^ 64 ->
  let pairs := analysis_pairs h syms in
  NoDup (map fst pairs)
  /\ StronglySorted (fun a b => fst a < fst b) pairs
  /\ (forall k v, In (k, v) pairs -> In k syms /\ v = occurrences k syms)
  /\ (forall k, In k syms -> In k (map fst pairs))
  /\ sum_counts pairs = Z.of_nat (length syms).
Proof.
  intros [_ Hh] Hlen pairs.
  destruct (count_symbols_spec syms [] (NoDup_nil _)) as (H1 & H2 & H3 & H4 & H5).
  - intros k v [].
  - intros k. cbn. pose proof (occurrences_le_length k syms). lia.
  - assert (Hp : Permutation pairs (count_symbols syms [])).
    { unfold pairs, analysis_pairs. eapply perm_trans; [apply sort_stable_perm|apply Hh]. }
    assert (Hnd : NoDup (map fst pairs)).
    { eapply Permutation_NoDup; [|exact H1]. symmetry. now apply Permutation_map. }
    refine (conj Hnd (conj _ (conj _ (conj _ _)))).
    + apply sorted_nodup_strict; [|exact Hnd].
      apply sort_stable_sorted. exact fst_leb_total.
    + intros k v Hin. apply (Permutation_in _ Hp) in Hin as Hin'.
      assert (Hk : In k syms).
      { assert (Hk : In k (map fst (count_symbols syms []))) by (now apply (in_map fst) in Hin').
        apply H4 in Hk. destruct Hk as [[]|Hk]; exact Hk. }
      split; [exact Hk|].
      rewrite <- (lookupZ_In _ H1 _ _ Hin'), H3. reflexivity.
    + intros k Hk.
      apply (Permutation_in (l := map fst (count_symbols syms [])));
        [symmetry; now apply Permutation_map|].
      apply H4. now right.
    + rewrite (sum_counts_perm _ _ Hp), H5. reflexivity.
Qed.

(* ------------------------------------------------------------------ *)
(** ** [simple_api]: artifact serialisation ([compress_data]) and parsing
    ([decompress_data]) *)

(** [v.to_le_bytes()] for an [8 * n]-bit integer. *)
Fixpoint le_bytes (n : nat) (v : Z) : list Byte.byte :=
  match n with
  | O => []
  | S n' => byte_of v :: le_bytes n' (Z.shiftr v 8)
  end.

(** [from_le_bytes]. *)
Fixpoint le_value (bs : list Byte.byte) : Z :=
  match bs with
  | [] => 0
  | b :: bs' => byte_val b + 256 * le_value bs'
  end.

Definition serialize_word (w : list Byte.byte) : list Byte.byte :=
  le_bytes 4 (u32_of (Z.of_nat (length w))) ++ w.

Definition serialize_entry (e : Z * Z * Z) : list Byte.byte :=
  le_bytes 4 (entry_symbol e) ++ le_bytes 8 (entry_count e) ++ le_bytes 8 (entry_start e).

(** The buffer built by [compress_data] from the artifact. *)
Definition serialize_artifact (a : CompressionArtifact) : list Byte.byte :=
  le_bytes 4 (u32_of (Z.of_nat (length (mystical_word_grimoire a))))
  ++ flat_map serialize_word (mystical_word_grimoire a)
  ++ le_bytes 4 (u32_of (Z.of_nat (length (mystical_frequency_codex a))))
  ++ flat_map serialize_entry (mystical_frequency_codex a)
  ++ le_bytes 8 (total_frequency_essence a)
  ++ le_bytes 4 (u32_of (Z.of_nat (length (compressed_bit_stream a))))
  ++ compressed_bit_stream a.

Definition compress_data (h : HashIter) (original : list Byte.byte)
  : option (list Byte.byte) :=
  match weave_compression_spell h original with
  | Some a => Some (serialize_artifact a)
  | None => None
  end.

(** [compressed[cursor..cursor + n]]; [None] is the out-of-bounds panic. *)
Definition read_slice (buf : list Byte.byte) (cursor n : nat)
  : option (list Byte.byte * nat) :=
  if (cursor + n <=? length buf)%nat
  then Some (firstn n (skipn cursor buf), (cursor + n)%nat)
  else None.

(** The closures [read_u32] and [read_u64]. *)
Definition read_le (n : nat) (buf : list Byte.byte) (cursor : nat) : option (Z * nat) :=
  match read_slice buf cursor n with
  | Some (bs, c) => Some (le_value bs, c)
  | None => None
  end.

Fixpoint read_words (n : nat) (buf : list Byte.byte) (cursor : nat)
  : option (list (list Byte.byte) * nat) :=
  match n with
  | O => Some ([], cursor)
  | S n' =>
      match read_le 4 buf cursor with
      | None => None
      | Some (word_len, c1) =>
          match read_slice buf c1 (Z.to_nat word_len) with
          | None => None
          | Some (word_bytes, c2) =>
              match read_words n' buf c2 with
              | None => None
              | Some (ws, c3) => Some (from_utf8_lossy word_bytes :: ws, c3)
              end
          end
      end
  end.

Fixpoint read_entries (n : nat) (buf : list Byte.byte) (cursor : nat)
  : option (list (Z * Z * Z) * nat) :=
  match n with
  | O => Some ([], cursor)
  | S n' =>
      match read_le 4 buf cursor with
      | None => None
      | Some (symbol, c1) =>
          match read_le 8 buf c1 with
          | None => None
          | Some (freq, c2) =>
              match read_le 8 buf c2 with
              | None => None
              | Some (start, c3) =>
                  match read_entries n' buf c3 with
                  | None => None
                  | Some (es, c4) => Some ((symbol, freq, start) :: es, c4)
                  end
              end
          end
      end
  end.

(** The parsing part of [decompress_data]. *)
Definition deserialize_artifact (buf : list Byte.byte) : option CompressionArtifact :=
  match read_le 4 buf 0 with
  | None => None
  | Some (word_count, c0) =>
      match read_words (Z.to_nat word_count) buf c0 with
      | None => None
      | Some (ws, c1) =>
          match read_le 4 buf c1 with
          | None => None
          | Some (freq_count, c2) =>
              match read_entries (Z.to_nat freq_count) buf c2 with
              | None => None
              | Some (es, c3) =>
                  match read_le 8 buf c3 with
                  | None => None
                  | Some (total, c4) =>
                      match read_le 4 buf c4 with
                      | None => None
                      | Some (clen, c5) =>
                          match read_slice buf c5 (Z.to_nat clen) with
                          | None => None
                          | Some (data, _) =>
                              Some {| mystical_frequency_codex := es;
                                      total_frequency_essence := total;
                                      compressed_bit_stream := data;
                                      mystical_word_grimoire := ws |}
                          end
                      end
                  end
              end
          end
      end
  end.

Definition decompress_data (compressed : list Byte.byte) : option (list Byte.byte) :=
  match deserialize_artifact compressed with
  | Some a => unweave_compression_spell a
  | None => None
  end.

(* ------------------------------------------------------------------ *)
(** ** Determinism of the frequency table *)

Lemma insertion_order_ok : hash_iter_ok insertion_order.
Proof. split; intros m; apply Permutation_refl. Qed.

Lemma reversed_order_ok : hash_iter_ok reversed_order.
Proof. split; intros m; cbn; symmetry; apply Permutation_rev. Qed.

Lemma count_symbols_nodup (syms : list Z) :
  forall m, NoDup (map fst m) -> NoDup (map fst (count_symbols syms m)).
Proof.
  induction syms as [|s syms IH]; intros m Hm; cbn; [exact Hm|].
  apply IH. now apply entry_increment_nodup.
Qed.

Lemma strongly_sorted_perm_unique (l1 l2 : list (Z * Z)) :
  StronglySorted (fun a b => fst a < fst b) l1 ->
  StronglySorted (fun a b => fst a < fst b) l2 ->
  Permutation l1 l2 -> l1 = l2.
Proof.
  revert l2. induction l1 as [|x l1 IH]; intros l2 H1 H2 Hp.
  - symmetry. now apply Permutation_nil.
  - destruct l2 as [|y l2]; [apply Permutation_sym, Permutation_nil in Hp; discriminate|].
    apply StronglySorted_inv in H1 as [H1 Hx]. apply StronglySorted_inv in H2 as [H2 Hy].
    assert (Hdec : {x = y} + {x <> y}) by (decide equality; apply Z.eq_dec).
    destruct Hdec as [->|Hne].
    + f_equal. apply IH; auto. eapply Permutation_cons_inv; eauto.
    + exfalso.
      assert (Hy1 : In y l1).
      { assert (In y (x :: l1)) by (eapply Permutation_in; [symmetry; exact Hp|left; auto]).
        destruct H; [congruence|auto]. }
      assert (Hx2 : In x l2).
      { assert (In x (y :: l2)) by (eapply Permutation_in; [exact Hp|left; auto]).
        destruct H; [congruence|auto]. }
      pose proof (proj1 (Forall_forall _ _) Hx y Hy1).
      pose proof (proj1 (Forall_forall _ _) Hy x Hx2). cbv beta in *. lia.
Qed.

Lemma analysis_pairs_sorted_perm (h : HashIter) (syms : list Z) :
  hash_iter_ok h ->
  StronglySorted (fun a b => fst a < fst b) (analysis_pairs h syms)
  /\ Permutation (analysis_pairs h syms) (count_symbols syms []).
Proof.
  intros [_ Hh].
  assert (Hp : Permutation (analysis_pairs h syms) (count_symbols syms [])).
  { unfold analysis_pairs. eapply perm_trans; [apply sort_stable_perm|apply Hh]. }
  split; [|exact Hp].
  apply sorted_nodup_strict.
  - apply sort_stable_sorted. exact fst_leb_total.
  - eapply Permutation_NoDup; [symmetry; apply Permutation_map; exact Hp|].
    apply count_symbols_nodup. constructor.
Qed.

(** The frequency table does not depend on the iteration order of the
    [HashMap]. *)
Lemma analyze_deterministic (h1 h2 : HashIter) (syms : list Z) :
  hash_iter_ok h1 -> hash_iter_ok h2 ->
  analyze_symbolic_frequencies h1 syms = analyze_symbolic_frequencies h2 syms.
Proof.
  intros H1 H2. rewrite !analyze_unfold.
  destruct (analysis_pairs_sorted_perm h1 syms H1) as [S1 P1].
  destruct (analysis_pairs_sorted_perm h2 syms H2) as [S2 P2].
  rewrite (strongly_sorted_perm_unique _ _ S1 S2 (perm_trans P1 (Permutation_sym P2))).
  reflexivity.
Qed.

(** The pairs are determined by any sorted permutation of the counts. *)
Lemma analysis_pairs_eq (h : HashIter) (syms : list Z) (pairs : list (Z * Z)) :
  hash_iter_ok h ->
  StronglySorted (fun a b => fst a < fst b) pairs ->
  Permutation pairs (count_symbols syms []) ->
  analysis_pairs h syms = pairs.
Proof.
  intros Hh Hs Hp. destruct (analysis_pairs_sorted_perm h syms Hh) as [S1 P1].
  apply strongly_sorted_perm_unique; auto. eapply perm_trans; [exact P1|].
  now symmetry.
Qed.

(* ------------------------------------------------------------------ *)
(** ** Substitution: the justification of each emitted symbol *)

(** Each symbol of the output stands either for the byte at the current
    position, or for dictionary word [k] found at that position and
    bounded by non-letters (or the text's edges) on both sides. *)
Inductive substitution_justified (bs : list Byte.byte) (ws : list (list Byte.byte))
  : nat -> list Z -> Prop :=
| sj_stop pos : substitution_justified bs ws pos []
| sj_raw pos rest :
    (pos < length bs)%nat ->
    substitution_justified bs ws (S pos) rest ->
    substitution_justified bs ws pos (byte_val (byte_at bs pos) :: rest)
| sj_word pos k w rest :
    nth_error ws k = Some w ->
    (pos + length w <= length bs)%nat ->
    firstn (length w) (skipn pos bs) = w ->
    (pos = 0%nat \/ is_ascii_alphabetic (byte_at bs (pred pos)) = false) ->
    (pos + length w = length bs \/ is_ascii_alphabetic (byte_at bs (pos + length w)) = false)%nat ->
    substitution_justified bs ws (pos + length w) rest ->
    substitution_justified bs ws pos (reference_symbol k :: rest).

Lemma transform_loop_justified (bs : list Byte.byte) (ws : list (list Byte.byte)) :
  forall fuel pos, substitution_justified bs ws pos (transform_loop bs ws fuel pos).
Proof.
  induction fuel as [|fuel IH]; intros pos; cbn [transform_loop]; [constructor|].
  destruct (Nat.ltb_spec pos (length bs)) as [Hlt|_]; [|constructor].
  pose proof (transform_step_spec bs ws pos) as Hs.
  destruct (transform_step bs ws pos) as [sym pos'].
  destruct Hs as [[-> ->] | (k & w & Hk & -> & -> & Hl & Hm & Hb)].
  - constructor; auto.
  - apply sj_word with (w := w); auto.
    + rewrite (word_bytes_match_skipn bs w pos Hl Hm).
      rewrite firstn_app, firstn_all, Nat.sub_diag. cbn. apply app_nil_r.
    + unfold word_bounded in Hb. apply andb_prop in Hb as [Hb _].
      apply orb_prop in Hb as [Hb|Hb]; [left; now apply Nat.eqb_eq|].
      right. now apply negb_true_iff.
    + unfold word_bounded in Hb. apply andb_prop in Hb as [_ Hb].
      apply orb_prop in Hb as [Hb|Hb]; [left; apply Nat.leb_le in Hb; lia|].
      right. now apply negb_true_iff.
Qed.

(* ------------------------------------------------------------------ *)
(** ** Texts without letters *)

(** A byte at which the substitution loop never looks up the dictionary. *)
Definition plain_byte (b : Byte.byte) : bool :=
  negb (is_ascii_alphabetic b || byte_eqb b APOSTROPHE).

Lemma transform_loop_plain (bs : list Byte.byte) (ws : list (list Byte.byte)) :
  forallb plain_byte bs = true ->
  forall fuel pos, (length bs - pos <= fuel)%nat ->
  transform_loop bs ws fuel pos = map byte_val (skipn pos bs).
Proof.
  intros Hp. induction fuel as [|fuel IH]; intros pos Hf; cbn [transform_loop].
  - rewrite skipn_all2 by lia. reflexivity.
  - destruct (Nat.ltb_spec pos (length bs)) as [Hlt|Hge].
    + unfold transform_step.
      assert (Hb : plain_byte (byte_at bs pos) = true).
      { rewrite forallb_forall in Hp. apply Hp. apply nth_In. exact Hlt. }
      unfold plain_byte in Hb. apply negb_true_iff in Hb. rewrite Hb.
      rewrite IH by lia. rewrite (skipn_byte_at _ _ Hlt). reflexivity.
    + rewrite skipn_all2 by lia. reflexivity.
Qed.

Lemma transform_plain (bs : list Byte.byte) (ws : list (list Byte.byte)) :
  forallb plain_byte bs = true ->
  transform_manuscript_to_symbols bs ws = map byte_val bs.
Proof.
  intros Hp. unfold transform_manuscript_to_symbols.
  rewrite transform_loop_plain by (auto; lia). reflexivity.
Qed.

Lemma forallb_repeat {A : Type} (f : A -> bool) (x : A) (n : nat) :
  f x = true -> forallb f (repeat x n) = true.
Proof. intros H. induction n; cbn; rewrite ?H, ?IHn; reflexivity. Qed.

Lemma entry_increment_last (k v : Z) (m : list (Z * Z)) :
  ~ In k (map fst m) ->
  entry_increment Z.eqb k (m ++ [(k, v)]) = m ++ [(k, u64_of (v + 1))].
Proof.
  induction m as [|[k' v'] m IH]; intros Hn; cbn.
  - now rewrite Z.eqb_refl.
  - cbn in Hn. replace (k =? k') with false by (symmetry; apply Z.eqb_neq; intuition).
    rewrite IH by intuition. reflexivity.
Qed.

Lemma count_symbols_repeat (k : Z) (m : list (Z * Z)) :
  ~ In k (map fst m) ->
  forall n v, 0 <= v -> v + Z.of_nat n < 2 ^ 64 ->
  count_symbols (repeat k n) (m ++ [(k, v)]) = m ++ [(k, v + Z.of_nat n)].
Proof.
  intros Hn. induction n as [|n IH]; intros v Hv Hb; cbn [repeat count_symbols].
  - now rewrite Z.add_0_r.
  - rewrite entry_increment_last by exact Hn.
    unfold u64_of. rewrite Z.mod_small by lia. rewrite IH by lia. do 3 f_equal. lia.
Qed.

Lemma loop_pow_finished_now {S : Type} (body : S -> LoopResult S) (s s' : S) :
  body s = Finished s' -> forall k, loop_pow body k s = Finished s'.
Proof.
  intros H. induction k as [|k IH]; cbn; [exact H|]. now rewrite IH.
Qed.

(** The frequency table of [n] zero symbols. *)
Definition zeros_table (n : Z) : FrequencyAnalysisWisdom :=
  {| frequency_entries := [(0, n, 0)]; total_frequency_mass := n |}.

Lemma analyze_zeros (h : HashIter) (n : nat) :
  hash_iter_ok h -> (0 < n)%nat -> Z.of_nat n < 2 ^ 64 ->
  analyze_symbolic_frequencies h (repeat 0 n) = zeros_table (Z.of_nat n).
Proof.
  intros Hh Hn Hb. rewrite analyze_unfold.
  destruct n as [|n]; [lia|].
  assert (Hc : count_symbols (repeat 0 (S n)) [] = [(0, Z.of_nat (S n))]).
  { cbn [repeat count_symbols entry_increment].
    pose proof (count_symbols_repeat 0 [] (fun H => H) n 1) as Hr.
    cbn [app] in Hr. rewrite Hr by lia. f_equal. f_equal. lia. }
  rewrite (analysis_pairs_eq h _ [(0, Z.of_nat (S n))] Hh).
  - unfold zeros_table, sum_counts. cbn [cumulate fold_right snd].
    unfold u64_of. rewrite Z.add_0_r, Z.mod_small by lia. reflexivity.
  - repeat constructor.
  - rewrite Hc. apply Permutation_refl.
Qed.

Lemma enc_normalize_init : enc_normalize enc_init = Some enc_init.
Proof.
  unfold enc_normalize, run_loop. rewrite (loop_pow_finished_now _ enc_init enc_init).
  - reflexivity.
  - reflexivity.
Qed.

Lemma narrow_full (n : Z) :
  0 < n < 2 ^ 32 ->
  narrow_interval 0 ARITHMETIC_PRECISION_LIMIT 0 n n = (0, ARITHMETIC_PRECISION_LIMIT).
Proof.
  intros Hn. unfold narrow_interval.
  change (u64_of (u64_of (ARITHMETIC_PRECISION_LIMIT - 0) + 1)) with (2 ^ 24).
  rewrite Z.mul_0_r. change (u64_of 0) with 0. rewrite Z.div_0_l by lia.
  replace (u64_of (2 ^ 24 * n)) with (2 ^ 24 * n)
    by (unfold u64_of; rewrite Z.mod_small; lia).
  rewrite Z.div_mul by lia. reflexivity.
Qed.

Lemma encode_one_zero (n : nat) :
  (0 < n)%nat -> Z.of_nat n < 2 ^ 32 ->
  encode_one (zeros_table (Z.of_nat n)) enc_init 0 = Some enc_init.
Proof.
  intros Hn Hb. unfold encode_one, find_by_symbol, find_entry. cbn.
  unfold encode_mystical_symbol.
  assert (Hu : u32_of (Z.of_nat n) = Z.of_nat n) by (unfold u32_of; apply Z.mod_small; lia).
  replace (u32_of (u64_of (Z.of_nat n))) with (Z.of_nat n)
    by (unfold u64_of; rewrite (Z.mod_small (Z.of_nat n)) by lia; now rewrite Hu).
  rewrite Hu. replace (Z.of_nat n =? 0) with false by (symmetry; apply Z.eqb_neq; lia).
  change (enc_low enc_init) with 0. change (enc_high enc_init) with ARITHMETIC_PRECISION_LIMIT.
  rewrite narrow_full by lia. exact enc_normalize_init.
Qed.

Lemma encode_zeros (n : nat) :
  (0 < n)%nat -> Z.of_nat n < 2 ^ 32 ->
  forall k, encode_symbols (zeros_table (Z.of_nat n)) enc_init (repeat 0 k) = Some enc_init.
Proof.
  intros Hn Hb. induction k as [|k IH]; [reflexivity|].
  cbn [repeat encode_symbols]. rewrite encode_one_zero by auto. exact IH.
Qed.

Lemma weave_zeros (h : HashIter) (n : nat) :
  hash_iter_ok h -> (0 < n)%nat -> Z.of_nat n < 2 ^ 32 ->
  weave_compression_spell h (repeat Byte.x00 n)
  = Some {| mystical_frequency_codex := [(0, Z.of_nat n, 0)];
            total_frequency_essence := Z.of_nat n;
            compressed_bit_stream := complete_compression_ritual conjure_new;
            mystical_word_grimoire := discover_profitable_word_enchantments h (repeat Byte.x00 n) |}.
Proof.
  intros Hh Hn Hb. unfold weave_compression_spell.
  rewrite transform_plain by (apply forallb_repeat; reflexivity).
  rewrite map_repeat. change (byte_val Byte.x00) with 0.
  rewrite analyze_zeros by (auto; lia). rewrite encode_zeros by auto.
  reflexivity.
Qed.

Lemma weave_empty (h : HashIter) :
  hash_iter_ok h ->
  weave_compression_spell h []
  = Some {| mystical_frequency_codex := [];
            total_frequency_essence := 0;
            compressed_bit_stream := complete_compression_ritual conjure_new;
            mystical_word_grimoire := discover_profitable_word_enchantments h [] |}.
Proof.
  intros [_ Hh]. unfold weave_compression_spell, analyze_symbolic_frequencies.
  cbn [transform_manuscript_to_symbols transform_loop length count_symbols].
  rewrite (Permutation_nil (Permutation_sym (Hh []))). reflexivity.
Qed.

(* ------------------------------------------------------------------ *)
(** ** Shape of cumulative tables *)

Definition sum_entry_counts (es : list (Z * Z * Z)) : Z :=
  fold_right (fun e acc => entry_count e + acc) 0 es.

Lemma table_from_consecutive (es : list (Z * Z * Z)) :
  forall c t, table_from c es t ->
  forall i e1 e2, nth_error es i = Some e1 -> nth_error es (S i) = Some e2 ->
  entry_start e1 + entry_count e1 = entry_start e2.
Proof.
  induction es as [|e es IH]; intros c t Ht i e1 e2 H1 H2; [destruct i; discriminate|].
  destruct Ht as (Hs & _ & Ht). destruct i as [|i].
  - cbn in H1, H2. injection H1 as <-. destruct es as [|e' es]; [discriminate|].
    injection H2 as <-. destruct Ht as (Hs' & _). lia.
  - exact (IH _ _ Ht i e1 e2 H1 H2).
Qed.

Lemma table_from_sum (es : list (Z * Z * Z)) :
  forall c t, table_from c es t -> c + sum_entry_counts es = t.
Proof.
  unfold sum_entry_counts.
  induction es as [|e es IH]; intros c t Ht; cbn in *; [lia|].
  destruct Ht as (_ & _ & Ht). apply IH in Ht. lia.
Qed.

Lemma table_from_last (pre : list (Z * Z * Z)) :
  forall c e t, table_from c (pre ++ [e]) t -> entry_start e + entry_count e = t.
Proof.
  induction pre as [|e' pre IH]; intros c e t Ht; cbn in Ht.
  - destruct Ht as (Hs & _ & Ht). lia.
  - destruct Ht as (_ & _ & Ht). eapply IH; eauto.
Qed.

Lemma sorted_consecutive {A : Type} (R : A -> A -> Prop) (l : list A) :
  StronglySorted R l ->
  forall i a b, nth_error l i = Some a -> nth_error l (S i) = Some b -> R a b.
Proof.
  induction 1 as [|x l Hs IH Hx]; intros i a b Ha Hb; [destruct i; discriminate|].
  destruct i as [|i].
  - cbn in Ha, Hb. injection Ha as <-.
    destruct l as [|y l']; [discriminate|]. injection Hb as <-. now inversion Hx.
  - exact (IH i a b Ha Hb).
Qed.

Lemma cumulate_nth_symbol (pairs : list (Z * Z)) (c : Z) (i : nat) (e : Z * Z * Z) :
  nth_error (cumulate c pairs) i = Some e ->
  exists p, nth_error pairs i = Some p /\ fst p = entry_symbol e.
Proof.
  intros H. assert (Hm := f_equal (fun l => nth_error l i) (cumulate_symbols c pairs)).
  cbn beta in Hm. rewrite !nth_error_map, H in Hm. cbn in Hm.
  destruct (nth_error pairs i) as [p|]; [|discriminate].
  exists p. injection Hm as ->. auto.
Qed.

(** The table produced by [analyze_symbolic_frequencies]: strictly sorted
    symbols, a cumulative table from [0] to the total, which is the number
    of symbols. *)
Lemma analyze_table (h : HashIter) (syms : list Z) :
  hash_iter_ok h -> Z.of_nat (length syms) < 2 ^ 64 ->
  let fa := analyze_symbolic_frequencies h syms in
  table_from 0 (frequency_entries fa) (total_frequency_mass fa)
  /\ total_frequency_mass fa = Z.of_nat (length syms)
  /\ (forall i e1 e2, nth_error (frequency_entries fa) i = Some e1 ->
        nth_error (frequency_entries fa) (S i) = Some e2 ->
        entry_symbol e1 < entry_symbol e2).
Proof.
  intros Hh Hlen fa.
  destruct (analysis_pairs_spec h syms Hh Hlen) as (Hnd & Hsort & Hkv & Hin & Hsum).
  assert (Htot : total_frequency_mass fa = Z.of_nat (length syms)).
  { unfold fa. rewrite analyze_unfold. cbn. rewrite Hsum.
    unfold u64_of. apply Z.mod_small. lia. }
  refine (conj _ (conj Htot _)).
  - rewrite Htot. unfold fa. rewrite analyze_unfold. cbn [frequency_entries].
    rewrite <- Hsum. change (sum_counts (analysis_pairs h syms))
      with (0 + sum_counts (analysis_pairs h syms)).
    apply cumulate_table; [lia|lia|].
    intros k v Hkv'. apply Hkv in Hkv' as [Hk ->]. now apply occurrences_pos.
  - intros i e1 e2 H1 H2. unfold fa in H1, H2. rewrite analyze_unfold in H1, H2.
    cbn [frequency_entries] in H1, H2.
    destruct (cumulate_nth_symbol _ _ _ _ H1) as (p1 & Hp1 & <-).
    destruct (cumulate_nth_symbol _ _ _ _ H2) as (p2 & Hp2 & <-).
    exact (sorted_consecutive _ _ Hsort i p1 p2 Hp1 Hp2).
Qed.

(* ------------------------------------------------------------------ *)
(** ** The linear symbol lookup *)

Lemma find_with_probes_first {A : Type} (p : A -> bool) (l1 : list A) (x : A) (l2 : list A) :
  forallb (fun y => negb (p y)) l1 = true -> p x = true ->
  find_with_probes p (l1 ++ x :: l2) = (Some x, S (length l1)).
Proof.
  intros H1 Hx. induction l1 as [|y l1 IH]; cbn in *; [now rewrite Hx|].
  apply andb_prop in H1 as [Hy H1]. apply negb_true_iff in Hy. rewrite Hy, IH by exact H1.
  reflexivity.
Qed.

Lemma find_with_probes_none {A : Type} (p : A -> bool) (l : list A) :
  forallb (fun y => negb (p y)) l = true -> find_with_probes p l = (None, length l).
Proof.
  induction l as [|y l IH]; intros H; cbn in *; [reflexivity|].
  apply andb_prop in H as [Hy H]. apply negb_true_iff in Hy. rewrite Hy, IH by exact H.
  reflexivity.
Qed.

(** The 256 byte values in increasing order. *)
Definition all_bytes : list Byte.byte := map (fun i => byte_of (Z.of_nat i)) (seq 0 256).

(** Inputs below the discovery threshold are encoded independently of the
    hash order. *)
Lemma weave_short_deterministic (h1 h2 : HashIter) (x : list Byte.byte) :
  hash_iter_ok h1 -> hash_iter_ok h2 -> (length x < MIN_DISCOVERY_LEN)%nat ->
  weave_compression_spell h1 x = weave_compression_spell h2 x.
Proof.
  intros H1 H2 Hl. unfold weave_compression_spell, discover_profitable_word_enchantments.
  replace ((length x <? MIN_DISCOVERY_LEN)%nat) with true by (symmetry; now apply Nat.ltb_lt).
  now rewrite (analyze_deterministic h1 h2 _ H1 H2).
Qed.

(* ------------------------------------------------------------------ *)
(** ** Wrap-around of dictionary symbols *)

Lemma to_nat_two_pow_32 : Z.to_nat (2 ^ 32) = S (Z.to_nat (2 ^ 32 - 1)).
Proof.
  rewrite <- Z2Nat.inj_succ by lia. f_equal.
Qed.

Lemma reference_symbol_wrap : reference_symbol (Z.to_nat (2 ^ 32)) = 256.
Proof.
  unfold reference_symbol. rewrite Z2Nat.id by lia. reflexivity.
Qed.

Lemma wrap_grimoire_nonempty : forall w, In w wrap_grimoire -> w <> [].
Proof.
  unfold wrap_grimoire. intros w Hw. apply in_app_or in Hw as [Hw|[<-|[]]].
  - apply repeat_spec in Hw as ->. discriminate.
  - discriminate.
Qed.

Lemma wrap_grimoire_first : nth_error wrap_grimoire 0 = Some [Byte.x62].
Proof.
  unfold wrap_grimoire. rewrite to_nat_two_pow_32.
  generalize (Z.to_nat (2 ^ 32 - 1)). intros N. reflexivity.
Qed.

(* ------------------------------------------------------------------ *)
(** ** Out-of-range dictionary references *)

Lemma reconstruct_symbol_out_of_range (ws : list (list Byte.byte)) (r : Z) :
  256 <= r < 2 ^ 32 -> Z.of_nat (length ws) <= r - 256 ->
  reconstruct_symbol ws r = [].
Proof.
  intros Hr Hl. unfold reconstruct_symbol.
  replace ((0 <=? r) && (r <=? 255)) with false
    by (symmetry; apply andb_false_intro2; apply Z.leb_gt; lia).
  replace (u32_of (r - 256)) with (r - 256) by (unfold u32_of; rewrite Z.mod_small; lia).
  replace (nth_error ws (Z.to_nat (r - 256))) with (@None (list Byte.byte)).
  - reflexivity.
  - symmetry. apply nth_error_None. lia.
Qed.

(** An artifact whose table holds the reference [256] and whose dictionary
    is empty. *)
Definition dangling_reference_artifact : CompressionArtifact :=
  {| mystical_frequency_codex := [(256, 1, 0)];
     total_frequency_essence := 1;
     compressed_bit_stream := [];
     mystical_word_grimoire := [] |}.

Definition dec_init (a : CompressionArtifact) : DecState :=
  {| dec_reader := conjure_from_scroll (compressed_bit_stream a);
     dec_low := 0; dec_high := ARITHMETIC_PRECISION_LIMIT |}.

Definition foo_word : list Byte.byte := list_byte_of_string "foo"%string.
Definition bar_word : list Byte.byte := list_byte_of_string "bar"%string.

(* ------------------------------------------------------------------ *)
(** ** Facts about the serialisation *)

Lemma byte_val_byte_of (z : Z) : byte_val (byte_of z) = u8_of z.
Proof.
  unfold byte_of, byte_val.
  assert (H : 0 <= u8_of z < 256) by (unfold u8_of; apply Z.mod_pos_bound; lia).
  destruct (Byte.of_N (Z.to_N (u8_of z))) as [b|] eqn:E.
  - apply Byte.to_of_N in E. rewrite E. apply Z2N.id. lia.
  - apply Byte.of_N_None_iff in E. lia.
Qed.

Lemma length_le_bytes (n : nat) (v : Z) : length (le_bytes n v) = n.
Proof. revert v; induction n as [|n IH]; intros v; cbn; [reflexivity|]. now rewrite IH. Qed.

Lemma le_value_le_bytes (n : nat) (v : Z) :
  0 <= v < 2 ^ (8 * Z.of_nat n) -> le_value (le_bytes n v) = v.
Proof.
  revert v. induction n as [|n IH]; intros v Hv; cbn [le_bytes le_value].
  - simpl in Hv. lia.
  - rewrite Z.shiftr_div_pow2 by lia. change (2 ^ 8) with 256.
    rewrite byte_val_byte_of, IH.
    + unfold u8_of. change (2 ^ 8) with 256. pose proof (Z.div_mod v 256). lia.
    + split; [apply Z.div_pos; lia|].
      apply Z.div_lt_upper_bound; [lia|].
      replace (8 * Z.of_nat (S n)) with (8 + 8 * Z.of_nat n) in Hv by lia.
      rewrite Z.pow_add_r in Hv by lia. change (2 ^ 8) with 256 in Hv. lia.
Qed.

Lemma read_slice_at (buf pre bs rest : list Byte.byte) (c : nat) :
  buf = pre ++ bs ++ rest -> c = length pre ->
  read_slice buf c (length bs) = Some (bs, (c + length bs)%nat).
Proof.
  intros -> ->. unfold read_slice. rewrite !length_app.
  replace (_ <=? _)%nat with true by (symmetry; apply Nat.leb_le; lia).
  rewrite skipn_app, skipn_all, Nat.sub_diag. cbn [app skipn].
  rewrite firstn_app, firstn_all, Nat.sub_diag. cbn. now rewrite app_nil_r.
Qed.

Lemma read_le_at (n : nat) (buf pre rest : list Byte.byte) (c : nat) (v : Z) :
  buf = pre ++ le_bytes n v ++ rest -> c = length pre ->
  0 <= v < 2 ^ (8 * Z.of_nat n) ->
  read_le n buf c = Some (v, (c + n)%nat).
Proof.
  intros Hb Hc Hv. unfold read_le.
  pose proof (read_slice_at buf pre (le_bytes n v) rest c Hb Hc) as H.
  rewrite length_le_bytes in H. rewrite H, le_value_le_bytes by exact Hv. reflexivity.
Qed.

(** A byte below [0x80]: a one-byte UTF-8 character. *)
Definition ascii_byte (b : Byte.byte) : bool := byte_val b <? 128.

Lemma utf8_unit_ascii (b : Z) (rest : list Z) :
  0 <= b < 128 -> utf8_unit (b :: rest) = (Some b, 1%nat).
Proof.
  intros Hb. unfold utf8_unit. cbv zeta. unfold safe_get. cbn [nth].
  unfold utf8_char_width. replace (b <? 128) with true by (symmetry; apply Z.ltb_lt; lia).
  reflexivity.
Qed.

Lemma lossy_chars_fuel_ascii (w : list Byte.byte) :
  forallb ascii_byte w = true ->
  forall fuel, (length w <= fuel)%nat ->
  lossy_chars_fuel fuel (map byte_val w) = map byte_val w.
Proof.
  induction w as [|b w IH]; intros Ha fuel Hf;
    destruct fuel as [|fuel]; cbn in Hf; try lia; try reflexivity.
  cbn in Ha. apply andb_prop in Ha as [Hb Ha]. unfold ascii_byte in Hb. apply Z.ltb_lt in Hb.
  cbn [map lossy_chars_fuel].
  rewrite utf8_unit_ascii by (pose proof (byte_val_range b); lia).
  cbn [skipn]. rewrite IH by (auto; lia). reflexivity.
Qed.

Lemma lossy_chars_ascii (w : list Byte.byte) :
  forallb ascii_byte w = true -> lossy_chars w = map byte_val w.
Proof. intros Ha. unfold lossy_chars. apply lossy_chars_fuel_ascii; auto. Qed.

Lemma from_utf8_lossy_ascii (w : list Byte.byte) :
  forallb ascii_byte w = true -> from_utf8_lossy w = w.
Proof.
  intros Ha. unfold from_utf8_lossy. rewrite lossy_chars_ascii by exact Ha.
  induction w as [|b w IH]; [reflexivity|].
  cbn in Ha. apply andb_prop in Ha as [Hb Ha]. unfold ascii_byte in Hb. apply Z.ltb_lt in Hb.
  cbn [map flat_map]. rewrite IH by exact Ha. unfold char_utf8_bytes.
  replace (byte_val b <? 128) with true by (symmetry; now apply Z.ltb_lt).
  rewrite byte_of_byte_val. reflexivity.
Qed.

(** A dictionary word that [compress_data] writes faithfully. *)
Definition word_serializable (w : list Byte.byte) : Prop :=
  forallb ascii_byte w = true /\ Z.of_nat (length w) < 2 ^ 32.

(** A table entry whose fields fit their [u32]/[u64] fields. *)
Definition entry_serializable (e : Z * Z * Z) : Prop :=
  0 <= entry_symbol e < 2 ^ 32 /\ 0 <= entry_count e < 2 ^ 64
  /\ 0 <= entry_start e < 2 ^ 64.

Definition artifact_serializable (a : CompressionArtifact) : Prop :=
  Forall word_serializable (mystical_word_grimoire a)
  /\ Z.of_nat (length (mystical_word_grimoire a)) < 2 ^ 32
  /\ Forall entry_serializable (mystical_frequency_codex a)
  /\ Z.of_nat (length (mystical_frequency_codex a)) < 2 ^ 32
  /\ 0 <= total_frequency_essence a < 2 ^ 64
  /\ Z.of_nat (length (compressed_bit_stream a)) < 2 ^ 32.

Lemma u32_of_length {A : Type} (l : list A) :
  Z.of_nat (length l) < 2 ^ 32 -> u32_of (Z.of_nat (length l)) = Z.of_nat (length l).
Proof. intros H. unfold u32_of. apply Z.mod_small. lia. Qed.

Lemma read_words_serialized (ws : list (list Byte.byte)) :
  Forall word_serializable ws ->
  forall buf pre rest, buf = pre ++ flat_map serialize_word ws ++ rest ->
  read_words (length ws) buf (length pre)
  = Some (ws, (length pre + length (flat_map serialize_word ws))%nat).
Proof.
  induction 1 as [|w ws [Ha Hl] Hws IH]; intros buf pre rest Hb.
  - cbn. now rewrite Nat.add_0_r.
  - cbn [length read_words]. cbn [flat_map] in Hb |- *.
    unfold serialize_word at 1 in Hb. unfold serialize_word at 1.
    rewrite u32_of_length in Hb |- * by exact Hl.
    rewrite (read_le_at 4 buf pre (w ++ flat_map serialize_word ws ++ rest) _
               (Z.of_nat (length w)));
      [| rewrite Hb, <- !app_assoc; reflexivity | reflexivity | simpl; lia].
    cbv beta iota. rewrite Nat2Z.id.
    rewrite (read_slice_at buf (pre ++ le_bytes 4 (Z.of_nat (length w))) w
               (flat_map serialize_word ws ++ rest));
      [| rewrite Hb, <- !app_assoc; reflexivity
       | rewrite length_app, length_le_bytes; reflexivity].
    cbv beta iota.
    replace (length pre + 4 + length w)%nat
      with (length ((pre ++ le_bytes 4 (Z.of_nat (length w))) ++ w))
      by (rewrite !length_app, length_le_bytes; lia).
    rewrite (IH buf _ rest) by (rewrite Hb, <- !app_assoc; reflexivity).
    cbv beta iota. rewrite from_utf8_lossy_ascii by exact Ha.
    f_equal. f_equal. rewrite !length_app, length_le_bytes. lia.
Qed.

Lemma read_entries_serialized (es : list (Z * Z * Z)) :
  Forall entry_serializable es ->
  forall buf pre rest, buf = pre ++ flat_map serialize_entry es ++ rest ->
  read_entries (length es) buf (length pre)
  = Some (es, (length pre + length (flat_map serialize_entry es))%nat).
Proof.
  induction 1 as [|[[s f] st] es (Hs & Hf & Hst) Hes IH]; intros buf pre rest Hb.
  - cbn. now rewrite Nat.add_0_r.
  - cbn [length read_entries]. cbn [flat_map] in Hb |- *.
    unfold serialize_entry at 1 in Hb. unfold serialize_entry at 1.
    unfold entry_symbol, entry_count, entry_start in *. cbn [fst snd] in *.
    rewrite (read_le_at 4 buf pre (le_bytes 8 f ++ le_bytes 8 st
               ++ flat_map serialize_entry es ++ rest) _ s);
      [| rewrite Hb, <- !app_assoc; reflexivity | reflexivity | simpl; lia].
    cbv beta iota.
    rewrite (read_le_at 8 buf (pre ++ le_bytes 4 s)
               (le_bytes 8 st ++ flat_map serialize_entry es ++ rest) _ f);
      [| rewrite Hb, <- !app_assoc; reflexivity
       | rewrite length_app, length_le_bytes; reflexivity | simpl; lia].
    cbv beta iota.
    rewrite (read_le_at 8 buf (pre ++ le_bytes 4 s ++ le_bytes 8 f)
               (flat_map serialize_entry es ++ rest) _ st);
      [| rewrite Hb, <- !app_assoc; reflexivity
       | rewrite !length_app, !length_le_bytes; lia | simpl; lia].
    cbv beta iota.
    replace (length pre + 4 + 8 + 8)%nat
      with (length (pre ++ le_bytes 4 s ++ le_bytes 8 f ++ le_bytes 8 st))
      by (rewrite !length_app, !length_le_bytes; lia).
    rewrite (IH buf _ rest) by (rewrite Hb, <- !app_assoc; reflexivity).
    cbv beta iota. f_equal. f_equal. rewrite !length_app, !length_le_bytes. lia.
Qed.

Lemma deserialize_serialize (a : CompressionArtifact) :
  artifact_serializable a -> deserialize_artifact (serialize_artifact a) = Some a.
Proof.
  destruct a as [es total data ws].
  intros (Hws & Hnw & Hes & Hne & Ht & Hnd). cbn [mystical_word_grimoire
    mystical_frequency_codex total_frequency_essence compressed_bit_stream] in *.
  unfold deserialize_artifact, serialize_artifact. cbn [mystical_word_grimoire
    mystical_frequency_codex total_frequency_essence compressed_bit_stream].
  rewrite !u32_of_length by assumption.
  set (buf := le_bytes 4 (Z.of_nat (length ws)) ++ flat_map serialize_word ws
    ++ le_bytes 4 (Z.of_nat (length es)) ++ flat_map serialize_entry es
    ++ le_bytes 8 total ++ le_bytes 4 (Z.of_nat (length data)) ++ data).
  erewrite (read_le_at 4 buf [] _ 0 (Z.of_nat (length ws)));
    [| unfold buf; reflexivity | reflexivity | simpl; lia].
  cbv beta iota. rewrite Nat2Z.id. cbn [Nat.add].
  pose proof (read_words_serialized ws Hws buf (le_bytes 4 (Z.of_nat (length ws)))
             (le_bytes 4 (Z.of_nat (length es)) ++ flat_map serialize_entry es
              ++ le_bytes 8 total ++ le_bytes 4 (Z.of_nat (length data)) ++ data)
             eq_refl) as Hrw.
  rewrite length_le_bytes in Hrw. rewrite Hrw. cbv beta iota.
  set (c1 := (4 + length (flat_map serialize_word ws))%nat).
  erewrite (read_le_at 4 buf (le_bytes 4 (Z.of_nat (length ws)) ++ flat_map serialize_word ws)
             _ c1 (Z.of_nat (length es)));
    [| unfold buf; rewrite <- !app_assoc; reflexivity
     | unfold c1; rewrite length_app, length_le_bytes; reflexivity | simpl; lia].
  cbv beta iota. rewrite Nat2Z.id.
  replace (c1 + 4)%nat with (length (le_bytes 4 (Z.of_nat (length ws))
      ++ flat_map serialize_word ws ++ le_bytes 4 (Z.of_nat (length es))))
    by (unfold c1; rewrite !length_app, !length_le_bytes; lia).
  rewrite (read_entries_serialized es Hes buf _
             (le_bytes 8 total ++ le_bytes 4 (Z.of_nat (length data)) ++ data))
    by (unfold buf; rewrite <- !app_assoc; reflexivity).
  cbv beta iota.
  erewrite (read_le_at 8 buf (le_bytes 4 (Z.of_nat (length ws))
      ++ flat_map serialize_word ws ++ le_bytes 4 (Z.of_nat (length es))
      ++ flat_map serialize_entry es) _ _ total);
    [| unfold buf; rewrite <- !app_assoc; reflexivity
     | rewrite !length_app; lia | simpl; lia].
  cbv beta iota.
  erewrite (read_le_at 4 buf (le_bytes 4 (Z.of_nat (length ws))
      ++ flat_map serialize_word ws ++ le_bytes 4 (Z.of_nat (length es))
      ++ flat_map serialize_entry es ++ le_bytes 8 total) data _ (Z.of_nat (length data)));
    [| unfold buf; rewrite <- !app_assoc; reflexivity
     | rewrite !length_app, !length_le_bytes; lia | simpl; lia].
  cbv beta iota. rewrite Nat2Z.id.
  rewrite (read_slice_at buf (le_bytes 4 (Z.of_nat (length ws))
      ++ flat_map serialize_word ws ++ le_bytes 4 (Z.of_nat (length es))
      ++ flat_map serialize_entry es ++ le_bytes 8 total
      ++ le_bytes 4 (Z.of_nat (length data))) data []);
    [| unfold buf; rewrite <- !app_assoc, app_nil_r; reflexivity
     | rewrite !length_app, !length_le_bytes; lia].
  reflexivity.
Qed.

(* ------------------------------------------------------------------ *)
(** ** Encoder outputs fit the serialised layout *)

Lemma entry_increment_key_cases {K : Type} (eqb : K -> K -> bool) (k : K) (m : list (K * Z)) :
  forall x v, In (x, v) (entry_increment eqb k m) -> x = k \/ exists v', In (x, v') m.
Proof.
  induction m as [|[k' v'] m IH]; intros x v Hin; cbn in Hin.
  - destruct Hin as [[= <- _]|[]]. now left.
  - destruct (eqb k k').
    + destruct Hin as [[= <- _]|Hin]; right; [exists v'; now left|exists v; now right].
    + destruct Hin as [[= <- _]|Hin]; [right; exists v'; now left|].
      destruct (IH _ _ Hin) as [->|[v1 Hv1]]; [now left|right; exists v1; now right].
Qed.

Lemma count_word_keys (buf : list Byte.byte) (alm : list (list Byte.byte * Z))
    (P : list Byte.byte -> Prop) :
  P buf -> (forall w v, In (w, v) alm -> P w) ->
  forall w v, In (w, v) (count_word buf alm) -> P w.
Proof.
  intros Hb Ha w v Hin. unfold count_word in Hin.
  destruct (3 <=? length buf)%nat; [|eauto].
  destruct (entry_increment_key_cases _ _ _ _ _ Hin) as [->|[v' Hv']]; eauto.
Qed.

Lemma ascii_char_bytes (c : Z) :
  char_is_ascii_alphabetic c || (c =? 39) = true ->
  forallb ascii_byte (char_utf8_bytes c) = true.
Proof.
  intros Hc. assert (H : 0 <= c < 128).
  { unfold char_is_ascii_alphabetic in Hc.
    repeat (apply orb_prop in Hc as [Hc|Hc]); try (apply Z.eqb_eq in Hc; lia);
      apply andb_prop in Hc as [H1 H2]; apply Z.leb_le in H1, H2; lia. }
  unfold char_utf8_bytes. replace (c <? 128) with true by (symmetry; now apply Z.ltb_lt).
  cbn [forallb]. unfold ascii_byte. rewrite byte_val_byte_of.
  unfold u8_of. rewrite Z.mod_small by lia.
  replace (c <? 128) with true by (symmetry; now apply Z.ltb_lt). reflexivity.
Qed.

Lemma tokenize_words_ascii (cs : list Z) :
  forall buf alm, forallb ascii_byte buf = true ->
  (forall w v, In (w, v) alm -> forallb ascii_byte w = true) ->
  forall w v, In (w, v) (tokenize_words cs buf alm) -> forallb ascii_byte w = true.
Proof.
  induction cs as [|c cs IH]; intros buf alm Hb Ha; cbn [tokenize_words].
  - now apply count_word_keys.
  - destruct (char_is_ascii_alphabetic c || (c =? 39)) eqn:Hc.
    + apply IH; [|exact Ha]. rewrite forallb_app, Hb. now apply ascii_char_bytes.
    + apply IH; [reflexivity|]. now apply count_word_keys.
Qed.

Lemma in_firstn {A : Type} (n : nat) (l : list A) (x : A) : In x (firstn n l) -> In x l.
Proof. intros H. rewrite <- (firstn_skipn n l). apply in_or_app. now left. Qed.

(** The dictionary holds at most 25 words, all of ASCII bytes. *)
Lemma discover_words_ascii (h : HashIter) (x : list Byte.byte) :
  hash_iter_ok h ->
  Forall (fun w => forallb ascii_byte w = true) (discover_profitable_word_enchantments h x)
  /\ (length (discover_profitable_word_enchantments h x) <= 25)%nat.
Proof.
  intros [Hw _]. unfold discover_profitable_word_enchantments.
  destruct (length x <? MIN_DISCOVERY_LEN)%nat; [split; [constructor|cbn; lia]|].
  split.
  - apply Forall_forall. intros w Hin. apply in_map_iff in Hin as (c & <- & Hc).
    apply in_firstn, (Permutation_in _ (sort_stable_perm _ _)) in Hc.
    apply in_flat_map in Hc as ([w v] & He & Hc).
    unfold profitable_candidate in Hc.
    destruct (_ && _); [|destruct Hc]. destruct Hc as [<-|[]]. cbn [fst].
    apply (Permutation_in _ (Hw _)) in He.
    revert He. apply tokenize_words_ascii; [reflexivity|intros ? ? []].
  - rewrite length_map. apply firstn_le_length.
Qed.

Lemma transform_loop_symbols_range (bs : list Byte.byte) (ws : list (list Byte.byte)) :
  forall fuel pos, Forall (fun s => 0 <= s < 2 ^ 32) (transform_loop bs ws fuel pos)
  /\ (length (transform_loop bs ws fuel pos) <= fuel)%nat.
Proof.
  induction fuel as [|fuel IH]; intros pos; cbn [transform_loop]; [split; [constructor|cbn; lia]|].
  destruct (pos <? length bs)%nat; [|split; [constructor|cbn; lia]].
  pose proof (transform_step_spec bs ws pos) as Hs.
  destruct (transform_step bs ws pos) as [sym pos'].
  destruct (IH pos') as [H1 H2]. split; [|cbn; lia].
  constructor; [|exact H1].
  destruct Hs as [[-> _]|(k & w & _ & -> & _)].
  - pose proof (byte_val_range (byte_at bs pos)). lia.
  - unfold reference_symbol, u32_of. apply Z.mod_pos_bound. lia.
Qed.

Lemma cumulate_starts (pairs : list (Z * Z)) :
  forall c, 0 <= c < 2 ^ 64 -> Forall (fun e => 0 <= entry_start e < 2 ^ 64) (cumulate c pairs).
Proof.
  induction pairs as [|[s f] pairs IH]; intros c Hc; cbn; constructor; [exact Hc|].
  apply IH. unfold u64_of. apply Z.mod_pos_bound. lia.
Qed.

Lemma cumulate_entries (pairs : list (Z * Z)) (c : Z) (e : Z * Z * Z) :
  In e (cumulate c pairs) -> In (entry_symbol e, entry_count e) pairs.
Proof.
  revert c. induction pairs as [|[s f] pairs IH]; intros c Hin; cbn in Hin; [destruct Hin|].
  destruct Hin as [<-|Hin]; [now left|right; eapply IH; eauto].
Qed.

(** Every table entry, and the total, fits its field of the layout. *)
Lemma weave_serializable_parts (h : HashIter) (x : list Byte.byte) (a : CompressionArtifact) :
  hash_iter_ok h -> Z.of_nat (length x) < 2 ^ 64 ->
  weave_compression_spell h x = Some a ->
  Forall (fun w => forallb ascii_byte w = true) (mystical_word_grimoire a)
  /\ Z.of_nat (length (mystical_word_grimoire a)) < 2 ^ 32
  /\ Forall entry_serializable (mystical_frequency_codex a)
  /\ 0 <= total_frequency_essence a < 2 ^ 64.
Proof.
  intros Hh Hx Hw. unfold weave_compression_spell in Hw.
  destruct (encode_symbols _ _ _) as [st|]; [|discriminate]. injection Hw as <-.
  cbn [mystical_word_grimoire mystical_frequency_codex total_frequency_essence].
  destruct (discover_words_ascii h x Hh) as [Ha Hl].
  set (ws := discover_profitable_word_enchantments h x) in *.
  set (syms := transform_manuscript_to_symbols x ws).
  destruct (transform_loop_symbols_range x ws (length x) 0) as [Hr Hn].
  change (transform_loop x ws (length x) 0) with syms in Hr, Hn.
  assert (Hsl : Z.of_nat (length syms) < 2 ^ 64) by lia.
  destruct (analysis_pairs_spec h syms Hh Hsl) as (_ & _ & Hkv & _ & _).
  change (sort_stable (fun x0 y => fst x0 <=? fst y) (iter_symbols h (count_symbols syms [])))
    with (analysis_pairs h syms).
  refine (conj Ha (conj _ (conj _ _))); [lia| |].
  - pose proof (cumulate_starts (analysis_pairs h syms) 0 ltac:(lia)) as Hs.
    rewrite Forall_forall in Hs |- *. intros e He. specialize (Hs e He).
    apply cumulate_entries in He. apply Hkv in He as [Hin Hc].
    rewrite Forall_forall in Hr. specialize (Hr _ Hin).
    pose proof (occurrences_le_length (entry_symbol e) syms).
    pose proof (occurrences_nonneg (entry_symbol e) syms).
    unfold entry_serializable. lia.
  - unfold u64_of. apply Z.mod_pos_bound. lia.
Qed.

(* ------------------------------------------------------------------ *)
(** ** A dictionary word of [2^32] bytes *)

Lemma tokenize_run_a (k : nat) (rest : list Z) :
  forall buf alm,
  tokenize_words (map byte_val (repeat Byte.x61 k) ++ rest) buf alm
  = tokenize_words rest (buf ++ repeat Byte.x61 k) alm.
Proof.
  induction k as [|k IH]; intros buf alm; cbn [repeat map app].
  - now rewrite app_nil_r.
  - cbn [tokenize_words]. change (byte_val Byte.x61) with 97.
    change (char_is_ascii_alphabetic 97 || (97 =? 39)) with true. cbv iota.
    change (char_utf8_bytes 97) with [Byte.x61].
    rewrite IH, <- app_assoc. reflexivity.
Qed.

Lemma word_bytes_match_prefix (bs w r : list Byte.byte) :
  forall pos, skipn pos bs = w ++ r -> word_bytes_match bs pos w = true.
Proof.
  induction w as [|e w IH]; intros pos H; [reflexivity|].
  assert (Hlt : (pos < length bs)%nat).
  { assert (Hl := f_equal (@length _) H). rewrite length_skipn in Hl. cbn in Hl. lia. }
  rewrite (skipn_byte_at _ _ Hlt) in H.
  assert (He : byte_at bs pos = e) by (injection H as He _; exact He).
  assert (H2 : skipn (S pos) bs = w ++ r) by (injection H as _ H2; exact H2).
  cbn [word_bytes_match]. rewrite He. unfold byte_eqb. rewrite Byte.byte_dec_lb by reflexivity.
  cbn [andb]. exact (IH _ H2).
Qed.

Lemma byte_at_app (pre l : list Byte.byte) (i : nat) :
  byte_at (pre ++ l) (length pre + i) = byte_at l i.
Proof. unfold byte_at. apply app_nth2_plus. Qed.

Lemma read_slice_zero (buf : list Byte.byte) (c : nat) :
  (c <= length buf)%nat -> read_slice buf c 0 = Some ([], c).
Proof.
  intros H. unfold read_slice. rewrite Nat.add_0_r.
  replace (c <=? length buf)%nat with true by (symmetry; now apply Nat.leb_le). reflexivity.
Qed.

Lemma read_le_some (n : nat) (buf : list Byte.byte) (c c' : nat) (v : Z) :
  read_le n buf c = Some (v, c') -> c' = (c + n)%nat /\ (c + n <= length buf)%nat.
Proof.
  unfold read_le, read_slice. destruct (Nat.leb_spec (c + n) (length buf)); [|discriminate].
  intros [= _ <-]. auto.
Qed.

(** [read_entries] panics when the buffer is too short for the declared
    number of entries (20 bytes each). *)
Lemma read_entries_short (buf : list Byte.byte) :
  forall k c, (0 < k)%nat -> (length buf < c + 20 * k)%nat -> read_entries k buf c = None.
Proof.
  induction k as [|k IH]; intros c Hk Hl; [lia|]. cbn [read_entries].
  destruct (read_le 4 buf c) as [[v1 c1]|] eqn:E1; [|reflexivity].
  destruct (read_le 8 buf c1) as [[v2 c2]|] eqn:E2; [|reflexivity].
  destruct (read_le 8 buf c2) as [[v3 c3]|] eqn:E3; [|reflexivity].
  apply read_le_some in E1, E2, E3.
  destruct k as [|k]; [lia|]. rewrite IH by lia. reflexivity.
Qed.

Lemma i64_small (z : Z) : - 2 ^ 63 <= z < 2 ^ 63 -> i64_of z = z.
Proof. intros H. unfold i64_of. rewrite Z.mod_small; lia. Qed.

Lemma list_byte_eqb_refl (w : list Byte.byte) : list_byte_eqb w w = true.
Proof. unfold list_byte_eqb. destruct (list_eq_dec _ w w); congruence. Qed.

Section GiantWord.
(** A word of [n] letters ['a'], four times in the text, each time
    followed by a space. *)
Variable n : nat.
Hypothesis n_large : (1000 <= n)%nat.
Hypothesis n_fits : Z.of_nat n < 2 ^ 60.

Definition word_a : list Byte.byte := repeat Byte.x61 n.
Definition word_a_segment : list Byte.byte := word_a ++ [Byte.x20].
Definition word_a_text : list Byte.byte := repeat_text 4 word_a_segment.

(** The artifact of [word_a_text]: the table and the bit stream only
    depend on the symbols [[256; 32; 256; 32; 256; 32; 256; 32]]. *)
Definition word_a_artifact : CompressionArtifact :=
  {| mystical_frequency_codex := [(32, 4, 0); (256, 4, 4)];
     total_frequency_essence := 8;
     compressed_bit_stream := [Byte.xaa; Byte.x80];
     mystical_word_grimoire := [word_a] |}.

Lemma length_word_a : length word_a = n.
Proof. apply repeat_length. Qed.

Lemma word_a_text_unfold :
  word_a_text = word_a_segment ++ word_a_segment ++ word_a_segment ++ word_a_segment ++ [].
Proof. reflexivity. Qed.

Lemma length_word_a_text : length word_a_text = (4 * (n + 1))%nat.
Proof.
  rewrite word_a_text_unfold. unfold word_a_segment. rewrite !length_app, length_word_a.
  cbn. lia.
Qed.

Lemma word_a_text_ascii : forallb ascii_byte word_a_text = true.
Proof.
  rewrite word_a_text_unfold. unfold word_a_segment, word_a.
  rewrite !forallb_app, forallb_repeat by reflexivity. reflexivity.
Qed.

Lemma tokenize_segment (rest : list Z) (alm : list (list Byte.byte * Z)) :
  tokenize_words (map byte_val word_a_segment ++ rest) [] alm
  = tokenize_words rest [] (count_word word_a alm).
Proof.
  unfold word_a_segment, word_a. rewrite map_app, <- app_assoc, tokenize_run_a.
  cbn [map app tokenize_words]. change (byte_val Byte.x20) with 32.
  change (char_is_ascii_alphabetic 32 || (32 =? 39)) with false. reflexivity.
Qed.

Lemma count_word_a_new : count_word word_a [] = [(word_a, 1)].
Proof.
  unfold count_word. rewrite length_word_a.
  replace (3 <=? n)%nat with true by (symmetry; apply Nat.leb_le; lia). reflexivity.
Qed.

Lemma count_word_a_again (c : Z) :
  0 <= c < 2 ^ 63 -> count_word word_a [(word_a, c)] = [(word_a, c + 1)].
Proof.
  intros Hc. unfold count_word. rewrite length_word_a.
  replace (3 <=? n)%nat with true by (symmetry; apply Nat.leb_le; lia).
  cbn [entry_increment]. rewrite list_byte_eqb_refl.
  unfold u64_of. rewrite Z.mod_small by lia. reflexivity.
Qed.

Lemma profitable_word_a :
  profitable_candidate (word_a, 4)
  = Some (word_a, 4, 3 * Z.of_nat n - 4).
Proof.
  unfold profitable_candidate. rewrite length_word_a.
  rewrite (i64_small (Z.of_nat n)) by lia. change (i64_of 4) with 4.
  rewrite (i64_small (Z.of_nat n * 4)) by lia.
  rewrite (i64_small (Z.of_nat n + 4)) by lia.
  rewrite (i64_small (Z.of_nat n * 4 - (Z.of_nat n + 4))) by lia.
  replace ((3 <? 4) && (0 <? Z.of_nat n * 4 - (Z.of_nat n + 4))) with true
    by (symmetry; apply andb_true_intro; split; apply Z.ltb_lt; lia).
  f_equal. f_equal. lia.
Qed.

Lemma discover_word_a :
  discover_profitable_word_enchantments insertion_order word_a_text = [word_a].
Proof.
  unfold discover_profitable_word_enchantments. rewrite length_word_a_text.
  replace (4 * (n + 1) <? MIN_DISCOVERY_LEN)%nat with false
    by (symmetry; apply Nat.ltb_ge; unfold MIN_DISCOVERY_LEN; lia).
  rewrite lossy_chars_ascii by exact word_a_text_ascii.
  rewrite word_a_text_unfold, !map_app, !tokenize_segment.
  cbn [map tokenize_words]. unfold count_word at 1. cbn [length Nat.leb].
  rewrite count_word_a_new, !count_word_a_again by lia.
  cbn [iter_words insertion_order flat_map]. replace (1 + 1 + 1 + 1) with 4 by reflexivity.
  rewrite profitable_word_a. reflexivity.
Qed.

Lemma transform_segment (P post : list Byte.byte) (fuel : nat) :
  (P = [] \/ exists Q, P = Q ++ [Byte.x20]) ->
  transform_loop (P ++ word_a_segment ++ post) [word_a] (S (S fuel)) (length P)
  = 256 :: 32 :: transform_loop (P ++ word_a_segment ++ post) [word_a] fuel
                   (length P + n + 1).
Proof.
  intros HP. set (bs := P ++ word_a_segment ++ post).
  assert (Hlen : length bs = (length P + n + 1 + length post)%nat)
    by (unfold bs, word_a_segment; rewrite !length_app, length_word_a; cbn; lia).
  assert (Hb0 : byte_at bs (length P) = Byte.x61).
  { unfold bs. rewrite <- (Nat.add_0_r (length P)), byte_at_app.
    unfold word_a_segment, word_a. replace n with (S (n - 1)) by lia. reflexivity. }
  assert (Hbn : byte_at bs (length P + n) = Byte.x20).
  { unfold bs. rewrite byte_at_app. unfold word_a_segment. rewrite <- app_assoc.
    replace n with (length word_a + 0)%nat at 1 by (rewrite length_word_a; lia).
    rewrite byte_at_app. reflexivity. }
  assert (Hle : (length P + n <=? length bs)%nat = true) by (apply Nat.leb_le; lia).
  assert (Hmatch : word_bytes_match bs (length P) word_a = true).
  { apply (word_bytes_match_prefix _ _ ([Byte.x20] ++ post)). unfold bs.
    rewrite skipn_app, skipn_all, Nat.sub_diag. cbn [skipn app].
    unfold word_a_segment. now rewrite <- app_assoc. }
  assert (Hbound : word_bounded bs (length P) (length P + n) = true).
  { unfold word_bounded. apply andb_true_intro. split.
    - destruct HP as [->|[Q ->]]; [reflexivity|].
      apply orb_true_intro. right. rewrite length_app. cbn [length].
      replace (pred (length Q + 1)) with (length Q + 0)%nat by lia.
      unfold bs. rewrite <- app_assoc, byte_at_app. reflexivity.
    - apply orb_true_intro. right. now rewrite Hbn. }
  assert (Hs1 : transform_step bs [word_a] (length P) = (256, (length P + n)%nat)).
  { unfold transform_step. cbv zeta. rewrite Hb0.
    change (is_ascii_alphabetic Byte.x61 || byte_eqb Byte.x61 APOSTROPHE) with true.
    cbv iota. cbn [try_grimoire]. rewrite length_word_a, Hle, Hmatch, Hbound. reflexivity. }
  assert (Hs2 : transform_step bs [word_a] (length P + n) = (32, S (length P + n))).
  { unfold transform_step. cbv zeta. rewrite Hbn. reflexivity. }
  cbn [transform_loop]. rewrite (proj2 (Nat.ltb_lt _ _)) by lia. rewrite Hs1. cbv beta iota.
  rewrite (proj2 (Nat.ltb_lt _ _)) by lia. rewrite Hs2. cbv beta iota.
  now replace (S (length P + n)) with (length P + n + 1)%nat by lia.
Qed.

Lemma transform_segments (k : nat) :
  forall P fuel, (P = [] \/ exists Q, P = Q ++ [Byte.x20]) -> (2 * k <= fuel)%nat ->
  transform_loop (P ++ repeat_text k word_a_segment) [word_a] fuel (length P)
  = concat (repeat [256; 32] k).
Proof.
  induction k as [|k IH]; intros P fuel HP Hf.
  - cbn [repeat_text repeat concat]. rewrite app_nil_r.
    destruct fuel; cbn [transform_loop]; [reflexivity|]. now rewrite Nat.ltb_irrefl.
  - cbn [repeat_text]. destruct fuel as [|[|fuel]]; [lia|lia|].
    rewrite transform_segment by exact HP. cbn [repeat concat app].
    replace (P ++ word_a_segment ++ repeat_text k word_a_segment)
      with ((P ++ word_a_segment) ++ repeat_text k word_a_segment) by (rewrite app_assoc; reflexivity).
    replace (length P + n + 1)%nat with (length (P ++ word_a_segment))
      by (unfold word_a_segment; rewrite !length_app, length_word_a; cbn; lia).
    rewrite IH; [reflexivity| |lia].
    right. exists (P ++ word_a). unfold word_a_segment. apply app_assoc.
Qed.

Lemma transform_word_a :
  transform_manuscript_to_symbols word_a_text [word_a] = [256; 32; 256; 32; 256; 32; 256; 32].
Proof.
  unfold transform_manuscript_to_symbols. rewrite length_word_a_text.
  apply (transform_segments 4 [] (4 * (n + 1))); [left; reflexivity|lia].
Qed.

Lemma weave_word_a : weave_compression_spell insertion_order word_a_text = Some word_a_artifact.
Proof.
  unfold weave_compression_spell. rewrite discover_word_a, transform_word_a.
  vm_compute. reflexivity.
Qed.

Lemma unweave_word_a : unweave_compression_spell word_a_artifact = Some word_a_text.
Proof.
  transitivity (Some (reconstruct_original_manuscript
                        [256; 32; 256; 32; 256; 32; 256; 32] [word_a])).
  - vm_compute. reflexivity.
  - f_equal. rewrite word_a_text_unfold. unfold word_a_segment.
    rewrite <- !app_assoc. reflexivity.
Qed.

(** The serialised artifact when the word has [2^32] letters: its length
    is written as [u32] [0]. *)
Hypothesis n_wraps : Z.of_nat n = 2 ^ 32.

Definition word_a_tail : list Byte.byte :=
  le_bytes 4 2 ++ serialize_entry (32, 4, 0) ++ serialize_entry (256, 4, 4)
  ++ le_bytes 8 8 ++ le_bytes 4 2 ++ [Byte.xaa; Byte.x80].

Lemma word_a_split : word_a = le_bytes 4 1633771873 ++ repeat Byte.x61 (n - 4).
Proof.
  unfold word_a. replace n with (4 + (n - 4))%nat at 1 by lia.
  rewrite repeat_app. reflexivity.
Qed.

Lemma serialize_word_a :
  serialize_artifact word_a_artifact
  = le_bytes 4 1 ++ le_bytes 4 0 ++ le_bytes 4 1633771873 ++ repeat Byte.x61 (n - 4)
    ++ word_a_tail.
Proof.
  unfold serialize_artifact, word_a_artifact.
  cbn [mystical_word_grimoire mystical_frequency_codex total_frequency_essence
       compressed_bit_stream flat_map].
  unfold serialize_word at 1. rewrite length_word_a, n_wraps.
  change (u32_of (2 ^ 32)) with 0. rewrite word_a_split.
  unfold word_a_tail. rewrite <- !app_assoc. reflexivity.
Qed.

Lemma deserialize_word_a : deserialize_artifact (serialize_artifact word_a_artifact) = None.
Proof.
  rewrite serialize_word_a. unfold deserialize_artifact.
  set (buf := le_bytes 4 1 ++ le_bytes 4 0 ++ le_bytes 4 1633771873
              ++ repeat Byte.x61 (n - 4) ++ word_a_tail).
  rewrite (read_le_at 4 buf [] (le_bytes 4 0 ++ le_bytes 4 1633771873
             ++ repeat Byte.x61 (n - 4) ++ word_a_tail) 0 1);
    [| reflexivity | reflexivity | simpl; lia].
  cbv beta iota. change (Z.to_nat 1) with 1%nat. cbn [read_words Nat.add].
  rewrite (read_le_at 4 buf (le_bytes 4 1) (le_bytes 4 1633771873
             ++ repeat Byte.x61 (n - 4) ++ word_a_tail) 4 0);
    [| reflexivity | reflexivity | simpl; lia].
  cbv beta iota. change (Z.to_nat 0) with 0%nat. cbn [Nat.add].
  rewrite read_slice_zero
    by (unfold buf; rewrite !length_app, !length_le_bytes; lia).
  cbv beta iota. cbn [read_words]. cbv beta iota.
  rewrite (read_le_at 4 buf (le_bytes 4 1 ++ le_bytes 4 0)
             (repeat Byte.x61 (n - 4) ++ word_a_tail) 8 1633771873);
    [| unfold buf; rewrite <- !app_assoc; reflexivity | reflexivity | simpl; lia].
  cbv beta iota. cbn [Nat.add].
  rewrite read_entries_short; [reflexivity|lia|].
  unfold buf. rewrite !length_app, !length_le_bytes, repeat_length.
  change (length word_a_tail) with 58%nat. lia.
Qed.
End GiantWord.


(** The text of four words of [2^32] letters ['a'], each followed by a space. *)
Definition giant_word_text : list Byte.byte := word_a_text (Z.to_nat (2 ^ 32)).

(** The artifact of ["AB"]. *)
Definition ab_artifact : CompressionArtifact := {|
  mystical_frequency_codex := [(65, 1, 0); (66, 1, 1)];
  total_frequency_essence := 2;
  compressed_bit_stream := [Byte.x60];
  mystical_word_grimoire := [] |}.


(* ------------------------------------------------------------------ *)
(** ** The states of the interval coder *)

(** The state right after the narrowing of [encode_mystical_symbol],
    before [normalize]. *)
Definition enc_narrow (s : EncState) (start fin total : Z) : EncState :=
  let '(low', high') := narrow_interval (enc_low s) (enc_high s) start fin total in
  {| enc_writer := enc_writer s; enc_low := low'; enc_high := high' |}.

Definition dec_narrow (s : DecState) (start fin total : Z) : DecState :=
  let '(low', high') := narrow_interval (dec_low s) (dec_high s) start fin total in
  {| dec_reader := dec_reader s; dec_low := low'; dec_high := high' |}.

(** [enc_visited fa syms s rest b]: the run of [encode_symbols fa enc_init
    syms] reaches the state [s] with the symbols [rest] still to encode;
    [b] is [true] inside a [normalize] loop (after the narrowing and after
    each of its iterations), [false] between two symbols. *)
Inductive enc_visited (fa : FrequencyAnalysisWisdom) (syms : list Z)
  : EncState -> list Z -> bool -> Prop :=
| ev_init : enc_visited fa syms enc_init syms false
| ev_narrow s sym rest e :
    enc_visited fa syms s (sym :: rest) false ->
    find_by_symbol (frequency_entries fa) sym = Some e ->
    u32_of (total_frequency_mass fa) <> 0 ->
    enc_visited fa syms
      (enc_narrow s (u32_of (entry_start e)) (u32_of (u64_of (entry_start e + entry_count e)))
         (u32_of (total_frequency_mass fa))) rest true
| ev_skip s sym rest :
    enc_visited fa syms s (sym :: rest) false ->
    find_by_symbol (frequency_entries fa) sym = None ->
    enc_visited fa syms s rest false
| ev_iter s s' rest :
    enc_visited fa syms s rest true -> enc_normalize_body s = Running s' ->
    enc_visited fa syms s' rest true
| ev_stop s s' rest :
    enc_visited fa syms s rest true -> enc_normalize_body s = Finished s' ->
    enc_visited fa syms s' rest false.

(** [dec_visited codex total d0 d n b]: the decoding loop of
    [unweave_compression_spell], started in [d0], reaches the state [d]
    with [n] symbols still to decode. *)
Inductive dec_visited (codex : list (Z * Z * Z)) (total : Z) (d0 : DecState)
  : DecState -> nat -> bool -> Prop :=
| dv_init : dec_visited codex total d0 d0 (Z.to_nat total) false
| dv_narrow d n target e :
    dec_visited codex total d0 d (S n) false ->
    decode_mystical_target (dec_reader d) (u32_of total) (dec_low d) (dec_high d) = Some target ->
    find_by_symbol codex (resolve_symbol codex target) = Some e ->
    u32_of total <> 0 ->
    dec_visited codex total d0
      (dec_narrow d (u32_of (entry_start e)) (u32_of (u64_of (entry_start e + entry_count e)))
         (u32_of total)) n true
| dv_skip d n target :
    dec_visited codex total d0 d (S n) false ->
    decode_mystical_target (dec_reader d) (u32_of total) (dec_low d) (dec_high d) = Some target ->
    find_by_symbol codex (resolve_symbol codex target) = None ->
    dec_visited codex total d0 d n false
| dv_iter d d' n :
    dec_visited codex total d0 d n true -> dec_normalize_body d = Running d' ->
    dec_visited codex total d0 d' n true
| dv_stop d d' n :
    dec_visited codex total d0 d n true -> dec_normalize_body d = Finished d' ->
    dec_visited codex total d0 d' n false.

(** The interval invariant of the specification. *)
Definition interval_ok (low high : Z) : Prop :=
  0 <= low /\ low <= high /\ high <= ARITHMETIC_PRECISION_LIMIT.

(** The interval after a [normalize] loop has stopped. *)
Definition interval_settled (low high : Z) : Prop :=
  0 <= low < HALF /\ HALF <= high <= ARITHMETIC_PRECISION_LIMIT
  /\ (low < FIRST_QTR \/ THIRD_QTR <= high).

(** The text whose encoding never ends: five punctuation and control bytes
    (['>'], CR, ETB, ['1'], ['>']) and [15896360] zero bytes. *)
Definition diverging_prefix : list Byte.byte :=
  [Byte.x3e; Byte.x0d; Byte.x17; Byte.x31; Byte.x3e].

Definition diverging_zeros : nat := Z.to_nat 15896360.

Definition diverging_text : list Byte.byte :=
  diverging_prefix ++ repeat Byte.x00 diverging_zeros.

Definition diverging_table : FrequencyAnalysisWisdom :=
  {| frequency_entries := [(0, 15896360, 0); (13, 1, 15896360); (23, 1, 15896361);
                           (49, 1, 15896362); (62, 2, 15896363)];
     total_frequency_mass := 15896365 |}.

(* ------------------------------------------------------------------ *)
(** ** Facts about the interval coder *)

Lemma encode_mystical_symbol_narrow (s : EncState) (start fin total : Z) :
  encode_mystical_symbol s start fin total
  = if total =? 0 then None else enc_normalize (enc_narrow s start fin total).
Proof.
  unfold encode_mystical_symbol, enc_narrow.
  destruct (narrow_interval _ _ _ _ _). reflexivity.
Qed.

Lemma update_mystical_intervals_narrow (s : DecState) (start fin total : Z) :
  update_mystical_intervals s start fin total
  = if total =? 0 then None else dec_normalize (dec_narrow s start fin total).
Proof.
  unfold update_mystical_intervals, dec_narrow.
  destruct (narrow_interval _ _ _ _ _). reflexivity.
Qed.

Lemma loop_pow_stays {S : Type} (body : S -> LoopResult S) (P : S -> Prop) :
  (forall s, P s -> exists s', body s = Running s' /\ P s') ->
  forall k s, P s -> exists s', loop_pow body k s = Running s' /\ P s'.
Proof.
  intros Hb. induction k as [|k IH]; intros s Hs; cbn [loop_pow]; [exact (Hb s Hs)|].
  destruct (IH s Hs) as (s1 & -> & H1). exact (IH s1 H1).
Qed.

(** An empty interval, [high = low - 1]. *)
Definition enc_empty_interval (s : EncState) : Prop :=
  1 <= enc_low s <= 2 ^ 24 /\ enc_high s = enc_low s - 1.

Lemma enc_normalize_body_empty (s : EncState) :
  enc_empty_interval s ->
  exists s', enc_normalize_body s = Running s' /\ enc_empty_interval s'.
Proof.
  destruct s as [w low high]. unfold enc_empty_interval, enc_normalize_body.
  cbn [enc_low enc_high enc_writer]. intros [Hl ->].
  change HALF with 8388608. change FIRST_QTR with 4194304. change THIRD_QTR with 12582912.
  destruct (Z.ltb_spec (low - 1) 8388608).
  - eexists; split; [reflexivity|]. cbn [enc_low enc_high].
    unfold u32_of. rewrite !Z.mod_small by lia. lia.
  - destruct (Z.leb_spec 8388608 low); [|lia].
    eexists; split; [reflexivity|]. cbn [enc_low enc_high].
    unfold u32_of. rewrite !Z.mod_small by lia. lia.
Qed.

(** Once the interval is empty, the encoder's [normalize] never stops. *)
Lemma enc_normalize_empty (s : EncState) :
  enc_empty_interval s -> enc_normalize s = None.
Proof.
  intros Hs. unfold enc_normalize, run_loop.
  destruct (loop_pow_stays _ _ enc_normalize_body_empty 64 s Hs) as (s' & -> & _).
  reflexivity.
Qed.

Lemma encode_symbols_app_none (fa : FrequencyAnalysisWisdom) (l1 l2 : list Z) :
  forall s, encode_symbols fa s l1 = None -> encode_symbols fa s (l1 ++ l2) = None.
Proof.
  induction l1 as [|x l1 IH]; intros s H; [discriminate|].
  cbn [encode_symbols app] in *. destruct (encode_one fa s x); [|reflexivity].
  exact (IH _ H).
Qed.

Lemma count_symbols_app (l1 l2 : list Z) :
  forall m, count_symbols (l1 ++ l2) m = count_symbols l2 (count_symbols l1 m).
Proof. induction l1 as [|x l1 IH]; intros m; [reflexivity|]. apply IH. Qed.

Lemma diverging_symbols (ws : list (list Byte.byte)) :
  transform_manuscript_to_symbols diverging_text ws
  = [62; 13; 23; 49; 62] ++ repeat 0 diverging_zeros.
Proof.
  unfold diverging_text. rewrite transform_plain.
  - rewrite map_app, map_repeat. change (byte_val Byte.x00) with 0. reflexivity.
  - rewrite forallb_app, forallb_repeat by reflexivity. reflexivity.
Qed.

Lemma permutation_swap_ends {A : Type} (a b c d e : A) :
  Permutation [a; b; c; d; e] [e; b; c; d; a].
Proof.
  apply (Permutation_cons_app (l := [b; c; d; e]) [e; b; c; d] [] a). rewrite app_nil_r.
  apply Permutation_sym. apply (Permutation_cons_append [b; c; d] e).
Qed.

Lemma analyze_diverging_gen (h : HashIter) (k : nat) :
  hash_iter_ok h -> Z.of_nat k < 2 ^ 40 ->
  analyze_symbolic_frequencies h ([62; 13; 23; 49; 62] ++ repeat 0 (S k))
  = {| frequency_entries :=
         cumulate 0 [(0, Z.of_nat (S k)); (13, 1); (23, 1); (49, 1); (62, 2)];
       total_frequency_mass :=
         u64_of (sum_counts [(0, Z.of_nat (S k)); (13, 1); (23, 1); (49, 1); (62, 2)]) |}.
Proof.
  intros Hh Hk. rewrite analyze_unfold.
  assert (Hc : count_symbols ([62; 13; 23; 49; 62] ++ repeat 0 (S k)) []
               = [(62, 2); (13, 1); (23, 1); (49, 1); (0, Z.of_nat (S k))]).
  { rewrite count_symbols_app.
    replace (count_symbols [62; 13; 23; 49; 62] [])
      with [(62, 2); (13, 1); (23, 1); (49, 1)] by reflexivity.
    cbn [repeat count_symbols].
    change (entry_increment Z.eqb 0 [(62, 2); (13, 1); (23, 1); (49, 1)])
      with ([(62, 2); (13, 1); (23, 1); (49, 1)] ++ [(0, 1)]).
    rewrite count_symbols_repeat; [cbn [app]; rewrite Nat2Z.inj_succ; repeat f_equal; lia| |lia|lia].
    cbn. intros Hin. decompose [or] Hin; lia. }
  rewrite (analysis_pairs_eq h _ [(0, Z.of_nat (S k)); (13, 1); (23, 1); (49, 1); (62, 2)] Hh).
  - reflexivity.
  - repeat constructor; cbn; lia.
  - rewrite Hc. apply permutation_swap_ends.
Qed.

Lemma analyze_diverging (h : HashIter) :
  hash_iter_ok h ->
  analyze_symbolic_frequencies h ([62; 13; 23; 49; 62] ++ repeat 0 diverging_zeros)
  = diverging_table.
Proof.
  intros Hh.
  assert (Hz : diverging_zeros = S (Z.to_nat 15896359)).
  { unfold diverging_zeros. rewrite <- Z2Nat.inj_succ by lia. reflexivity. }
  rewrite Hz, analyze_diverging_gen by (auto; rewrite Z2Nat.id; lia).
  rewrite Nat2Z.inj_succ, Z2Nat.id by lia. vm_compute. reflexivity.
Qed.


(** The interval part of one iteration of the two [normalize] loops:
    [None] when the loop breaks. *)
Definition norm_interval_step (low high : Z) : option (Z * Z) :=
  if high <? HALF then Some (u32_of (2 * low), u32_of (2 * high + 1))
  else if HALF <=? low then Some (u32_of (2 * (low - HALF)), u32_of (2 * (high - HALF) + 1))
  else if (FIRST_QTR <=? low) && (high <? THIRD_QTR) then
    Some (u32_of (2 * (low - FIRST_QTR)), u32_of (2 * (high - FIRST_QTR) + 1))
  else None.

Lemma enc_body_interval (s : EncState) :
  match enc_normalize_body s with
  | Finished s' => s' = s /\ norm_interval_step (enc_low s) (enc_high s) = None
  | Running s' => norm_interval_step (enc_low s) (enc_high s) = Some (enc_low s', enc_high s')
  end.
Proof.
  destruct s as [w low high]. unfold enc_normalize_body, norm_interval_step.
  cbn [enc_low enc_high enc_writer].
  destruct (high <? HALF); [reflexivity|]. destruct (HALF <=? low); [reflexivity|].
  destruct ((FIRST_QTR <=? low) && (high <? THIRD_QTR)); [reflexivity|]. auto.
Qed.

Lemma dec_body_interval (s : DecState) :
  match dec_normalize_body s with
  | Finished s' => s' = s /\ norm_interval_step (dec_low s) (dec_high s) = None
  | Running s' => norm_interval_step (dec_low s) (dec_high s) = Some (dec_low s', dec_high s')
  end.
Proof.
  destruct s as [r low high]. unfold dec_normalize_body, norm_interval_step.
  cbn [dec_low dec_high dec_reader].
  destruct (high <? HALF); [destruct (read_bit r); reflexivity|].
  destruct (HALF <=? low); [destruct (read_bit _); reflexivity|].
  destruct ((FIRST_QTR <=? low) && (high <? THIRD_QTR)); [destruct (read_bit _); reflexivity|].
  auto.
Qed.

Ltac coder_constants :=
  unfold ARITHMETIC_PRECISION_LIMIT in *;
  change HALF with 8388608 in *; change FIRST_QTR with 4194304 in *;
  change THIRD_QTR with 12582912 in *.

Lemma pair_some_inj {A B : Type} (a a' : A) (b b' : B) :
  Some (a, b) = Some (a', b') -> a = a' /\ b = b'.
Proof. intros E. injection E. auto. Qed.

Lemma norm_step_ok (low high low' high' : Z) :
  interval_ok low high -> norm_interval_step low high = Some (low', high') ->
  interval_ok low' high' /\ high' - low' + 1 = 2 * (high - low + 1).
Proof.
  unfold interval_ok, norm_interval_step. coder_constants. intros Hi.
  destruct (Z.ltb_spec high 8388608).
  { intros E; apply pair_some_inj in E as [<- <-]. unfold u32_of. rewrite !Z.mod_small by lia. lia. }
  destruct (Z.leb_spec 8388608 low).
  { intros E; apply pair_some_inj in E as [<- <-]. unfold u32_of. rewrite !Z.mod_small by lia. lia. }
  destruct (Z.leb_spec 4194304 low); cbn [andb]; [|discriminate].
  destruct (Z.ltb_spec high 12582912); [|discriminate].
  intros E; apply pair_some_inj in E as [<- <-]. unfold u32_of. rewrite !Z.mod_small by lia. lia.
Qed.

Lemma norm_step_settled (low high : Z) :
  interval_ok low high -> norm_interval_step low high = None -> interval_settled low high.
Proof.
  unfold interval_ok, interval_settled, norm_interval_step. coder_constants. intros Hi.
  destruct (Z.ltb_spec high 8388608); [discriminate|].
  destruct (Z.leb_spec 8388608 low); [discriminate|].
  destruct (Z.leb_spec 4194304 low); destruct (Z.ltb_spec high 12582912);
    cbn [andb]; try discriminate; intros _; lia.
Qed.

(** The narrowing from a settled interval by an entry [cs, cs + c) of a
    table of total [T <= 2^22]: no operation wraps around, and the new
    interval is a non-empty part of the old one. *)
Lemma narrow_interval_settled (low high cs c T : Z) :
  interval_settled low high -> 0 <= cs -> 1 <= c -> cs + c <= T -> T <= 2 ^ 22 ->
  narrow_interval low high (u32_of cs) (u32_of (u64_of (cs + c))) T
  = (low + (high - low + 1) * cs / T, low + (high - low + 1) * (cs + c) / T - 1)
  /\ low <= low + (high - low + 1) * cs / T
  /\ low + (high - low + 1) * cs / T <= low + (high - low + 1) * (cs + c) / T - 1
  /\ low + (high - low + 1) * (cs + c) / T - 1 <= high.
Proof.
  unfold interval_settled. coder_constants. intros Hs Hcs Hc HT HT2.
  set (R := high - low + 1).
  assert (HR : 2 ^ 22 < R <= 2 ^ 24) by (unfold R; lia).
  assert (Hd1 : 0 <= R * cs / T <= R).
  { split; [apply Z.div_pos; nia|]. apply Z.div_le_upper_bound; nia. }
  assert (Hd2 : R * cs / T + 1 <= R * (cs + c) / T <= R).
  { split; [|apply Z.div_le_upper_bound; nia].
    rewrite <- (Z.div_add (R * cs) 1 T) by lia.
    apply Z.div_le_mono; nia. }
  assert (Hm1 : 0 <= R * cs < 2 ^ 64) by nia.
  assert (Hm2 : 0 <= R * (cs + c) < 2 ^ 64) by nia.
  unfold narrow_interval, u32_of, u64_of.
  rewrite (Z.mod_small cs) by lia. rewrite (Z.mod_small (cs + c)) by lia.
  rewrite (Z.mod_small (cs + c)) by lia.
  rewrite (Z.mod_small (high - low)) by lia.
  rewrite (Z.mod_small (high - low + 1)) by lia. fold R.
  rewrite (Z.mod_small (R * cs)) by lia. rewrite (Z.mod_small (R * (cs + c))) by lia.
  rewrite (Z.mod_small (low + R * cs / T)) by lia.
  rewrite (Z.mod_small (low + R * (cs + c) / T)) by lia.
  rewrite (Z.mod_small (low + R * (cs + c) / T - 1)) by lia.
  rewrite (Z.mod_small (low + R * (cs + c) / T - 1)) by lia.
  rewrite (Z.mod_small (low + R * cs / T)) by lia.
  split; [reflexivity|]. lia.
Qed.

Lemma find_with_probes_some {A : Type} (p : A -> bool) (l : list A) (x : A) :
  fst (find_with_probes p l) = Some x -> In x l /\ p x = true.
Proof.
  induction l as [|y l IH]; cbn; [discriminate|].
  destruct (p y) eqn:Hy.
  - cbn. intros E; injection E as <-. auto.
  - destruct (find_with_probes p l) as [r n]. cbn. intros Hr.
    destruct (IH Hr). auto.
Qed.

Lemma find_by_symbol_some (es : list (Z * Z * Z)) (s : Z) (e : Z * Z * Z) :
  find_by_symbol es s = Some e -> In e es /\ entry_symbol e = s.
Proof.
  unfold find_by_symbol, find_entry. intros H.
  destruct (find_with_probes_some _ _ _ H) as [Hin Hp]. apply Z.eqb_eq in Hp. auto.
Qed.

Lemma table_from_le (es : list (Z * Z * Z)) :
  forall c t, table_from c es t -> c <= t.
Proof.
  induction es as [|e es IH]; intros c t Ht; cbn in Ht; [lia|].
  destruct Ht as (_ & Hc & Ht). specialize (IH _ _ Ht). lia.
Qed.

Lemma table_from_entry (es : list (Z * Z * Z)) :
  forall c t e, table_from c es t -> In e es ->
  c <= entry_start e /\ 1 <= entry_count e /\ entry_start e + entry_count e <= t.
Proof.
  induction es as [|e' es IH]; intros c t e Ht Hin; [destruct Hin|].
  destruct Ht as (Hs & Hc & Ht). pose proof (table_from_le _ _ _ Ht) as Hle.
  destruct Hin as [<-|Hin]; [lia|].
  destruct (IH _ _ _ Ht Hin). lia.
Qed.

(** Along the encoding, the interval satisfies the invariant; between two
    symbols it is moreover settled. *)
Lemma enc_visited_interval (fa : FrequencyAnalysisWisdom) (syms : list Z) :
  table_from 0 (frequency_entries fa) (total_frequency_mass fa) ->
  total_frequency_mass fa <= 2 ^ 22 ->
  forall s rest b, enc_visited fa syms s rest b ->
  if b then interval_ok (enc_low s) (enc_high s) else interval_settled (enc_low s) (enc_high s).
Proof.
  intros Ht HT s rest b Hv. induction Hv as [|s sym rest e Hv IH He HT0|s sym rest Hv IH Hn| s s' rest Hv IH Hb
                                             | s s' rest Hv IH Hb].
  - unfold interval_settled. cbn. coder_constants. lia.
  - destruct (find_by_symbol_some _ _ _ He) as [Hin _].
    destruct (table_from_entry _ _ _ _ Ht Hin) as (H1 & H2 & H3).
    assert (Hu : u32_of (total_frequency_mass fa) = total_frequency_mass fa)
      by (unfold u32_of; apply Z.mod_small; lia).
    rewrite Hu. unfold enc_narrow.
    destruct (narrow_interval_settled _ _ _ _ _ IH H1 H2 H3 HT) as (-> & Hn).
    unfold interval_settled in IH. unfold interval_ok. cbn [enc_low enc_high]. lia.
  - exact IH.
  - pose proof (enc_body_interval s) as Hi. rewrite Hb in Hi.
    exact (proj1 (norm_step_ok _ _ _ _ IH Hi)).
  - pose proof (enc_body_interval s) as Hi. rewrite Hb in Hi. destruct Hi as [-> Hi].
    exact (norm_step_settled _ _ IH Hi).
Qed.

Lemma dec_visited_interval (codex : list (Z * Z * Z)) (total : Z) (d0 : DecState) :
  table_from 0 codex total -> total <= 2 ^ 22 ->
  interval_settled (dec_low d0) (dec_high d0) ->
  forall d n b, dec_visited codex total d0 d n b ->
  if b then interval_ok (dec_low d) (dec_high d) else interval_settled (dec_low d) (dec_high d).
Proof.
  intros Ht HT H0 d n b Hv.
  induction Hv as [|d n target e Hv IH Htg He HT0|d n target Hv IH Htg Hn| d d' n Hv IH Hb | d d' n Hv IH Hb].
  - exact H0.
  - destruct (find_by_symbol_some _ _ _ He) as [Hin _].
    destruct (table_from_entry _ _ _ _ Ht Hin) as (H1 & H2 & H3).
    assert (Hu : u32_of total = total) by (unfold u32_of; apply Z.mod_small; lia).
    rewrite Hu. unfold dec_narrow.
    destruct (narrow_interval_settled _ _ _ _ _ IH H1 H2 H3 HT) as (-> & Hn).
    unfold interval_settled in IH. unfold interval_ok. cbn [dec_low dec_high]. lia.
  - exact IH.
  - pose proof (dec_body_interval d) as Hi. rewrite Hb in Hi.
    exact (proj1 (norm_step_ok _ _ _ _ IH Hi)).
  - pose proof (dec_body_interval d) as Hi. rewrite Hb in Hi. destruct Hi as [-> Hi].
    exact (norm_step_settled _ _ IH Hi).
Qed.

Lemma transform_length_le (bs : list Byte.byte) (ws : list (list Byte.byte)) :
  (length (transform_manuscript_to_symbols bs ws) <= length bs)%nat.
Proof. apply (transform_loop_symbols_range bs ws (length bs) 0). Qed.

(** The visited states of a [normalize] loop run by [loop_pow]. *)
Lemma enc_visited_loop_pow (fa : FrequencyAnalysisWisdom) (syms rest : list Z) :
  forall k s s', enc_visited fa syms s rest true ->
  (loop_pow enc_normalize_body k s = Finished s' -> enc_visited fa syms s' rest false)
  /\ (loop_pow enc_normalize_body k s = Running s' -> enc_visited fa syms s' rest true).
Proof.
  induction k as [|k IH]; intros s s' Hs; cbn [loop_pow].
  - split; intros Hb; [exact (ev_stop _ _ _ _ _ Hs Hb) | exact (ev_iter _ _ _ _ _ Hs Hb)].
  - destruct (loop_pow enc_normalize_body k s) as [s1|s1] eqn:E.
    + split; intros H; [|discriminate]. injection H as <-. exact (proj1 (IH s s1 Hs) E).
    + exact (IH s1 s' (proj2 (IH s s1 Hs) E)).
Qed.

Definition enc_empty_intervalb (s : EncState) : bool :=
  (1 <=? enc_low s) && (enc_low s <=? 2 ^ 24) && (enc_high s =? enc_low s - 1).

Lemma enc_empty_intervalb_spec (s : EncState) :
  enc_empty_intervalb s = true -> enc_empty_interval s.
Proof.
  unfold enc_empty_intervalb, enc_empty_interval. intros H.
  apply andb_prop in H as [H H3]. apply andb_prop in H as [H1 H2].
  apply Z.leb_le in H1, H2. apply Z.eqb_eq in H3. lia.
Qed.

Lemma encode_one_empty (fa : FrequencyAnalysisWisdom) (s : EncState) (sym : Z) (e : Z * Z * Z) :
  find_by_symbol (frequency_entries fa) sym = Some e ->
  u32_of (total_frequency_mass fa) <> 0 ->
  enc_empty_intervalb (enc_narrow s (u32_of (entry_start e))
    (u32_of (u64_of (entry_start e + entry_count e))) (u32_of (total_frequency_mass fa))) = true ->
  encode_one fa s sym = None.
Proof.
  intros He HT Hemp. unfold encode_one. rewrite He, encode_mystical_symbol_narrow.
  apply Z.eqb_neq in HT. rewrite HT. apply enc_normalize_empty.
  exact (enc_empty_intervalb_spec _ Hemp).
Qed.

(** The first symbols of [diverging_text]: after ['>'] the narrowing by CR
    leaves the empty interval [[16777212, 16777211]]. *)
Lemma encode_diverging_prefix :
  exists s1, encode_one diverging_table enc_init 62 = Some s1
  /\ enc_visited diverging_table ([62; 13; 23; 49; 62] ++ repeat 0 diverging_zeros)
       s1 ([13; 23; 49; 62] ++ repeat 0 diverging_zeros) false
  /\ enc_empty_intervalb (enc_narrow s1 15896360 15896361 15896365) = true.
Proof.
  pose proof (ev_init diverging_table ([62; 13; 23; 49; 62] ++ repeat 0 diverging_zeros)) as H0.
  assert (He : find_by_symbol (frequency_entries diverging_table) 62 = Some (62, 2, 15896363))
    by reflexivity.
  pose proof (ev_narrow _ _ _ 62 ([13; 23; 49; 62] ++ repeat 0 diverging_zeros) _ H0 He
                ltac:(discriminate)) as H1.
  destruct (loop_pow enc_normalize_body 64
              (enc_narrow enc_init (u32_of (entry_start (62, 2, 15896363)))
                 (u32_of (u64_of (entry_start (62, 2, 15896363) + entry_count (62, 2, 15896363))))
                 (u32_of (total_frequency_mass diverging_table)))) as [s1|s1] eqn:E.
  - exists s1. split; [|split].
    + unfold encode_one. rewrite He, encode_mystical_symbol_narrow.
      cbv beta iota. unfold enc_normalize, run_loop. rewrite E. reflexivity.
    + exact (proj1 (enc_visited_loop_pow _ _ _ 64 _ _ H1) E).
    + vm_compute in E. injection E as <-. vm_compute. reflexivity.
  - vm_compute in E. discriminate.
Qed.

Lemma encode_diverging : encode_symbols diverging_table enc_init [62; 13; 23; 49; 62] = None.
Proof.
  destruct encode_diverging_prefix as (s1 & E1 & _ & Hemp).
  cbn [encode_symbols]. rewrite E1.
  rewrite (encode_one_empty diverging_table s1 13 (13, 1, 15896360)); [reflexivity..| |exact Hemp].
  discriminate.
Qed.


Lemma interval_settled_ok (low high : Z) : interval_settled low high -> interval_ok low high.
Proof. unfold interval_settled, interval_ok. coder_constants. lia. Qed.

Lemma dec_init_settled (a : CompressionArtifact) :
  interval_settled (dec_low (dec_init a)) (dec_high (dec_init a)).
Proof. unfold interval_settled. cbn. coder_constants. lia. Qed.

Lemma weave_tables (h : HashIter) (x : list Byte.byte) (a : CompressionArtifact) :
  weave_compression_spell h x = Some a ->
  let fa := analyze_symbolic_frequencies h
              (transform_manuscript_to_symbols x (discover_profitable_word_enchantments h x)) in
  mystical_frequency_codex a = frequency_entries fa
  /\ total_frequency_essence a = total_frequency_mass fa.
Proof.
  unfold weave_compression_spell. destruct (encode_symbols _ _ _); [|discriminate].
  intros E. injection E as <-. cbn. auto.
Qed.

(** The symbols of [diverging_text], under any admissible hash order,
    bring the encoder to the empty interval [[16777212, 16777211]]. *)
Lemma diverging_visited :
  let syms := [62; 13; 23; 49; 62] ++ repeat 0 diverging_zeros in
  exists s rest, enc_visited diverging_table syms s rest true
  /\ enc_empty_intervalb s = true.
Proof.
  destruct encode_diverging_prefix as (s1 & _ & Hv & Hemp).
  assert (He : find_by_symbol (frequency_entries diverging_table) 13 = Some (13, 1, 15896360))
    by reflexivity.
  pose proof (ev_narrow _ _ _ 13 _ _ Hv He ltac:(discriminate)) as H1.
  eexists; eexists. split; [exact H1|]. exact Hemp.
Qed.

Lemma weave_none_of (h : HashIter) (x : list Byte.byte) (syms : list Z)
  (fa : FrequencyAnalysisWisdom) :
  transform_manuscript_to_symbols x (discover_profitable_word_enchantments h x) = syms ->
  analyze_symbolic_frequencies h syms = fa ->
  encode_symbols fa enc_init syms = None ->
  weave_compression_spell h x = None.
Proof.
  intros E1 E2 E3. unfold weave_compression_spell. rewrite E1, E2, E3. reflexivity.
Qed.

Lemma weave_diverging (h : HashIter) :
  hash_iter_ok h -> weave_compression_spell h diverging_text = None.
Proof.
  intros Hh. apply (weave_none_of h diverging_text _ _ (diverging_symbols _) (analyze_diverging h Hh)).
  exact (encode_symbols_app_none _ _ _ _ encode_diverging).
Qed.


(** ** The bits written by [BitMagicWriter] *)

(** The [n] low bits of [v], most significant first. *)
Fixpoint bits_n (n : nat) (v : Z) : list Z :=
  match n with
  | O => []
  | S n' => bits_n n' (v / 2) ++ [v mod 2]
  end.

Definition bits_of_bytes (bs : list Byte.byte) : list Z :=
  flat_map (fun b => bits_n 8 (byte_val b)) bs.

(** The bits written so far: the full bytes, then the [bits_brewing_count]
    bits of the cauldron. *)
Definition writer_bits (w : BitMagicWriter) : list Z :=
  bits_of_bytes (mystical_output_scroll w)
  ++ bits_n (Z.to_nat (bits_brewing_count w)) (bit_accumulation_cauldron w).

Definition writer_ok (w : BitMagicWriter) : Prop :=
  0 <= bits_brewing_count w < 8
  /\ 0 <= bit_accumulation_cauldron w < 2 ^ bits_brewing_count w.

Lemma length_bits_n (n : nat) : forall v, length (bits_n n v) = n.
Proof.
  induction n as [|n IH]; intros v; cbn [bits_n]; [reflexivity|].
  rewrite length_app, IH. cbn. lia.
Qed.

Lemma bits_n_double (n : nat) (c b : Z) :
  0 <= b <= 1 -> bits_n (S n) (2 * c + b) = bits_n n c ++ [b].
Proof.
  intros Hb. cbn [bits_n].
  replace ((2 * c + b) / 2) with c by (rewrite Z.mul_comm, Z.div_add_l by lia; rewrite Z.div_small by lia; lia).
  replace ((2 * c + b) mod 2) with b by (rewrite Z.mul_comm, Z.add_comm, Z.mod_add by lia; rewrite Z.mod_small by lia; lia).
  reflexivity.
Qed.

Lemma bits_n_shift (n m : nat) (c : Z) :
  bits_n (m + n) (c * 2 ^ Z.of_nat m) = bits_n n c ++ repeat 0 m.
Proof.
  induction m as [|m IH].
  - cbn. rewrite Z.mul_1_r, app_nil_r. reflexivity.
  - replace (S m + n)%nat with (S (m + n)) by lia.
    replace (c * 2 ^ Z.of_nat (S m)) with (2 * (c * 2 ^ Z.of_nat m) + 0)
      by (rewrite Nat2Z.inj_succ, Z.pow_succ_r by lia; lia).
    rewrite bits_n_double by lia.
    rewrite IH, <- app_assoc. f_equal.
    replace (S m) with (m + 1)%nat by lia. rewrite repeat_app. reflexivity.
Qed.

Lemma lor_double (c b : Z) : 0 <= b <= 1 -> Z.lor (Z.shiftl c 1) b = 2 * c + b.
Proof.
  intros Hb. rewrite Z.shiftl_mul_pow2 by lia. replace (c * 2 ^ 1) with (2 * c) by lia.
  assert (b = 0 \/ b = 1) as [-> | ->] by lia.
  - rewrite Z.lor_0_r. lia.
  - apply Z.bits_inj'. intros n Hn. rewrite Z.lor_spec.
    destruct (Z.eq_dec n 0) as [->|Hn0].
    + rewrite Z.testbit_even_0, Z.testbit_odd_0. reflexivity.
    + replace n with (Z.succ (n - 1)) by lia.
      rewrite Z.testbit_even_succ, Z.testbit_odd_succ by lia.
      rewrite (Z.bits_above_log2 1) by (cbn; lia). apply orb_false_r.
Qed.

Lemma land_bit (b : Z) : 0 <= b <= 1 -> Z.land b 1 = b.
Proof. intros Hb. assert (b = 0 \/ b = 1) as [-> | ->] by lia; reflexivity. Qed.

Lemma land_one_range (v : Z) : 0 <= Z.land v 1 <= 1.
Proof.
  replace (Z.land v 1) with (v mod 2).
  - pose proof (Z.mod_pos_bound v 2). lia.
  - change 1 with (Z.ones 1). rewrite Z.land_ones by lia. reflexivity.
Qed.

Lemma write_bit_spec (w : BitMagicWriter) (b : Z) :
  writer_ok w -> 0 <= b <= 1 ->
  writer_ok (write_bit w b) /\ writer_bits (write_bit w b) = writer_bits w ++ [b]
  /\ pending_mystical_bits (write_bit w b) = pending_mystical_bits w.
Proof.
  destruct w as [sc c n p]. unfold writer_ok, writer_bits, write_bit.
  cbn [mystical_output_scroll bit_accumulation_cauldron bits_brewing_count pending_mystical_bits].
  intros [Hn Hc] Hb. rewrite land_bit, lor_double by lia.
  assert (Hp : 2 ^ (n + 1) = 2 * 2 ^ n) by (rewrite Z.pow_add_r by lia; lia).
  assert (Hp8 : 2 ^ (n + 1) <= 2 ^ 8) by (apply Z.pow_le_mono_r; lia).
  assert (Hu1 : u8_of (2 * c + b) = 2 * c + b)
    by (unfold u8_of; apply Z.mod_small; lia).
  assert (Hu2 : u8_of (n + 1) = n + 1) by (unfold u8_of; apply Z.mod_small; lia).
  rewrite Hu1, Hu2.
  assert (Hs : Z.to_nat (n + 1) = S (Z.to_nat n)) by lia.
  destruct (Z.eqb_spec (n + 1) 8) as [E|E];
    cbn [mystical_output_scroll bit_accumulation_cauldron bits_brewing_count pending_mystical_bits].
  - split; [lia|]. split; [|reflexivity].
    unfold bits_of_bytes. rewrite flat_map_app. cbn [flat_map].
    rewrite byte_val_byte_of, Hu1, app_nil_r, app_nil_r.
    replace 8%nat with (S (Z.to_nat n)) by lia.
    rewrite bits_n_double by lia. apply app_assoc.
  - split; [lia|]. split; [|reflexivity].
    rewrite Hs, bits_n_double by lia. apply app_assoc.
Qed.

Ltac writer_proj :=
  cbn [mystical_output_scroll bit_accumulation_cauldron bits_brewing_count pending_mystical_bits
       with_pending] in *.

Lemma with_pending_bits (w : BitMagicWriter) (p : Z) :
  writer_bits (with_pending w p) = writer_bits w
  /\ (writer_ok w -> writer_ok (with_pending w p))
  /\ pending_mystical_bits (with_pending w p) = p.
Proof. split; [reflexivity|split; [exact (fun H => H)|reflexivity]]. Qed.

Lemma repeat_write_spec (n : nat) :
  forall w b, writer_ok w -> 0 <= b <= 1 ->
  writer_ok (repeat_write n w b) /\ writer_bits (repeat_write n w b) = writer_bits w ++ repeat b n
  /\ pending_mystical_bits (repeat_write n w b) = pending_mystical_bits w.
Proof.
  induction n as [|n IH]; intros w b Hw Hb; cbn [repeat_write].
  - rewrite app_nil_r. auto.
  - destruct (write_bit_spec w b Hw Hb) as (Hw1 & Hb1 & Hp1).
    destruct (IH _ b Hw1 Hb) as (H1 & H2 & H3).
    split; [exact H1|]. rewrite H2, H3, Hb1, Hp1, <- app_assoc. auto.
Qed.

Lemma output_bit_spec (w : BitMagicWriter) (b : Z) :
  writer_ok w -> 0 <= b <= 1 ->
  writer_ok (output_bit w b)
  /\ writer_bits (output_bit w b)
     = writer_bits w ++ b :: repeat (1 - b) (Z.to_nat (pending_mystical_bits w))
  /\ pending_mystical_bits (output_bit w b) = 0.
Proof.
  intros Hw Hb. unfold output_bit.
  destruct (write_bit_spec w b Hw Hb) as (Hw1 & Hb1 & Hp1).
  assert (Hu : u8_of (1 - b) = 1 - b) by (unfold u8_of; apply Z.mod_small; lia).
  rewrite Hu.
  destruct (repeat_write_spec (Z.to_nat (pending_mystical_bits w)) _ (1 - b) Hw1 ltac:(lia))
    as (H1 & H2 & _).
  split; [exact H1|]. split; [|reflexivity].
  rewrite (proj1 (with_pending_bits _ _)), H2, Hb1, <- app_assoc. reflexivity.
Qed.

Lemma bit_plus_follow_spec (w : BitMagicWriter) (b : Z) :
  writer_ok w -> 0 <= b <= 1 ->
  writer_ok (bit_plus_follow w b)
  /\ writer_bits (bit_plus_follow w b)
     = writer_bits w ++ b :: repeat (1 - b) (Z.to_nat (pending_mystical_bits w))
  /\ pending_mystical_bits (bit_plus_follow w b) = 0.
Proof.
  intros Hw Hb. unfold bit_plus_follow.
  destruct (output_bit_spec w b Hw Hb) as (H1 & H2 & H3).
  rewrite H3. cbn [Z.to_nat repeat_output]. auto.
Qed.

Lemma complete_bits (w : BitMagicWriter) :
  writer_ok w -> 0 <= pending_mystical_bits w -> pending_mystical_bits w + 1 < 2 ^ 32 ->
  exists pad, bits_of_bytes (complete_compression_ritual w) = writer_bits w ++ 1 :: repeat 0 pad.
Proof.
  intros Hw Hp0 Hp1. unfold complete_compression_ritual.
  assert (Hu : u32_of (pending_mystical_bits w + 1) = pending_mystical_bits w + 1)
    by (unfold u32_of; apply Z.mod_small; lia).
  cbn [with_pending pending_mystical_bits]. rewrite Hu.
  destruct (Z.ltb_spec 0 (pending_mystical_bits w + 1)) as [_|]; [|lia].
  set (w1 := with_pending w (pending_mystical_bits w + 1)).
  assert (Hw1 : writer_ok w1) by exact Hw.
  destruct (bit_plus_follow_spec w1 1 Hw1 ltac:(lia)) as (Hw2 & Hb2 & _).
  set (w2 := bit_plus_follow w1 1) in *.
  replace (writer_bits w1) with (writer_bits w) in Hb2 by reflexivity.
  replace (1 - 1) with 0 in Hb2 by lia.
  destruct Hw2 as [Hn Hc].
  unfold writer_bits in Hb2.
  destruct (Z.ltb_spec 0 (bits_brewing_count w2)).
  - exists (Z.to_nat (pending_mystical_bits w1) + Z.to_nat (8 - bits_brewing_count w2))%nat.
    unfold bits_of_bytes. rewrite flat_map_app. fold (bits_of_bytes (mystical_output_scroll w2)).
    cbn [flat_map]. rewrite app_nil_r, byte_val_byte_of.
    assert (Hsh : Z.shiftl (bit_accumulation_cauldron w2) (8 - bits_brewing_count w2)
                  = bit_accumulation_cauldron w2 * 2 ^ Z.of_nat (Z.to_nat (8 - bits_brewing_count w2)))
      by (rewrite Z.shiftl_mul_pow2 by lia; rewrite Z2Nat.id by lia; reflexivity).
    assert (Hlt : bit_accumulation_cauldron w2 * 2 ^ (8 - bits_brewing_count w2) < 2 ^ 8).
    { replace (2 ^ 8) with (2 ^ bits_brewing_count w2 * 2 ^ (8 - bits_brewing_count w2))
        by (rewrite <- Z.pow_add_r by lia; f_equal; lia).
      apply Z.mul_lt_mono_pos_r; [apply Z.pow_pos_nonneg; lia|lia]. }
    assert (Hv : u8_of (bit_accumulation_cauldron w2 * 2 ^ Z.of_nat (Z.to_nat (8 - bits_brewing_count w2)))
                 = bit_accumulation_cauldron w2 * 2 ^ Z.of_nat (Z.to_nat (8 - bits_brewing_count w2))).
    { rewrite Z2Nat.id by lia. unfold u8_of. apply Z.mod_small. split; [|exact Hlt].
      apply Z.mul_nonneg_nonneg; [lia|apply Z.pow_nonneg; lia]. }
    rewrite Hsh, Hv.
    replace 8%nat with (Z.to_nat (8 - bits_brewing_count w2) + Z.to_nat (bits_brewing_count w2))%nat
      at 1 by lia.
    rewrite Hv, bits_n_shift, app_assoc, Hb2, repeat_app. cbn [app]. rewrite <- app_assoc. reflexivity.
  - exists (Z.to_nat (pending_mystical_bits w1)).
    replace (Z.to_nat (bits_brewing_count w2)) with 0%nat in Hb2 by lia.
    cbn [bits_n] in Hb2. rewrite app_nil_r in Hb2. exact Hb2.
Qed.


(** ** The bits read by [BitMagicReader] *)

(** Bit [k] of a stream, most significant bit of each byte first, and [0]
    past its end. *)
Definition stream_bit (scroll : list Byte.byte) (k : nat) : Z :=
  if (k <? 8 * length scroll)%nat
  then Z.land (Z.shiftr (byte_val (byte_at scroll (k / 8))) (7 - Z.of_nat (k mod 8))) 1
  else 0.

(** A reader of [scroll] whose next bit is bit [k]. *)
Definition reader_at (scroll : list Byte.byte) (k : nat) (t : Z) : BitMagicReader :=
  {| compressed_mystical_scroll := scroll;
     byte_pos := Nat.min k (8 * length scroll) / 8;
     bit_pos := Z.of_nat (Nat.min k (8 * length scroll) mod 8);
     interval_position_tracker := t |}.

Lemma stream_bit_range (scroll : list Byte.byte) (k : nat) : 0 <= stream_bit scroll k <= 1.
Proof. unfold stream_bit. destruct (k <? _)%nat; [apply land_one_range|lia]. Qed.

Lemma read_bit_at (scroll : list Byte.byte) (k : nat) (t : Z) :
  read_bit (reader_at scroll k t) = (stream_bit scroll k, reader_at scroll (S k) t).
Proof.
  unfold read_bit, reader_at, stream_bit.
  cbn [compressed_mystical_scroll byte_pos bit_pos interval_position_tracker].
  destruct (Nat.ltb_spec k (8 * length scroll)) as [Hk|Hk].
  - rewrite Nat.min_l by lia.
    destruct (Nat.leb_spec (length scroll) (k / 8)) as [Hl|Hl].
    { exfalso. pose proof (Nat.div_mod k 8). pose proof (Nat.mod_upper_bound k 8). lia. }
    assert (Hm : (k mod 8 < 8)%nat) by (apply Nat.mod_upper_bound; lia).
    unfold u8_of. rewrite Z.mod_small by lia.
    rewrite Nat.min_l by lia.
    destruct (Z.eqb_spec (Z.of_nat (k mod 8) + 1) 8) as [E|E].
    + assert (Hd : (S k / 8 = S (k / 8))%nat /\ (S k mod 8 = 0)%nat).
      { pose proof (Nat.div_mod k 8). pose proof (Nat.div_mod (S k) 8).
        pose proof (Nat.mod_upper_bound (S k) 8). lia. }
      destruct Hd as [-> ->]. reflexivity.
    + assert (Hd : (S k / 8 = k / 8)%nat /\ (S k mod 8 = S (k mod 8))%nat).
      { pose proof (Nat.div_mod k 8). pose proof (Nat.div_mod (S k) 8).
        pose proof (Nat.mod_upper_bound (S k) 8). lia. }
      destruct Hd as [-> ->]. rewrite Nat2Z.inj_succ.
      replace (Z.succ (Z.of_nat (k mod 8))) with (Z.of_nat (k mod 8) + 1) by lia. reflexivity.
  - rewrite Nat.min_r by lia. rewrite Nat.min_r by lia.
    replace (8 * length scroll / 8)%nat with (length scroll)
      by (rewrite Nat.mul_comm, Nat.div_mul; lia).
    rewrite Nat.leb_refl. reflexivity.
Qed.

Lemma nth_bits_n (n : nat) :
  forall v i, 0 <= v -> (i < n)%nat ->
  nth i (bits_n n v) 0 = (v / 2 ^ Z.of_nat (n - 1 - i)) mod 2.
Proof.
  induction n as [|n IH]; intros v i Hv Hi; [lia|]. cbn [bits_n].
  destruct (Nat.eq_dec i n) as [->|Hne].
  - rewrite app_nth2 by (rewrite length_bits_n; lia).
    rewrite length_bits_n, Nat.sub_diag. cbn [nth].
    replace (S n - 1 - n)%nat with 0%nat by lia. cbn. rewrite Z.div_1_r. reflexivity.
  - rewrite app_nth1 by (rewrite length_bits_n; lia).
    rewrite IH by (try apply Z.div_pos; lia).
    rewrite Z.div_div by (try apply Z.pow_pos_nonneg; lia).
    f_equal. f_equal. rewrite <- Z.pow_succ_r by lia. f_equal. lia.
Qed.

Lemma bit_of_byte (v : Z) (i : nat) :
  0 <= v -> (i < 8)%nat ->
  Z.land (Z.shiftr v (7 - Z.of_nat i)) 1 = nth i (bits_n 8 v) 0.
Proof.
  intros Hv Hi. rewrite nth_bits_n by lia.
  change 1 with (Z.ones 1). rewrite Z.land_ones, Z.shiftr_div_pow2 by lia.
  f_equal. f_equal. f_equal. lia.
Qed.

Lemma stream_bit_nth (scroll : list Byte.byte) :
  forall k, stream_bit scroll k = nth k (bits_of_bytes scroll) 0.
Proof.
  induction scroll as [|b scroll IH]; intros k.
  - unfold stream_bit. cbn. destruct k; reflexivity.
  - unfold bits_of_bytes. cbn [flat_map]. fold (bits_of_bytes scroll).
    pose proof (byte_val_range b) as Hb.
    destruct (Nat.ltb_spec k 8) as [Hk|Hk].
    + rewrite app_nth1 by (rewrite length_bits_n; lia).
      unfold stream_bit. cbn [length].
      destruct (Nat.ltb_spec k (8 * S (length scroll))); [|lia].
      rewrite Nat.div_small, Nat.mod_small by lia. cbn [byte_at nth].
      apply bit_of_byte; lia.
    + rewrite app_nth2 by (rewrite length_bits_n; lia). rewrite length_bits_n.
      rewrite <- IH. unfold stream_bit. cbn [length].
      destruct (Nat.ltb_spec k (8 * S (length scroll)));
        destruct (Nat.ltb_spec (k - 8) (8 * length scroll)); try lia; try reflexivity.
      assert (E1 : (k / 8 = S ((k - 8) / 8))%nat).
      { replace k with ((k - 8) + 1 * 8)%nat at 1 by lia. rewrite Nat.div_add; lia. }
      assert (E2 : (k mod 8 = (k - 8) mod 8)%nat).
      { replace k with ((k - 8) + 1 * 8)%nat at 1 by lia. apply Nat.Div0.mod_add. }
      rewrite E1, E2. reflexivity.
Qed.

(** The [n] bits [F k, ..., F (k + n - 1)] read as a number, most
    significant first. *)
Fixpoint win (F : nat -> Z) (k : nat) (n : nat) : Z :=
  match n with
  | O => 0
  | S n' => 2 * win F k n' + F (k + n')%nat
  end.

Lemma win_front (F : nat -> Z) (n : nat) :
  forall k, win F k (S n) = F k * 2 ^ Z.of_nat n + win F (S k) n.
Proof.
  induction n as [|n IH]; intros k.
  - cbn. rewrite Nat.add_0_r. lia.
  - change (win F k (S (S n))) with (2 * win F k (S n) + F (k + S n)%nat).
    rewrite IH. cbn [win]. replace (k + S n)%nat with (S k + n)%nat by lia.
    rewrite Nat2Z.inj_succ, Z.pow_succ_r by lia. lia.
Qed.

Lemma win_bound (F : nat -> Z) (k n : nat) :
  (forall i, 0 <= F i <= 1) -> 0 <= win F k n < 2 ^ Z.of_nat n.
Proof.
  intros HF. induction n as [|n IH]; cbn [win]; [cbn; lia|].
  specialize (HF (k + n)%nat). rewrite Nat2Z.inj_succ, Z.pow_succ_r by lia. lia.
Qed.

Lemma win_zero (F : nat -> Z) (k n : nat) :
  (forall i, (k <= i)%nat -> F i = 0) -> win F k n = 0.
Proof.
  intros HF. induction n as [|n IH]; cbn [win]; [reflexivity|].
  rewrite IH, HF by lia. reflexivity.
Qed.

Lemma set_tracker_at (scroll : list Byte.byte) (k : nat) (t t' : Z) :
  set_tracker (reader_at scroll k t) t' = reader_at scroll k t'.
Proof. reflexivity. Qed.

Lemma prime_tracker_at (scroll : list Byte.byte) (k : nat) (n : nat) :
  forall j, (j + n <= 24)%nat ->
  prime_tracker n (reader_at scroll (k + j) (win (stream_bit scroll) k j))
  = reader_at scroll (k + j + n) (win (stream_bit scroll) k (j + n)).
Proof.
  induction n as [|n IH]; intros j Hj; cbn [prime_tracker].
  - rewrite !Nat.add_0_r. reflexivity.
  - rewrite read_bit_at. cbn [interval_position_tracker reader_at].
    pose proof (win_bound (stream_bit scroll) k j (stream_bit_range scroll)) as Hw.
    assert (H2 : 2 ^ Z.of_nat j <= 2 ^ 23) by (apply Z.pow_le_mono_r; lia).
    rewrite lor_double by apply stream_bit_range.
    assert (Hu : u32_of (2 * win (stream_bit scroll) k j + stream_bit scroll (k + j))
                 = win (stream_bit scroll) k (S j)).
    { cbn [win]. unfold u32_of. apply Z.mod_small.
      pose proof (stream_bit_range scroll (k + j)). lia. }
    rewrite Hu, set_tracker_at. replace (S (k + j)) with (k + S j)%nat by lia.
    rewrite IH by lia. f_equal; [lia|f_equal; lia].
Qed.

Lemma conjure_at (scroll : list Byte.byte) :
  conjure_from_scroll scroll = reader_at scroll 24 (win (stream_bit scroll) 0 24).
Proof.
  unfold conjure_from_scroll.
  change {| compressed_mystical_scroll := scroll; byte_pos := 0; bit_pos := 0;
            interval_position_tracker := 0 |}
    with (reader_at scroll (0 + 0) (win (stream_bit scroll) 0 0)).
  rewrite prime_tracker_at by lia. reflexivity.
Qed.


(** ** The code window *)

(** The 24-bit window the decoder holds when the encoder has written the
    bits [0 .. e - 1] and has [p] pending bits, [F] being the bits of the
    final stream: bit [e], then the 23 bits after the pending ones. *)
Definition code_window (F : nat -> Z) (e p : nat) : Z :=
  F e * 2 ^ 23 + win F (e + p + 1) 23.

Lemma win_succ (F : nat -> Z) (k n : nat) : win F k (S n) = 2 * win F k n + F (k + n)%nat.
Proof. reflexivity. Qed.

Lemma window_E1 (F : nat -> Z) (e p : nat) :
  F e = 0 -> code_window F (e + p + 1) 0 = 2 * code_window F e p + F (e + p + 24)%nat.
Proof.
  intros H0. unfold code_window. rewrite H0.
  replace (e + p + 1 + 0 + 1)%nat with (S (e + p + 1)) by lia.
  change (2 ^ 23) with (2 ^ Z.of_nat 23).
  rewrite <- win_front.
  rewrite (win_succ F (e + p + 1) 23).
  replace (e + p + 1 + 23)%nat with (e + p + 24)%nat by lia.
  lia.
Qed.

Lemma window_E2 (F : nat -> Z) (e p : nat) :
  F e = 1 -> code_window F (e + p + 1) 0
             = 2 * (code_window F e p - HALF) + F (e + p + 24)%nat.
Proof.
  intros H1. unfold code_window. rewrite H1.
  replace (e + p + 1 + 0 + 1)%nat with (S (e + p + 1)) by lia.
  change (2 ^ 23) with (2 ^ Z.of_nat 23).
  rewrite <- win_front.
  rewrite (win_succ F (e + p + 1) 23).
  replace (e + p + 1 + 23)%nat with (e + p + 24)%nat by lia.
  change HALF with 8388608. change (2 ^ Z.of_nat 23) with 8388608. lia.
Qed.

Lemma window_E3 (F : nat -> Z) (e p : nat) :
  0 <= F e <= 1 -> F (e + p + 1)%nat = 1 - F e ->
  code_window F e (p + 1) = 2 * (code_window F e p - FIRST_QTR) + F (e + p + 24)%nat.
Proof.
  intros HF Hn. unfold code_window.
  rewrite (win_front F 22 (e + p + 1)), Hn.
  rewrite (win_succ F (e + (p + 1) + 1) 22).
  replace (e + (p + 1) + 1)%nat with (S (e + p + 1)) by lia.
  replace (S (e + p + 1) + 22)%nat with (e + p + 24)%nat by lia.
  change FIRST_QTR with 4194304. change (2 ^ Z.of_nat 22) with 4194304.
  change (2 ^ 23) with 8388608. lia.
Qed.

Lemma code_window_bound (F : nat -> Z) (e p : nat) :
  (forall i, 0 <= F i <= 1) -> 0 <= code_window F e p < 2 ^ 24.
Proof.
  intros HF. unfold code_window. pose proof (win_bound F (e + p + 1) 23 HF).
  specialize (HF e). change (2 ^ Z.of_nat 23) with (2 ^ 23) in H. lia.
Qed.

(** What the encoder has decided about the final bits [F]: the bits
    written so far, the pending bits (the opposite of the next one) and an
    interval containing the window. *)
Definition future_ok (F : nat -> Z) (bits : list Z) (p : nat) (low high : Z) : Prop :=
  (forall i, (i < length bits)%nat -> F i = nth i bits 0)
  /\ (forall j, (1 <= j <= p)%nat -> F (length bits + j)%nat = 1 - F (length bits))
  /\ low <= code_window F (length bits) p <= high.

Definition enc_bits (s : EncState) : list Z := writer_bits (enc_writer s).
Definition enc_pend (s : EncState) : nat := Z.to_nat (pending_mystical_bits (enc_writer s)).

Definition enc_future (F : nat -> Z) (s : EncState) : Prop :=
  future_ok F (enc_bits s) (enc_pend s) (enc_low s) (enc_high s).

(** The decoder state [d] mirrors the encoder state [s] on the stream
    [scroll]. *)
Definition mirrors (scroll : list Byte.byte) (s : EncState) (d : DecState) : Prop :=
  dec_low d = enc_low s /\ dec_high d = enc_high s
  /\ dec_reader d = reader_at scroll (length (enc_bits s) + enc_pend s + 24)
                      (code_window (stream_bit scroll) (length (enc_bits s)) (enc_pend s)).

Lemma nth_repeat_lt {A : Type} (a d : A) (n i : nat) : (i < n)%nat -> nth i (repeat a n) d = a.
Proof.
  intros Hi. rewrite (nth_indep _ d a) by (rewrite repeat_length; exact Hi). apply nth_repeat.
Qed.

(** The encoder's writer and counters, well formed. *)
Definition enc_ok (s : EncState) : Prop :=
  writer_ok (enc_writer s) /\ 0 <= pending_mystical_bits (enc_writer s)
  /\ interval_ok (enc_low s) (enc_high s).

(** The three renormalisation steps of the encoder, with [c] the offset
    subtracted ([0], [HALF] or [FIRST_QTR]). *)
Inductive enc_step_kind (s s' : EncState) : Prop :=
| step_E1 :
    enc_high s < HALF ->
    enc_bits s' = enc_bits s ++ 0 :: repeat 1 (enc_pend s) -> enc_pend s' = 0%nat ->
    enc_low s' = 2 * enc_low s -> enc_high s' = 2 * enc_high s + 1 ->
    enc_step_kind s s'
| step_E2 :
    HALF <= enc_low s ->
    enc_bits s' = enc_bits s ++ 1 :: repeat 0 (enc_pend s) -> enc_pend s' = 0%nat ->
    enc_low s' = 2 * (enc_low s - HALF) -> enc_high s' = 2 * (enc_high s - HALF) + 1 ->
    enc_step_kind s s'
| step_E3 :
    HALF <= enc_high s -> enc_low s < HALF ->
    FIRST_QTR <= enc_low s -> enc_high s < THIRD_QTR ->
    enc_bits s' = enc_bits s -> enc_pend s' = S (enc_pend s) ->
    enc_low s' = 2 * (enc_low s - FIRST_QTR) -> enc_high s' = 2 * (enc_high s - FIRST_QTR) + 1 ->
    enc_step_kind s s'.

Lemma running_inj {S : Type} (a b : S) : Running a = Running b -> a = b.
Proof. intros E. injection E. auto. Qed.

Lemma enc_step_spec (s s' : EncState) :
  enc_ok s -> pending_mystical_bits (enc_writer s) + 1 < 2 ^ 32 ->
  enc_normalize_body s = Running s' ->
  enc_step_kind s s' /\ writer_ok (enc_writer s')
  /\ 0 <= pending_mystical_bits (enc_writer s') <= pending_mystical_bits (enc_writer s) + 1.
Proof.
  destruct s as [w low high]. intros (Hw & Hp & Hi) Hp1.
  unfold enc_normalize_body, enc_bits, enc_pend, interval_ok in *.
  cbn [enc_writer enc_low enc_high] in *. coder_constants.
  destruct (Z.ltb_spec high 8388608).
  { intros E. apply running_inj in E. subst s'.
    destruct (bit_plus_follow_spec w 0 Hw ltac:(lia)) as (H1 & H2 & H3).
    cbn [enc_writer enc_low enc_high]. rewrite H3. split; [|split; [exact H1|lia]].
    unfold u32_of. rewrite !Z.mod_small by lia.
    apply step_E1; unfold enc_bits, enc_pend; cbn [enc_writer enc_low enc_high];
      coder_constants; rewrite ?H2, ?H3; try reflexivity; lia. }
  destruct (Z.leb_spec 8388608 low).
  { intros E. apply running_inj in E. subst s'.
    destruct (bit_plus_follow_spec w 1 Hw ltac:(lia)) as (H1 & H2 & H3).
    cbn [enc_writer enc_low enc_high]. rewrite H3. split; [|split; [exact H1|lia]].
    unfold u32_of. rewrite !Z.mod_small by lia.
    apply step_E2; unfold enc_bits, enc_pend; cbn [enc_writer enc_low enc_high];
      coder_constants; rewrite ?H2, ?H3; try reflexivity; lia. }
  destruct (Z.leb_spec 4194304 low); cbn [andb]; [|discriminate].
  destruct (Z.ltb_spec high 12582912); [|discriminate].
  intros E. apply running_inj in E. subst s'.
  assert (Hu : u32_of (pending_mystical_bits w + 1) = pending_mystical_bits w + 1)
    by (unfold u32_of; apply Z.mod_small; lia).
  cbn [enc_writer enc_low enc_high with_pending pending_mystical_bits]. rewrite Hu.
  split; [|split; [exact Hw|lia]].
  unfold u32_of. rewrite !Z.mod_small by lia.
  apply step_E3; unfold enc_bits, enc_pend;
    cbn [enc_writer enc_low enc_high with_pending pending_mystical_bits];
    coder_constants; rewrite ?Hu; try reflexivity; try lia.
  all: rewrite Z2Nat.inj_add by lia; change (Z.to_nat 1) with 1%nat; lia.
Qed.

Lemma prefix_app (F : nat -> Z) (bits : list Z) (b c : Z) (p : nat) :
  (forall i, (i < length (bits ++ b :: repeat c p))%nat ->
             F i = nth i (bits ++ b :: repeat c p) 0) ->
  (forall i, (i < length bits)%nat -> F i = nth i bits 0)
  /\ F (length bits) = b
  /\ (forall j, (1 <= j <= p)%nat -> F (length bits + j)%nat = c).
Proof.
  intros H. rewrite length_app in H. cbn [length] in H. rewrite repeat_length in H.
  split; [|split].
  - intros i Hi. rewrite H by lia. apply app_nth1. exact Hi.
  - rewrite H by lia. rewrite app_nth2, Nat.sub_diag by lia. reflexivity.
  - intros j Hj. rewrite H by lia. rewrite app_nth2 by lia.
    replace (length bits + j - length bits)%nat with (S (j - 1)) by lia.
    cbn [nth]. apply nth_repeat_lt. lia.
Qed.

Section Stream.

Variable F : nat -> Z.
Hypothesis F_bit : forall i, 0 <= F i <= 1.

(** A renormalisation step of the encoder keeps what is decided about
    the final bits, read backwards. *)
Lemma enc_step_back (s s' : EncState) :
  enc_step_kind s s' -> enc_future F s' -> enc_future F s.
Proof.
  unfold enc_future, future_ok.
  intros [Hh Hb Hp Hl Hhi | Hh Hb Hp Hl Hhi | Hx Hy Hq Hh Hb Hp Hl Hhi];
    rewrite Hb, Hp, Hl, Hhi; intros (Hpre & Hpend & Hwin).
  - destruct (prefix_app F _ _ _ _ Hpre) as (H1 & H2 & H3).
    rewrite length_app in Hwin. cbn [length] in Hwin. rewrite repeat_length in Hwin.
    replace (length (enc_bits s) + S (enc_pend s))%nat
      with (length (enc_bits s) + enc_pend s + 1)%nat in Hwin by lia.
    rewrite window_E1 in Hwin by exact H2.
    pose proof (F_bit (length (enc_bits s) + enc_pend s + 24)).
    split; [exact H1|split; [|lia]].
    intros j Hj. rewrite H3, H2 by exact Hj. reflexivity.
  - destruct (prefix_app F _ _ _ _ Hpre) as (H1 & H2 & H3).
    rewrite length_app in Hwin. cbn [length] in Hwin. rewrite repeat_length in Hwin.
    replace (length (enc_bits s) + S (enc_pend s))%nat
      with (length (enc_bits s) + enc_pend s + 1)%nat in Hwin by lia.
    rewrite window_E2 in Hwin by exact H2.
    pose proof (F_bit (length (enc_bits s) + enc_pend s + 24)).
    split; [exact H1|split; [|lia]].
    intros j Hj. rewrite H3, H2 by exact Hj. reflexivity.
  - assert (Hn : F (length (enc_bits s) + enc_pend s + 1)%nat = 1 - F (length (enc_bits s))).
    { replace (length (enc_bits s) + enc_pend s + 1)%nat
        with (length (enc_bits s) + S (enc_pend s))%nat by lia.
      apply Hpend. lia. }
    replace (S (enc_pend s)) with (enc_pend s + 1)%nat in Hwin by lia.
    rewrite window_E3 in Hwin by (apply F_bit || exact Hn).
    pose proof (F_bit (length (enc_bits s) + enc_pend s + 24)).
    split; [exact Hpre|split; [|lia]].
    intros j Hj. apply Hpend. lia.
Qed.

End Stream.

Lemma tracker_at (scroll : list Byte.byte) (k : nat) (t : Z) :
  interval_position_tracker (reader_at scroll k t) = t.
Proof. reflexivity. Qed.


(** The decoder's renormalisation step follows the encoder's. *)
Lemma dec_step_mirror (scroll : list Byte.byte) (s s' : EncState) (d : DecState) :
  mirrors scroll s d -> enc_ok s ->
  enc_normalize_body s = Running s' -> enc_step_kind s s' ->
  enc_future (stream_bit scroll) s -> enc_future (stream_bit scroll) s' ->
  exists d', dec_normalize_body d = Running d' /\ mirrors scroll s' d'.
Proof.
  set (F := stream_bit scroll).
  intros (Hl & Hh & Hr) (Hw & Hp & Hi) E K Hf Hf'.
  assert (HW := code_window_bound F (length (enc_bits s)) (enc_pend s) (stream_bit_range scroll)).
  destruct Hf as (_ & _ & Hwin).
  set (W := code_window F (length (enc_bits s)) (enc_pend s)) in *.
  destruct d as [r dl dh]; cbn [dec_low dec_high dec_reader] in Hl, Hh, Hr; subst dl dh r.
  unfold enc_normalize_body, dec_normalize_body in *.
  cbn [dec_low dec_high dec_reader] in *.
  destruct K as [Hq Hb Hpn Hl' Hh' | Hq Hb Hpn Hl' Hh' | Hx Hy Hq Hq' Hb Hpn Hl' Hh'].
  - rewrite (proj2 (Z.ltb_lt _ _) Hq) in E |- *.
    apply running_inj in E. subst s'.
    rewrite read_bit_at. cbv beta iota.
    eexists; split; [reflexivity|].
    unfold mirrors in *. cbn [dec_low dec_high dec_reader enc_low enc_high] in *.
    split; [reflexivity|split; [reflexivity|]].
    rewrite set_tracker_at, tracker_at, Hb, Hpn.
    destruct Hf' as (Hpre & _ & _). rewrite Hb in Hpre.
    destruct (prefix_app F _ _ _ _ Hpre) as (_ & H0 & _).
    rewrite length_app. cbn [length]. rewrite repeat_length.
    replace (length (enc_bits s) + S (enc_pend s))%nat
      with (length (enc_bits s) + enc_pend s + 1)%nat by lia.
    fold F. rewrite window_E1 by exact H0. fold W.
    assert (0 <= F (length (enc_bits s) + enc_pend s + 24)%nat <= 1) by apply stream_bit_range.
    unfold u32_of. rewrite Z.mod_small by lia.
    f_equal; lia.
  - assert (Hn : (enc_high s <? HALF) = false)
      by (apply Z.ltb_ge; unfold interval_ok in Hi; lia).
    rewrite Hn, (proj2 (Z.leb_le _ _) Hq) in E |- *.
    apply running_inj in E. subst s'.
    rewrite set_tracker_at, read_bit_at. cbv beta iota.
    eexists; split; [reflexivity|].
    unfold mirrors in *. cbn [dec_low dec_high dec_reader enc_low enc_high] in *.
    split; [reflexivity|split; [reflexivity|]].
    rewrite set_tracker_at, tracker_at, Hb, Hpn.
    destruct Hf' as (Hpre & _ & _). rewrite Hb in Hpre.
    destruct (prefix_app F _ _ _ _ Hpre) as (_ & H0 & _).
    rewrite length_app. cbn [length]. rewrite repeat_length.
    replace (length (enc_bits s) + S (enc_pend s))%nat
      with (length (enc_bits s) + enc_pend s + 1)%nat by lia.
    fold F. rewrite window_E2 by exact H0. fold W.
    assert (0 <= F (length (enc_bits s) + enc_pend s + 24)%nat <= 1) by apply stream_bit_range.
    change HALF with 8388608 in *.
    assert (Hu : u32_of (W - 8388608) = W - 8388608) by (unfold u32_of; apply Z.mod_small; lia).
    rewrite ?tracker_at, Hu. unfold u32_of. rewrite Z.mod_small by lia.
    f_equal; lia.
  - assert (Hn : (enc_high s <? HALF) = false) by (apply Z.ltb_ge; exact Hx).
    assert (Hn' : (HALF <=? enc_low s) = false) by (apply Z.leb_gt; exact Hy).
    rewrite Hn, Hn', (proj2 (Z.leb_le _ _) Hq), (proj2 (Z.ltb_lt _ _) Hq') in E |- *.
    cbv beta iota in E |- *.
    apply running_inj in E. subst s'.
    rewrite set_tracker_at, read_bit_at. cbv beta iota.
    eexists; split; [reflexivity|].
    unfold mirrors in *. cbn [dec_low dec_high dec_reader enc_low enc_high] in *.
    split; [reflexivity|split; [reflexivity|]].
    rewrite set_tracker_at, tracker_at, Hb, Hpn.
    destruct Hf' as (_ & Hpend & _). rewrite Hb, Hpn in Hpend.
    assert (Hnx : F (length (enc_bits s) + enc_pend s + 1)%nat = 1 - F (length (enc_bits s))).
    { replace (length (enc_bits s) + enc_pend s + 1)%nat
        with (length (enc_bits s) + S (enc_pend s))%nat by lia.
      apply Hpend. lia. }
    replace (S (enc_pend s)) with (enc_pend s + 1)%nat by lia.
    fold F. rewrite window_E3 by (apply stream_bit_range || exact Hnx). fold W.
    assert (0 <= F (length (enc_bits s) + enc_pend s + 24)%nat <= 1) by apply stream_bit_range.
    change FIRST_QTR with 4194304 in *.
    assert (Hu : u32_of (W - 4194304) = W - 4194304) by (unfold u32_of; apply Z.mod_small; lia).
    rewrite ?tracker_at, Hu. unfold u32_of. rewrite Z.mod_small by lia.
    f_equal; lia.
Qed.

(** When the encoder's loop stops, so does the decoder's, on the same
    interval. *)
Lemma dec_finish_mirror (scroll : list Byte.byte) (s s' : EncState) (d : DecState) :
  mirrors scroll s d -> enc_normalize_body s = Finished s' ->
  s' = s /\ dec_normalize_body d = Finished d.
Proof.
  intros (Hl & Hh & _) E. pose proof (enc_body_interval s) as He. rewrite E in He.
  destruct He as [-> Hn]. split; [reflexivity|].
  pose proof (dec_body_interval d) as Hd. rewrite Hl, Hh, Hn in Hd.
  destruct (dec_normalize_body d) as [d'|d']; [destruct Hd as [-> _]; reflexivity|discriminate].
Qed.

(** ** Loops run by [loop_pow] *)

Section LoopPow.

Context {S T : Type} (body : S -> LoopResult S) (body' : T -> LoopResult T).
Variable P : S -> Prop.
Variable G : S -> Prop.
Variable M : S -> T -> Prop.

Hypothesis step_inv : forall s s', P s -> body s = Running s' -> P s'.
Hypothesis stop_inv : forall s s', P s -> body s = Finished s' -> P s'.
Hypothesis step_back : forall s s', P s -> body s = Running s' -> G s' -> G s.
Hypothesis stop_back : forall s s', P s -> body s = Finished s' -> G s' -> G s.
Hypothesis step_sim : forall s s' d, P s -> M s d -> body s = Running s' -> G s -> G s' ->
  exists d', body' d = Running d' /\ M s' d'.
Hypothesis stop_sim : forall s s' d, P s -> M s d -> body s = Finished s' -> G s' ->
  exists d', body' d = Finished d' /\ M s' d'.

Lemma loop_pow_inv (k : nat) :
  forall s, P s ->
  match loop_pow body k s with Finished s1 | Running s1 => P s1 end.
Proof.
  induction k as [|k IH]; intros s Hs; cbn [loop_pow].
  - destruct (body s) as [s1|s1] eqn:E; eauto.
  - pose proof (IH s Hs) as H1. destruct (loop_pow body k s) as [s1|s1]; [exact H1|].
    exact (IH s1 H1).
Qed.

Lemma loop_pow_back (k : nat) :
  forall s, P s ->
  match loop_pow body k s with Finished s1 | Running s1 => G s1 -> G s end.
Proof.
  induction k as [|k IH]; intros s Hs; cbn [loop_pow].
  - destruct (body s) as [s1|s1] eqn:E; eauto.
  - pose proof (loop_pow_inv k s Hs) as Hi. pose proof (IH s Hs) as Hb.
    destruct (loop_pow body k s) as [s1|s1]; [exact Hb|].
    pose proof (IH s1 Hi) as Hb1.
    destruct (loop_pow body k s1); intros Hg; exact (Hb (Hb1 Hg)).
Qed.

Lemma loop_pow_sim (k : nat) :
  forall s d, P s -> M s d ->
  match loop_pow body k s with
  | Finished s1 => G s1 -> exists d1, loop_pow body' k d = Finished d1 /\ M s1 d1
  | Running s1 => G s1 -> exists d1, loop_pow body' k d = Running d1 /\ M s1 d1
  end.
Proof.
  induction k as [|k IH]; intros s d Hs Hm; cbn [loop_pow].
  - destruct (body s) as [s1|s1] eqn:E; intros Hg.
    + exact (stop_sim s s1 d Hs Hm E Hg).
    + exact (step_sim s s1 d Hs Hm E (step_back s s1 Hs E Hg) Hg).
  - pose proof (loop_pow_inv k s Hs) as Hi. pose proof (IH s d Hs Hm) as Hsim.
    destruct (loop_pow body k s) as [s1|s1] eqn:E.
    + intros Hg. destruct (Hsim Hg) as (d1 & -> & Hm1). exists d1. auto.
    + pose proof (loop_pow_back k s1 Hi) as Hb1.
      destruct (loop_pow body k s1) as [s2|s2] eqn:E2; intros Hg;
        destruct (Hsim (Hb1 Hg)) as (d1 & -> & Hm1);
        pose proof (IH s1 d1 Hi Hm1) as H2; rewrite E2 in H2; exact (H2 Hg).
Qed.

End LoopPow.

(** A loop whose body, while running, lowers a measure [mu >= 0] by at
    least one stops within [2^k] iterations when [mu < 2^k]. *)
Lemma loop_pow_measure {S : Type} (body : S -> LoopResult S) (P : S -> Prop) (mu : S -> Z) :
  (forall s s', P s -> body s = Running s' -> P s' /\ mu s' + 1 <= mu s) ->
  (forall s, P s -> 0 <= mu s) ->
  forall k s, P s ->
  match loop_pow body k s with
  | Finished _ => True
  | Running s1 => P s1 /\ mu s1 + 2 ^ Z.of_nat k <= mu s
  end.
Proof.
  intros Hstep Hpos. induction k as [|k IH]; intros s Hs; cbn [loop_pow].
  - destruct (body s) as [s1|s1] eqn:E; [exact I|]. cbn. apply (Hstep s s1 Hs E).
  - pose proof (IH s Hs) as H1. destruct (loop_pow body k s) as [s1|s1]; [exact I|].
    destruct H1 as [Hs1 H1]. pose proof (IH s1 Hs1) as H2.
    destruct (loop_pow body k s1) as [s2|s2]; [exact I|].
    destruct H2 as [Hs2 H2]. split; [exact Hs2|].
    rewrite Nat2Z.inj_succ, Z.pow_succ_r by lia. lia.
Qed.


(** ** The encoder's [normalize] loop *)

(** Inside the loop started with [p0] pending bits: every step doubles
    the width, and adds at most one pending bit. *)
Definition enc_loop_inv (p0 : Z) (s : EncState) : Prop :=
  enc_ok s /\ exists j, 0 <= j /\ pending_mystical_bits (enc_writer s) <= p0 + j
                    /\ 2 ^ j <= enc_high s - enc_low s + 1.

Lemma pow_le_24 (j : Z) : 0 <= j -> 2 ^ j <= 2 ^ 24 -> j <= 24.
Proof.
  intros Hj H. destruct (Z.le_gt_cases j 24) as [|Hg]; [assumption|].
  assert (2 ^ 25 <= 2 ^ j) by (apply Z.pow_le_mono_r; lia). lia.
Qed.

Lemma enc_loop_step (p0 : Z) (s s' : EncState) :
  0 <= p0 -> p0 + 25 < 2 ^ 32 ->
  enc_loop_inv p0 s -> enc_normalize_body s = Running s' ->
  enc_loop_inv p0 s' /\ enc_step_kind s s'.
Proof.
  intros Hp0 Hp32 (Hok & j & Hj0 & Hpj & HR) E.
  pose proof Hok as (Hw & Hp & Hi).
  assert (Hj : j <= 24).
  { apply pow_le_24; [exact Hj0|]. unfold interval_ok in Hi. coder_constants. lia. }
  destruct (enc_step_spec s s' Hok ltac:(lia) E) as (K & Hw' & Hp').
  pose proof (enc_body_interval s) as Hb. rewrite E in Hb.
  destruct (norm_step_ok _ _ _ _ Hi Hb) as [Hi' HR'].
  split; [|exact K].
  split; [split; [exact Hw'|split; [lia|exact Hi']]|].
  exists (j + 1). split; [lia|]. split; [lia|].
  rewrite Z.pow_add_r by lia. lia.
Qed.

Lemma enc_loop_stop (s s' : EncState) : enc_normalize_body s = Finished s' -> s' = s.
Proof.
  intros E. pose proof (enc_body_interval s) as Hb. rewrite E in Hb. exact (proj1 Hb).
Qed.

Lemma enc_loop_settled (s s' : EncState) :
  interval_ok (enc_low s) (enc_high s) ->
  enc_normalize_body s = Finished s' -> interval_settled (enc_low s') (enc_high s').
Proof.
  intros Hi E. pose proof (enc_body_interval s) as Hb. rewrite E in Hb.
  destruct Hb as [-> Hn]. exact (norm_step_settled _ _ Hi Hn).
Qed.

(** The last state of a loop that stopped. *)
Lemma loop_pow_finished {S : Type} (body : S -> LoopResult S) (P Q : S -> Prop) :
  (forall s s', P s -> body s = Running s' -> P s') ->
  (forall s s', P s -> body s = Finished s' -> P s') ->
  (forall s s', P s -> body s = Finished s' -> Q s') ->
  forall k s s1, P s -> loop_pow body k s = Finished s1 -> Q s1.
Proof.
  intros Hstep Hstop Hq. induction k as [|k IH]; intros s s1 Hs; cbn [loop_pow]; [eauto|].
  pose proof (loop_pow_inv body P Hstep Hstop k s Hs) as Hi.
  destruct (loop_pow body k s) as [s2|s2] eqn:E.
  - intros H; injection H as <-. exact (IH s s2 Hs E).
  - exact (IH s2 s1 Hi).
Qed.

Definition enc_measure (s : EncState) : Z := 2 ^ 25 - (enc_high s - enc_low s + 1).

(** The loop stops, within [2^64] iterations, in a settled interval. *)
Lemma enc_loop_runs (p0 : Z) (s : EncState) :
  0 <= p0 -> p0 + 25 < 2 ^ 32 -> enc_loop_inv p0 s ->
  exists s', loop_pow enc_normalize_body 64 s = Finished s'
  /\ enc_loop_inv p0 s' /\ interval_settled (enc_low s') (enc_high s').
Proof.
  intros Hp0 Hp32 Hs.
  assert (Hstep : forall s s', enc_loop_inv p0 s -> enc_normalize_body s = Running s' ->
                  enc_loop_inv p0 s') by (intros; eapply enc_loop_step; eauto).
  assert (Hstop : forall s s', enc_loop_inv p0 s -> enc_normalize_body s = Finished s' ->
                  enc_loop_inv p0 s') by (intros a a' Ha E; rewrite (enc_loop_stop _ _ E); exact Ha).
  pose proof (loop_pow_measure enc_normalize_body (enc_loop_inv p0) enc_measure) as Hm.
  assert (Hpos : forall s, enc_loop_inv p0 s -> 0 <= enc_measure s).
  { intros a (( _ & _ & Hi) & _). unfold enc_measure, interval_ok in *. coder_constants. lia. }
  specialize (Hm ltac:(intros a a' Ha E; split; [eauto|];
                       destruct Ha as ((_ & _ & Hi) & _);
                       pose proof (enc_body_interval a) as Hb; rewrite E in Hb;
                       destruct (norm_step_ok _ _ _ _ Hi Hb) as [_ HR];
                       unfold enc_measure, interval_ok in *; lia) Hpos 64%nat s Hs).
  pose proof (Hpos s Hs) as H0.
  destruct (loop_pow enc_normalize_body 64 s) as [s'|s'] eqn:E.
  - exists s'. split; [reflexivity|]. split.
    + exact (loop_pow_finished _ _ _ Hstep Hstop (fun a a' Ha E => Hstop a a' Ha E) 64 s s' Hs E).
    + apply (loop_pow_finished _ (enc_loop_inv p0) _ Hstep Hstop
               (fun a a' Ha E => enc_loop_settled a a' (proj2 (proj2 (proj1 Ha))) E) 64 s s' Hs E).
  - exfalso. destruct Hm as [Hs' Hm]. pose proof (Hpos s' Hs').
    unfold enc_measure in *. destruct Hs as ((_ & _ & Hi) & _). unfold interval_ok in Hi.
    change (2 ^ Z.of_nat 64) with (2 ^ 64) in Hm. lia.
Qed.


(** ** Locating the symbol *)

(** A window inside the part [[cs, cs + c)] of a settled interval gives a
    target in [[cs, cs + c)]. *)
Lemma decode_target_in (r : BitMagicReader) (low high cs c T : Z) :
  interval_settled low high -> 0 <= cs -> 1 <= c -> cs + c <= T -> T <= 2 ^ 22 ->
  low + (high - low + 1) * cs / T <= interval_position_tracker r
  <= low + (high - low + 1) * (cs + c) / T - 1 ->
  exists t, decode_mystical_target r T low high = Some t /\ cs <= t < cs + c.
Proof.
  unfold interval_settled. coder_constants. intros Hs Hcs Hc HcT HT Hw.
  set (W := interval_position_tracker r) in *. set (R := high - low + 1) in *.
  assert (HR : 2 ^ 22 < R <= 2 ^ 24) by (unfold R; lia).
  assert (Hq1 : R * cs < (R * cs / T + 1) * T).
  { pose proof (Z.mul_succ_div_gt (R * cs) T ltac:(lia)). lia. }
  assert (Hq2 : R * (cs + c) / T * T <= R * (cs + c)).
  { rewrite Z.mul_comm. apply Z.mul_div_le. lia. }
  assert (Hd : 0 <= R * cs / T) by (apply Z.div_pos; nia).
  assert (Hd2 : R * (cs + c) / T <= R) by (apply Z.div_le_upper_bound; nia).
  set (D := W - low) in *.
  assert (HD : 0 <= D < R) by (unfold D; lia).
  unfold decode_mystical_target. fold W. unfold u64_of.
  rewrite (Z.mod_small (high - low)) by lia.
  rewrite (Z.mod_small (high - low + 1)) by lia. fold R.
  replace (R =? 0) with false by (symmetry; apply Z.eqb_neq; lia).
  rewrite (Z.mod_small (W - low)) by lia. fold D.
  rewrite (Z.mod_small (D + 1)) by lia.
  rewrite (Z.mod_small ((D + 1) * T)) by nia.
  rewrite (Z.mod_small ((D + 1) * T - 1)) by nia.
  assert (Ht1 : cs <= ((D + 1) * T - 1) / R).
  { apply Z.div_le_lower_bound; [lia|]. nia. }
  assert (Ht2 : ((D + 1) * T - 1) / R < cs + c).
  { apply Z.div_lt_upper_bound; [lia|]. nia. }
  unfold u32_of. rewrite Z.mod_small by lia.
  eexists; split; [reflexivity|lia].
Qed.

Lemma find_entry_cons {A : Type} (p : A -> bool) (x : A) (l : list A) :
  find_entry p (x :: l) = if p x then Some x else find_entry p l.
Proof.
  unfold find_entry. cbn. destruct (p x); [reflexivity|].
  destruct (find_with_probes p l). reflexivity.
Qed.

(** In a cumulative table, the entry whose range holds [t] is the one
    the decoder's scan finds. *)
Lemma table_find_range (es : list (Z * Z * Z)) :
  forall c total e t, table_from c es total -> 0 <= c -> total < 2 ^ 32 ->
  In e es -> entry_start e <= t < entry_start e + entry_count e ->
  find_entry (range_contains t) es = Some e.
Proof.
  induction es as [|e0 es IH]; intros c total e t Ht Hc HT Hin Hr; [destruct Hin|].
  destruct Ht as (Hs & Hn & Ht). pose proof (table_from_le _ _ _ Ht) as Hle.
  rewrite find_entry_cons.
  assert (He0 : range_contains t e0 = (c <=? t) && (t <? c + entry_count e0)).
  { unfold range_contains, u32_of, u64_of.
    rewrite (Z.mod_small (entry_start e0 + entry_count e0)) by lia.
    rewrite !Z.mod_small by lia. rewrite Hs. reflexivity. }
  rewrite He0. destruct Hin as [<-|Hin].
  - replace ((c <=? t) && (t <? c + entry_count e0)) with true; [reflexivity|].
    symmetry. apply andb_true_intro. split; [apply Z.leb_le|apply Z.ltb_lt]; lia.
  - destruct (table_from_entry _ _ _ _ Ht Hin) as (H1 & _ & _).
    replace ((c <=? t) && (t <? c + entry_count e0)) with false.
    + exact (IH _ _ _ _ Ht ltac:(lia) HT Hin Hr).
    + symmetry. apply andb_false_intro2. apply Z.ltb_ge. lia.
Qed.


Lemma enc_narrow_fields (s : EncState) (a b c : Z) :
  enc_writer (enc_narrow s a b c) = enc_writer s
  /\ (enc_low (enc_narrow s a b c), enc_high (enc_narrow s a b c))
     = narrow_interval (enc_low s) (enc_high s) a b c.
Proof. unfold enc_narrow. destruct (narrow_interval _ _ _ _ _). auto. Qed.

Lemma dec_narrow_fields (d : DecState) (a b c : Z) :
  dec_reader (dec_narrow d a b c) = dec_reader d
  /\ (dec_low (dec_narrow d a b c), dec_high (dec_narrow d a b c))
     = narrow_interval (dec_low d) (dec_high d) a b c.
Proof. unfold dec_narrow. destruct (narrow_interval _ _ _ _ _). auto. Qed.

Lemma pair_eq_inj {A B : Type} (a a' : A) (b b' : B) : (a, b) = (a', b') -> a = a' /\ b = b'.
Proof. intros E. injection E. auto. Qed.

Lemma mirrors_narrow (scroll : list Byte.byte) (s : EncState) (d : DecState) (a b c : Z) :
  mirrors scroll s d -> mirrors scroll (enc_narrow s a b c) (dec_narrow d a b c).
Proof.
  intros (Hl & Hh & Hr).
  destruct (enc_narrow_fields s a b c) as [Hw He].
  destruct (dec_narrow_fields d a b c) as [Hr' Hd].
  rewrite Hl, Hh, <- He in Hd. apply pair_eq_inj in Hd as [Hd1 Hd2].
  unfold mirrors, enc_bits, enc_pend. rewrite Hw, Hr', Hd1, Hd2. split; [reflexivity|split; [reflexivity|]].
  exact Hr.
Qed.

(** The narrowing keeps the bits and shrinks the interval, so what is
    decided after it was decided before. *)
Lemma enc_future_narrow (F : nat -> Z) (s : EncState) (a b c : Z) :
  enc_low s <= enc_low (enc_narrow s a b c) -> enc_high (enc_narrow s a b c) <= enc_high s ->
  enc_future F (enc_narrow s a b c) -> enc_future F s.
Proof.
  intros H1 H2. unfold enc_future, future_ok, enc_bits, enc_pend.
  rewrite (proj1 (enc_narrow_fields s a b c)). intros (Ha & Hb & Hc). split; [exact Ha|].
  split; [exact Hb|lia].
Qed.

(** ** One symbol *)

Definition enc_rest_inv (p0 : Z) (s : EncState) : Prop :=
  enc_ok s /\ interval_settled (enc_low s) (enc_high s)
  /\ pending_mystical_bits (enc_writer s) <= p0.

Section OneSymbol.

Variable fa : FrequencyAnalysisWisdom.
Hypothesis fa_table : table_from 0 (frequency_entries fa) (total_frequency_mass fa).
Hypothesis fa_total : total_frequency_mass fa <= 2 ^ 22.

Lemma encode_one_sim (p0 : Z) (s : EncState) (sym : Z) (e : Z * Z * Z) :
  0 <= p0 -> p0 + 25 < 2 ^ 32 -> enc_rest_inv p0 s ->
  find_by_symbol (frequency_entries fa) sym = Some e ->
  exists s2, encode_one fa s sym = Some s2 /\ enc_rest_inv (p0 + 24) s2
  /\ forall scroll, enc_future (stream_bit scroll) s2 ->
     enc_future (stream_bit scroll) s
     /\ forall d, mirrors scroll s d ->
        exists d2, decode_one (frequency_entries fa) (total_frequency_mass fa) d = Some (sym, d2)
                   /\ mirrors scroll s2 d2.
Proof.
  intros Hp0 Hp32 (Hok & Hset & Hpn) He.
  destruct (find_by_symbol_some _ _ _ He) as [Hin Hsym].
  destruct (table_from_entry _ _ _ _ fa_table Hin) as (Hs0 & Hc1 & Hce).
  set (T := total_frequency_mass fa) in *.
  assert (HT : u32_of T = T) by (unfold u32_of; apply Z.mod_small; lia).
  assert (HT0 : (T =? 0) = false) by (apply Z.eqb_neq; lia).
  set (cs := entry_start e) in *. set (c := entry_count e) in *.
  destruct (narrow_interval_settled _ _ cs c T Hset Hs0 Hc1 Hce fa_total) as (Hn & Hb1 & Hb2 & Hb3).
  set (sn := enc_narrow s (u32_of cs) (u32_of (u64_of (cs + c))) T).
  destruct (enc_narrow_fields s (u32_of cs) (u32_of (u64_of (cs + c))) T) as [Hwn Hin'].
  fold sn in Hwn, Hin'. rewrite Hn in Hin'. apply pair_eq_inj in Hin' as [Hln Hhn].
  assert (Hinv : enc_loop_inv p0 sn).
  { destruct Hok as (Hw & Hp & Hi). unfold enc_loop_inv, enc_ok.
    rewrite Hwn, Hln, Hhn. unfold interval_ok, interval_settled in *.
    split; [split; [exact Hw|split; [exact Hp|lia]]|].
    exists 0. cbn. lia. }
  destruct (enc_loop_runs p0 sn Hp0 Hp32 Hinv) as (s2 & Hloop & Hinv2 & Hset2).
  exists s2. split.
  { unfold encode_one. rewrite He. change (total_frequency_mass fa) with T.
    change (entry_start e) with cs. change (entry_count e) with c.
    rewrite HT, encode_mystical_symbol_narrow, HT0.
    fold sn. unfold enc_normalize, run_loop. rewrite Hloop. reflexivity. }
  split.
  { destruct Hinv2 as (Hok2 & j & Hj0 & Hpj & HR).
    assert (j <= 24).
    { apply pow_le_24; [exact Hj0|]. unfold interval_settled in Hset2. coder_constants. lia. }
    split; [exact Hok2|split; [exact Hset2|lia]]. }
  intros scroll Hf2.
  set (F := stream_bit scroll).
  assert (Hstep : forall a a', enc_loop_inv p0 a -> enc_normalize_body a = Running a' ->
                  enc_loop_inv p0 a')
    by (intros a a' Ha E; exact (proj1 (enc_loop_step p0 a a' Hp0 Hp32 Ha E))).
  assert (Hstop : forall a a', enc_loop_inv p0 a -> enc_normalize_body a = Finished a' ->
                  enc_loop_inv p0 a')
    by (intros a a' Ha E; rewrite (enc_loop_stop _ _ E); exact Ha).
  assert (Hback : forall a a', enc_loop_inv p0 a -> enc_normalize_body a = Running a' ->
                  enc_future F a' -> enc_future F a).
  { intros a a' Ha E. apply enc_step_back; [apply stream_bit_range|].
    exact (proj2 (enc_loop_step p0 a a' Hp0 Hp32 Ha E)). }
  assert (Hback' : forall a a', enc_loop_inv p0 a -> enc_normalize_body a = Finished a' ->
                   enc_future F a' -> enc_future F a)
    by (intros a a' Ha E; rewrite (enc_loop_stop _ _ E); auto).
  pose proof (loop_pow_back _ _ _ Hstep Hstop Hback Hback' 64 sn Hinv) as Hb.
  rewrite Hloop in Hb. specialize (Hb Hf2) as Hfn.
  split.
  { apply (enc_future_narrow F s (u32_of cs) (u32_of (u64_of (cs + c))) T);
      fold sn; [lia|lia|exact Hfn]. }
  intros d Hm.
  pose proof Hm as (Hdl & Hdh & Hdr).
  (* the target *)
  assert (Hwin : enc_low sn <= interval_position_tracker (dec_reader d) <= enc_high sn).
  { rewrite Hdr, tracker_at. destruct Hfn as (_ & _ & Hw).
    unfold enc_bits, enc_pend in Hw |- *. rewrite Hwn in Hw. exact Hw. }
  rewrite Hln, Hhn in Hwin.
  destruct (decode_target_in (dec_reader d) (enc_low s) (enc_high s) cs c T Hset Hs0 Hc1 Hce
              fa_total Hwin) as (t & Ht & Htr).
  assert (Hres : resolve_symbol (frequency_entries fa) t = sym).
  { unfold resolve_symbol.
    rewrite (table_find_range _ 0 T e t fa_table ltac:(lia) ltac:(lia) Hin Htr).
    exact Hsym. }
  (* the decoder's loop *)
  set (dn := dec_narrow d (u32_of cs) (u32_of (u64_of (cs + c))) T).
  assert (Hmn : mirrors scroll sn dn) by (apply mirrors_narrow; exact Hm).
  assert (Hsim : forall a a' b, enc_loop_inv p0 a -> mirrors scroll a b ->
                 enc_normalize_body a = Running a' -> enc_future F a -> enc_future F a' ->
                 exists b', dec_normalize_body b = Running b' /\ mirrors scroll a' b').
  { intros a a' b Ha Hab E Hfa Hfa'.
    exact (dec_step_mirror scroll a a' b Hab (proj1 Ha) E
             (proj2 (enc_loop_step p0 a a' Hp0 Hp32 Ha E)) Hfa Hfa'). }
  assert (Hsim' : forall a a' b, enc_loop_inv p0 a -> mirrors scroll a b ->
                  enc_normalize_body a = Finished a' -> enc_future F a' ->
                  exists b', dec_normalize_body b = Finished b' /\ mirrors scroll a' b').
  { intros a a' b Ha Hab E _. destruct (dec_finish_mirror scroll a a' b Hab E) as [-> Hd].
    exists b. auto. }
  pose proof (loop_pow_sim _ _ _ _ _ Hstep Hstop Hback Hback' Hsim Hsim' 64 sn dn Hinv Hmn) as Hs.
  rewrite Hloop in Hs. destruct (Hs Hf2) as (d2 & Hdl2 & Hm2).
  exists d2. split; [|exact Hm2].
  unfold decode_one. change (total_frequency_mass fa) with T. rewrite HT, Hdl, Hdh, Ht, Hres, He.
  change (entry_start e) with cs. change (entry_count e) with c.
  rewrite update_mystical_intervals_narrow, HT0. fold dn.
  unfold dec_normalize, run_loop. rewrite Hdl2. reflexivity.
Qed.

End OneSymbol.


(** ** All the symbols *)

Section AllSymbols.

Variable fa : FrequencyAnalysisWisdom.
Hypothesis fa_table : table_from 0 (frequency_entries fa) (total_frequency_mass fa).
Hypothesis fa_total : total_frequency_mass fa <= 2 ^ 22.

Lemma encode_all_sim (syms : list Z) :
  forall s p0, 0 <= p0 -> p0 + 24 * Z.of_nat (length syms) + 25 < 2 ^ 32 ->
  enc_rest_inv p0 s ->
  (forall sym, In sym syms -> exists e, find_by_symbol (frequency_entries fa) sym = Some e) ->
  exists sf, encode_symbols fa s syms = Some sf
  /\ enc_rest_inv (p0 + 24 * Z.of_nat (length syms)) sf
  /\ forall scroll, enc_future (stream_bit scroll) sf ->
     enc_future (stream_bit scroll) s
     /\ forall d, mirrors scroll s d ->
        decode_symbols (frequency_entries fa) (total_frequency_mass fa) (length syms) d
        = Some syms.
Proof.
  induction syms as [|sym syms IH]; intros s p0 Hp0 Hp32 Hs Hall.
  - exists s. split; [reflexivity|]. split; [rewrite Z.add_0_r; exact Hs|].
    intros scroll Hf. split; [exact Hf|]. intros d _. reflexivity.
  - cbn [length] in Hp32. rewrite Nat2Z.inj_succ in Hp32.
    destruct (Hall sym (or_introl eq_refl)) as (e & He).
    destruct (encode_one_sim fa fa_table fa_total p0 s sym e Hp0 ltac:(lia) Hs He)
      as (s2 & E2 & Hs2 & Hsim2).
    destruct (IH s2 (p0 + 24) ltac:(lia) ltac:(lia) Hs2 (fun k Hk => Hall k (or_intror Hk)))
      as (sf & Ef & Hsf & Hsimf).
    exists sf. split; [cbn [encode_symbols]; rewrite E2; exact Ef|].
    split; [cbn [length]; rewrite Nat2Z.inj_succ; replace (p0 + 24 * Z.succ (Z.of_nat (length syms)))
              with (p0 + 24 + 24 * Z.of_nat (length syms)) by lia; exact Hsf|].
    intros scroll Hf. destruct (Hsimf scroll Hf) as [Hf2 Hd2].
    destruct (Hsim2 scroll Hf2) as [Hf0 Hd0]. split; [exact Hf0|].
    intros d Hm. destruct (Hd0 d Hm) as (d2 & Ed & Hm2).
    cbn [decode_symbols length]. rewrite Ed, (Hd2 d2 Hm2). reflexivity.
Qed.

End AllSymbols.

(** ** The start and the end of the coding *)

Lemma enc_init_inv : enc_rest_inv 0 enc_init.
Proof.
  unfold enc_rest_inv, enc_ok, writer_ok, interval_ok, interval_settled. cbn.
  coder_constants. lia.
Qed.

Lemma writer_bits_new : writer_bits conjure_new = [].
Proof. reflexivity. Qed.

Lemma mirrors_init (a : CompressionArtifact) :
  mirrors (compressed_bit_stream a) enc_init (dec_init a).
Proof.
  unfold mirrors, dec_init, enc_bits, enc_pend. cbn [dec_low dec_high dec_reader enc_low enc_high enc_writer].
  split; [reflexivity|split; [reflexivity|]].
  change (enc_writer enc_init) with conjure_new.
  rewrite writer_bits_new, conjure_at. cbn [length pending_mystical_bits conjure_new].
  unfold code_window. change (Z.to_nat 0) with 0%nat. cbn [Nat.add].
  change (2 ^ 23) with (2 ^ Z.of_nat 23). rewrite <- win_front. reflexivity.
Qed.

(** The flushed stream: the bits written, a one, then zeros. *)
Lemma enc_future_final (s : EncState) (p : Z) :
  enc_rest_inv p s -> p + 1 < 2 ^ 32 ->
  enc_future (stream_bit (complete_compression_ritual (enc_writer s))) s.
Proof.
  intros (( Hw & Hp & _) & Hset & Hpp) Hp1.
  destruct (complete_bits (enc_writer s) Hw Hp ltac:(lia)) as (pad & Hb).
  set (F := stream_bit (complete_compression_ritual (enc_writer s))).
  assert (HF : forall k, F k = nth k (enc_bits s ++ 1 :: repeat 0 pad) 0).
  { intros k. unfold F. rewrite stream_bit_nth, Hb. reflexivity. }
  assert (H1 : F (length (enc_bits s)) = 1).
  { rewrite HF, app_nth2, Nat.sub_diag by lia. reflexivity. }
  assert (H0 : forall k, (length (enc_bits s) < k)%nat -> F k = 0).
  { intros k Hk. rewrite HF, app_nth2 by lia.
    replace (k - length (enc_bits s))%nat with (S (k - length (enc_bits s) - 1)) by lia.
    cbn [nth]. apply nth_repeat. }
  unfold enc_future, future_ok. split; [|split].
  - intros i Hi. rewrite HF, app_nth1 by exact Hi. reflexivity.
  - intros j Hj. rewrite H1, H0 by lia. reflexivity.
  - unfold code_window. rewrite H1, win_zero by (intros i Hi; apply H0; lia).
    unfold interval_settled in Hset. coder_constants. lia.
Qed.


(** ** The dictionary words and the table entries *)

Lemma count_word_long (buf : list Byte.byte) (alm : list (list Byte.byte * Z)) :
  (forall w v, In (w, v) alm -> (3 <= length w)%nat) ->
  forall w v, In (w, v) (count_word buf alm) -> (3 <= length w)%nat.
Proof.
  intros Ha w v Hin. unfold count_word in Hin.
  destruct (3 <=? length buf)%nat eqn:E; [|eauto].
  apply Nat.leb_le in E.
  destruct (entry_increment_key_cases _ _ _ _ _ Hin) as [->|[v' Hv']]; eauto.
Qed.

Lemma tokenize_words_long (cs : list Z) :
  forall buf alm, (forall w v, In (w, v) alm -> (3 <= length w)%nat) ->
  forall w v, In (w, v) (tokenize_words cs buf alm) -> (3 <= length w)%nat.
Proof.
  induction cs as [|c cs IH]; intros buf alm Ha; cbn [tokenize_words].
  - now apply count_word_long.
  - destruct (char_is_ascii_alphabetic c || (c =? 39)).
    + apply IH. exact Ha.
    + apply IH. now apply count_word_long.
Qed.

(** Every dictionary word has at least three bytes. *)
Lemma discover_words_long (h : HashIter) (x : list Byte.byte) :
  hash_iter_ok h ->
  forall w, In w (discover_profitable_word_enchantments h x) -> (3 <= length w)%nat.
Proof.
  intros [Hw _]. unfold discover_profitable_word_enchantments.
  destruct (length x <? MIN_DISCOVERY_LEN)%nat; [intros w []|].
  intros w Hin. apply in_map_iff in Hin as (c & <- & Hc).
  apply in_firstn, (Permutation_in _ (sort_stable_perm _ _)) in Hc.
  apply in_flat_map in Hc as ([w v] & He & Hc).
  unfold profitable_candidate in Hc.
  destruct (_ && _); [|destruct Hc]. destruct Hc as [<-|[]]. cbn [fst].
  apply (Permutation_in _ (Hw _)) in He.
  revert He. apply tokenize_words_long. intros ? ? [].
Qed.

Lemma find_by_symbol_exists (es : list (Z * Z * Z)) (k : Z) :
  In k (map entry_symbol es) -> exists e, find_by_symbol es k = Some e.
Proof.
  unfold find_by_symbol. induction es as [|e0 es IH]; intros Hin; [destruct Hin|].
  rewrite find_entry_cons. destruct (entry_symbol e0 =? k) eqn:E; [eauto|].
  destruct Hin as [Hk|Hin]; [apply Z.eqb_neq in E; congruence|]. exact (IH Hin).
Qed.

(** Every symbol of the sequence has its entry in the table. *)
Lemma analyze_has_entry (h : HashIter) (syms : list Z) (k : Z) :
  hash_iter_ok h -> Z.of_nat (length syms) < 2 ^ 64 -> In k syms ->
  exists e, find_by_symbol (frequency_entries (analyze_symbolic_frequencies h syms)) k = Some e.
Proof.
  intros Hh Hl Hk. destruct (analysis_pairs_spec h syms Hh Hl) as (_ & _ & _ & Hin & _).
  apply find_by_symbol_exists. rewrite analyze_unfold. cbn [frequency_entries].
  rewrite cumulate_symbols. exact (Hin k Hk).
Qed.

(** ** Encoding then decoding *)

Lemma roundtrip_of (h : HashIter) (x : list Byte.byte) (ws : list (list Byte.byte))
    (syms : list Z) (fa : FrequencyAnalysisWisdom) (sf : EncState) :
  discover_profitable_word_enchantments h x = ws ->
  transform_manuscript_to_symbols x ws = syms ->
  analyze_symbolic_frequencies h syms = fa ->
  encode_symbols fa enc_init syms = Some sf ->
  vec_u32_capacity_ok (total_frequency_mass fa) = true ->
  roundtrip h x
  = match decode_symbols (frequency_entries fa) (total_frequency_mass fa)
            (Z.to_nat (total_frequency_mass fa))
            (dec_init {| mystical_frequency_codex := frequency_entries fa;
                         total_frequency_essence := total_frequency_mass fa;
                         compressed_bit_stream := complete_compression_ritual (enc_writer sf);
                         mystical_word_grimoire := ws |}) with
    | Some syms' => Some (reconstruct_original_manuscript syms' ws)
    | None => None
    end.
Proof.
  intros E1 E2 E3 E4 Hc. unfold roundtrip, weave_compression_spell.
  rewrite E1, E2, E3, E4. unfold unweave_compression_spell.
  cbn [total_frequency_essence]. rewrite Hc. reflexivity.
Qed.

(* ------------------------------------------------------------------ *)
(** ** Auxiliary facts: reader window, loops, tables, serialization, dictionary *)

Lemma win_ext (F G : nat -> Z) (k j n : nat) :
  (forall i, (i < n)%nat -> F (k + i)%nat = G (j + i)%nat) -> win F k n = win G j n.
Proof.
  induction n as [|n IH]; intros H; cbn [win]; [reflexivity|].
  rewrite IH by (intros; apply H; lia). rewrite H by lia. reflexivity.
Qed.

Lemma win_split (F : nat -> Z) (k n m : nat) :
  win F k (n + m) = win F k n * 2 ^ Z.of_nat m + win F (k + n) m.
Proof.
  induction m as [|m IH].
  - rewrite Nat.add_0_r. cbn. lia.
  - rewrite Nat.add_succ_r. cbn [win]. rewrite IH, Nat2Z.inj_succ, Z.pow_succ_r by lia.
    replace (k + (n + m))%nat with (k + n + m)%nat by lia. lia.
Qed.

Definition byte_bit (b : Byte.byte) (j : nat) : Z :=
  Z.land (Z.shiftr (byte_val b) (7 - Z.of_nat j)) 1.

Lemma win_byte_bit (b : Byte.byte) : win (byte_bit b) 0 8 = byte_val b.
Proof. destruct b; reflexivity. Qed.

Lemma win_stream_byte (scroll : list Byte.byte) (i : nat) :
  win (stream_bit scroll) (8 * i) 8 = byte_val (nth i scroll Byte.x00).
Proof.
  rewrite <- win_byte_bit. apply win_ext. intros j Hj. unfold stream_bit, byte_bit.
  assert (Hd : ((8 * i + j) / 8 = i)%nat /\ ((8 * i + j) mod 8 = j)%nat).
  { pose proof (Nat.div_mod (8 * i + j) 8). pose proof (Nat.mod_upper_bound (8 * i + j) 8). lia. }
  destruct Hd as [-> ->]. cbn [Nat.add].
  destruct (Nat.ltb_spec (8 * i + j) (8 * length scroll)).
  - reflexivity.
  - rewrite nth_overflow by lia. cbn. destruct j as [|[|[|[|[|[|[|[|]]]]]]]]; try reflexivity; lia.
Qed.

Definition dec_measure (d : DecState) : Z := 2 ^ 25 - (dec_high d - dec_low d + 1).

Lemma table_from_cover (es : list (Z * Z * Z)) :
  forall c total t, table_from c es total -> c <= t < total ->
  exists e, In e es /\ entry_start e <= t < entry_start e + entry_count e.
Proof.
  induction es as [|e0 es IH]; intros c total t Ht Hr; cbn in Ht; [lia|].
  destruct Ht as (Hs & Hn & Ht).
  destruct (Z.ltb_spec t (c + entry_count e0)).
  - exists e0. split; [now left|lia].
  - destruct (IH _ _ t Ht ltac:(lia)) as (e & Hin & He). exists e. split; [now right|exact He].
Qed.

Lemma length_flat_map_serialize_word (ws : list (list Byte.byte)) :
  length (flat_map serialize_word ws) = fold_right (fun w n => 4 + length w + n)%nat 0%nat ws.
Proof.
  induction ws as [|w ws IH]; [reflexivity|]. cbn [flat_map fold_right].
  rewrite length_app, IH. unfold serialize_word. rewrite length_app, length_le_bytes. lia.
Qed.

Lemma length_flat_map_serialize_entry (es : list (Z * Z * Z)) :
  length (flat_map serialize_entry es) = (20 * length es)%nat.
Proof.
  induction es as [|e es IH]; [reflexivity|]. cbn [flat_map length].
  rewrite length_app, IH. unfold serialize_entry. rewrite !length_app, !length_le_bytes. lia.
Qed.

Lemma read_le_cursor (n : nat) (buf : list Byte.byte) (c c' : nat) (v : Z) :
  read_le n buf c = Some (v, c') -> c' = (c + n)%nat /\ (c + n <= length buf)%nat.
Proof.
  unfold read_le, read_slice. destruct (Nat.leb_spec (c + n) (length buf)); [|discriminate].
  intros E. injection E as _ <-. auto.
Qed.

Lemma read_words_cursor (n : nat) :
  forall buf c c' ws, read_words n buf c = Some (ws, c') -> (c <= c')%nat.
Proof.
  induction n as [|n IH]; intros buf c c' ws E; cbn [read_words] in E.
  - injection E as _ <-. lia.
  - destruct (read_le 4 buf c) as [[len c1]|] eqn:E1; [|discriminate].
    apply read_le_cursor in E1 as [-> _].
    unfold read_slice in E. destruct (_ <=? _)%nat; [|discriminate].
    destruct (read_words n buf _) as [[ws' c3]|] eqn:E3; [|discriminate].
    injection E as _ <-. apply IH in E3. lia.
Qed.

Lemma read_entries_cursor (n : nat) :
  forall buf c c' es, read_entries n buf c = Some (es, c') -> (c <= c')%nat.
Proof.
  induction n as [|n IH]; intros buf c c' es E; cbn [read_entries] in E.
  - injection E as _ <-. lia.
  - destruct (read_le 4 buf c) as [[s c1]|] eqn:E1; [|discriminate].
    destruct (read_le 8 buf c1) as [[f c2]|] eqn:E2; [|discriminate].
    destruct (read_le 8 buf c2) as [[st c3]|] eqn:E3; [|discriminate].
    destruct (read_entries n buf c3) as [[es' c4]|] eqn:E4; [|discriminate].
    injection E as _ <-. apply read_le_cursor in E1 as [-> _].
    apply read_le_cursor in E2 as [-> _]. apply read_le_cursor in E3 as [-> _].
    apply IH in E4. lia.
Qed.

Lemma read_words_lossy (ws : list (list Byte.byte)) :
  Forall (fun w => Z.of_nat (length w) < 2 ^ 32) ws ->
  forall buf pre rest, buf = pre ++ flat_map serialize_word ws ++ rest ->
  read_words (length ws) buf (length pre)
  = Some (map from_utf8_lossy ws, (length pre + length (flat_map serialize_word ws))%nat).
Proof.
  induction 1 as [|w ws Hl Hws IH]; intros buf pre rest Hb.
  - cbn. now rewrite Nat.add_0_r.
  - cbn [length read_words map]. cbn [flat_map] in Hb |- *.
    unfold serialize_word at 1 in Hb. unfold serialize_word at 1.
    rewrite u32_of_length in Hb |- * by exact Hl.
    rewrite (read_le_at 4 buf pre (w ++ flat_map serialize_word ws ++ rest) _
               (Z.of_nat (length w)));
      [| rewrite Hb, <- !app_assoc; reflexivity | reflexivity | simpl; lia].
    cbv beta iota. rewrite Nat2Z.id.
    rewrite (read_slice_at buf (pre ++ le_bytes 4 (Z.of_nat (length w))) w
               (flat_map serialize_word ws ++ rest));
      [| rewrite Hb, <- !app_assoc; reflexivity
       | rewrite length_app, length_le_bytes; reflexivity].
    cbv beta iota.
    replace (length pre + 4 + length w)%nat
      with (length ((pre ++ le_bytes 4 (Z.of_nat (length w))) ++ w))
      by (rewrite !length_app, length_le_bytes; lia).
    rewrite (IH buf _ rest) by (rewrite Hb, <- !app_assoc; reflexivity).
    cbv beta iota. f_equal. f_equal. rewrite !length_app, length_le_bytes. lia.
Qed.

Definition ff_word_artifact : CompressionArtifact := {|
  mystical_frequency_codex := [(256, 1, 0)];
  total_frequency_essence := 1;
  compressed_bit_stream := [Byte.x80];
  mystical_word_grimoire := [[Byte.xff]] |}.

Lemma list_byte_eqb_spec (a b : list Byte.byte) : list_byte_eqb a b = true <-> a = b.
Proof. unfold list_byte_eqb. destruct (list_eq_dec _ a b); split; congruence. Qed.

Lemma entry_increment_nodup_words (k : list Byte.byte) (m : list (list Byte.byte * Z)) :
  NoDup (map fst m) -> NoDup (map fst (entry_increment list_byte_eqb k m)).
Proof.
  induction m as [|[k' v] m IH]; intros Hnd; cbn.
  - constructor; [intros []|constructor].
  - cbn in Hnd. apply NoDup_cons_iff in Hnd as [Hx Hnd'].
    destruct (list_byte_eqb k k') eqn:E; cbn; constructor; auto.
    intros Hin. apply in_map_iff in Hin as ([k1 v1] & Hk1 & Hin). cbn in Hk1. subst k1.
    destruct (entry_increment_key_cases _ _ _ _ _ Hin) as [->|[v' Hv']].
    + rewrite (proj2 (list_byte_eqb_spec k k) eq_refl) in E. discriminate.
    + apply Hx. apply in_map_iff. exists (k', v'). auto.
Qed.

Lemma tokenize_words_nodup (cs : list Z) :
  forall buf alm, NoDup (map fst alm) -> NoDup (map fst (tokenize_words cs buf alm)).
Proof.
  assert (Hc : forall buf alm, NoDup (map fst alm) -> NoDup (map fst (count_word buf alm))).
  { intros buf alm H. unfold count_word. destruct (3 <=? length buf)%nat; [|exact H].
    now apply entry_increment_nodup_words. }
  induction cs as [|c cs IH]; intros buf alm Hnd; cbn [tokenize_words]; [auto|].
  destruct (char_is_ascii_alphabetic c || (c =? 39)); apply IH; auto.
Qed.

Lemma profitable_candidate_some (w : list Byte.byte) (f : Z) (c : list Byte.byte * Z * Z) :
  profitable_candidate (w, f) = Some c -> fst (fst c) = w /\ 3 < f.
Proof.
  unfold profitable_candidate. destruct ((3 <? f) && _) eqn:Hp; [|discriminate].
  intros E. injection E as <-. apply andb_prop in Hp as [Hp _]. apply Z.ltb_lt in Hp.
  split; [reflexivity|exact Hp].
Qed.

Lemma profitable_candidates_nodup (l : list (list Byte.byte * Z)) :
  NoDup (map fst l) ->
  NoDup (map (fun c => fst (fst c))
    (flat_map (fun e => match profitable_candidate e with Some c => [c] | None => [] end) l))
  /\ (forall c, In c (flat_map (fun e => match profitable_candidate e with
                                         | Some c => [c] | None => [] end) l) ->
        exists f, In (fst (fst c), f) l /\ 3 < f).
Proof.
  induction l as [|[w f] l IH]; intros Hnd; cbn [flat_map]; [split; [constructor|intros c []]|].
  cbn in Hnd. apply NoDup_cons_iff in Hnd as [Hx Hnd']. destruct (IH Hnd') as [H1 H2].
  destruct (profitable_candidate (w, f)) as [c0|] eqn:Hp; cbn [app map].
  - destruct (profitable_candidate_some _ _ _ Hp) as [Hc0 Hf].
    split.
    + constructor; [|exact H1]. rewrite Hc0. intros Hin.
      apply in_map_iff in Hin as (c & Hc & Hin). destruct (H2 c Hin) as (f' & Hf' & _).
      apply Hx. rewrite <- Hc. apply in_map_iff. exists (fst (fst c), f'). auto.
    + intros c [<-|Hin].
      * exists f. rewrite Hc0. split; [now left|exact Hf].
      * destruct (H2 c Hin) as (f' & Hf' & Hlt). exists f'. split; [now right|exact Hlt].
  - split; [exact H1|]. intros c Hin. destruct (H2 c Hin) as (f' & Hf' & Hlt).
    exists f'. split; [now right|exact Hlt].
Qed.

Lemma decode_symbols_empty_table (total : Z) (n : nat) (s : DecState) :
  u64_of (u64_of (dec_high s - dec_low s) + 1) <> 0 ->
  decode_symbols [] total n s = Some (repeat 0 n).
Proof.
  intros Hr. induction n as [|n IH]; [reflexivity|]. cbn [decode_symbols].
  unfold decode_one, decode_mystical_target.
  replace (u64_of (u64_of (dec_high s - dec_low s) + 1) =? 0) with false
    by (symmetry; now apply Z.eqb_neq).
  unfold find_by_symbol, resolve_symbol, find_entry. cbn [find_with_probes fst].
  rewrite IH. reflexivity.
Qed.

Lemma decode_symbols_length (codex : list (Z * Z * Z)) (total : Z) (n : nat) :
  forall s syms, decode_symbols codex total n s = Some syms -> length syms = n.
Proof.
  induction n as [|n IH]; intros s syms E; cbn [decode_symbols] in E.
  - injection E as <-. reflexivity.
  - destruct (decode_one codex total s) as [[sym s']|]; [|discriminate].
    destruct (decode_symbols codex total n s') as [syms'|] eqn:E'; [|discriminate].
    injection E as <-. cbn. f_equal. exact (IH _ _ E').
Qed.

Lemma find_entry_in {A : Type} (p : A -> bool) (l : list A) (x : A) :
  find_entry p l = Some x -> In x l.
Proof.
  induction l as [|y l IH]; [discriminate|]. rewrite find_entry_cons.
  destruct (p y); [intros E; injection E as <-; now left|intros E; right; auto].
Qed.

Lemma resolve_symbol_source (codex : list (Z * Z * Z)) (t : Z) :
  In (resolve_symbol codex t) (map entry_symbol codex) \/
  (codex = [] /\ resolve_symbol codex t = 0).
Proof.
  unfold resolve_symbol. destruct (find_entry (range_contains t) codex) as [e|] eqn:E.
  - left. apply in_map. exact (find_entry_in _ _ _ E).
  - destruct codex as [|e codex]; [right; auto|left; now left].
Qed.

Lemma decode_symbols_source (codex : list (Z * Z * Z)) (total : Z) (n : nat) :
  forall s syms, decode_symbols codex total n s = Some syms ->
  Forall (fun y => In y (map entry_symbol codex) \/ (codex = [] /\ y = 0)) syms.
Proof.
  induction n as [|n IH]; intros s syms E; cbn [decode_symbols] in E.
  - injection E as <-. constructor.
  - destruct (decode_one codex total s) as [[sym s']|] eqn:D; [|discriminate].
    destruct (decode_symbols codex total n s') as [syms'|] eqn:E'; [|discriminate].
    injection E as <-. constructor; [|exact (IH _ _ E')].
    unfold decode_one in D.
    destruct (decode_mystical_target _ _ _ _) as [t|]; [|discriminate].
    cbv zeta in D.
    destruct (find_by_symbol codex (resolve_symbol codex t)) as [e|].
    + destruct (update_mystical_intervals _ _ _ _); [|discriminate].
      injection D as <- _. apply resolve_symbol_source.
    + injection D as <- _. apply resolve_symbol_source.
Qed.

Lemma reconstruct_bytes_length (syms : list Z) (ws : list (list Byte.byte)) :
  Forall (fun y => 0 <= y <= 255) syms ->
  length (reconstruct_original_manuscript syms ws) = length syms.
Proof.
  induction 1 as [|y syms Hy _ IH]; [reflexivity|]. cbn [reconstruct_original_manuscript].
  rewrite length_app, IH. unfold reconstruct_symbol.
  replace ((0 <=? y) && (y <=? 255)) with true
    by (symmetry; apply andb_true_intro; split; apply Z.leb_le; lia).
  reflexivity.
Qed.

(** * Properties of the crate *)

(** C8: every symbol of the substitution output is either the raw byte at
    the current position or the reference [256 + k] of a dictionary word
    [k] that matches there byte for byte and is bounded by non-letters or
    the text's edges on both sides; on ["theme the theory the"] with the
    dictionary ["the"] only the two standalone tokens become references. *)
Theorem substitution_only_at_word_boundaries :
  (forall bs ws, substitution_justified bs ws 0 (transform_manuscript_to_symbols bs ws))
  /\ transform_manuscript_to_symbols theme_text [the_word]
     = [116; 104; 101; 109; 101; 32; 256; 32; 116; 104; 101; 111; 114; 121; 32; 256].
Proof.
  split.
  - intros bs ws. apply transform_loop_justified.
  - vm_compute. reflexivity.
Qed.

(** C10 (counterexample): with [2^32] copies of ["b"] followed by ["a"] as
    the dictionary (all words non-empty), the text ["a"] is replaced by
    the reference of index [2^32], which wraps in [u32] to [256], so the
    reconstruction gives ["b"] instead of ["a"]. *)
Lemma substitution_wrap_counterexample :
  (forall w, In w wrap_grimoire -> w <> [])
  /\ reconstruct_original_manuscript
       (transform_manuscript_to_symbols [Byte.x61] wrap_grimoire) wrap_grimoire
     = [Byte.x62].
Proof.
  split; [exact wrap_grimoire_nonempty|].
  unfold wrap_grimoire at 1. rewrite transform_a_after_repeat, reference_symbol_wrap.
  cbn [reconstruct_original_manuscript]. unfold reconstruct_symbol.
  change ((0 <=? 256) && (256 <=? 255)) with false. cbv iota.
  change (Z.to_nat (u32_of (256 - 256))) with 0%nat.
  rewrite wrap_grimoire_first. reflexivity.
Qed.

(** C10 (amended): for every byte sequence and every dictionary of
    non-empty words with at most [2^32 - 256] entries (so that no symbol
    [256 + index] wraps in [u32]), reconstruction inverts substitution. *)
Theorem substitution_reversible (bs : list Byte.byte) (ws : list (list Byte.byte)) :
  (forall w, In w ws -> w <> []) ->
  Z.of_nat (length ws) <= 2 ^ 32 - 256 ->
  reconstruct_original_manuscript (transform_manuscript_to_symbols bs ws) ws = bs.
Proof.
  intros Hne Hlen. unfold transform_manuscript_to_symbols.
  rewrite transform_loop_reconstruct by (auto; lia). reflexivity.
Qed.

Lemma substitution_reversible_witness :
  Z.of_nat (length [the_word]) <= 2 ^ 32 - 256
  /\ reconstruct_original_manuscript (transform_manuscript_to_symbols theme_text [the_word])
       [the_word] = theme_text.
Proof.
  split; [simpl; lia|].
  apply substitution_reversible; [intros w [<-|[]]; discriminate | simpl; lia].
Defined.

(** C2 (counterexample): the artifact whose table holds the single
    reference [256] while its dictionary is empty decodes the symbol [256]
    and then silently drops it: decoding succeeds with the empty output. *)
Lemma dangling_reference_counterexample :
  decode_symbols (mystical_frequency_codex dangling_reference_artifact) 1 1
    (dec_init dangling_reference_artifact) = Some [256]
  /\ unweave_compression_spell dangling_reference_artifact = Some [].
Proof. split; vm_compute; reflexivity. Qed.

(** C2 (amended): a dictionary reference [r] ([256 <= r < 2^32]) whose
    index [r - 256] is out of range for the dictionary is silently
    dropped: it contributes no bytes, and reconstruction goes on with the
    following symbols. *)
Theorem dangling_reference_dropped (s1 s2 : list Z) (ws : list (list Byte.byte)) (r : Z) :
  256 <= r < 2 ^ 32 -> Z.of_nat (length ws) <= r - 256 ->
  reconstruct_original_manuscript (s1 ++ r :: s2) ws
  = reconstruct_original_manuscript s1 ws ++ reconstruct_original_manuscript s2 ws.
Proof.
  intros Hr Hl. rewrite reconstruct_app. cbn [reconstruct_original_manuscript].
  now rewrite reconstruct_symbol_out_of_range.
Qed.

Lemma dangling_reference_dropped_witness :
  (256 <= 300 < 2 ^ 32 /\ Z.of_nat (length (@nil (list Byte.byte))) <= 300 - 256)
  /\ reconstruct_original_manuscript ([65] ++ 300 :: [66]) []
     = reconstruct_original_manuscript [65] [] ++ reconstruct_original_manuscript [66] [].
Proof.
  split; [simpl; lia|]. apply dangling_reference_dropped; simpl; lia.
Defined.

(** C9 (counterexample): encoding the 256 byte values in increasing order
    yields a table of 256 entries, and resolving the target [255] makes the
    decoder's [find] examine all 256 of them (a binary search needs at
    most [log2 256 + 1 = 9] probes). *)
Lemma linear_symbol_lookup_counterexample :
  option_map (fun a => (length (mystical_frequency_codex a),
                        find_with_probes (range_contains 255) (mystical_frequency_codex a)))
    (weave_compression_spell insertion_order all_bytes)
  = Some (256%nat, (Some (255, 1, 255), 256%nat))
  /\ (Nat.log2 256 + 1 < 256)%nat.
Proof. split; [vm_compute; reflexivity | apply Nat.ltb_lt; reflexivity]. Qed.

(** C9 (amended): the decoder resolves a target by a linear scan of the
    table.  When the entries [l1] before [e] do not contain the target and
    [e] does, the scan examines [length l1 + 1] entries and resolves to
    [e]'s symbol; when no entry of the table contains the target, the scan
    examines every entry, finds nothing, and the decoder falls back to the
    first entry's symbol (to [0] for an empty table). *)
Theorem symbol_lookup_linear :
  (forall (l1 l2 : list (Z * Z * Z)) (e : Z * Z * Z) (t : Z),
     forallb (fun y => negb (range_contains t y)) l1 = true ->
     range_contains t e = true ->
     find_with_probes (range_contains t) (l1 ++ e :: l2) = (Some e, S (length l1))
     /\ resolve_symbol (l1 ++ e :: l2) t = entry_symbol e)
  /\ (forall (l : list (Z * Z * Z)) (t : Z),
     forallb (fun y => negb (range_contains t y)) l = true ->
     find_with_probes (range_contains t) l = (None, length l)
     /\ resolve_symbol l t = match l with e :: _ => entry_symbol e | [] => 0 end).
Proof.
  split.
  - intros l1 l2 e t H1 He. pose proof (find_with_probes_first _ l1 e l2 H1 He) as Hf.
    split; [exact Hf|]. unfold resolve_symbol, find_entry. now rewrite Hf.
  - intros l t Hl.
    assert (Hf : find_with_probes (range_contains t) l = (None, length l)).
    { induction l as [|y l IH]; [reflexivity|]. cbn in Hl |- *.
      destruct (range_contains t y); [discriminate|]. cbn in Hl. now rewrite IH. }
    split; [exact Hf|]. unfold resolve_symbol, find_entry. now rewrite Hf.
Qed.

Lemma symbol_lookup_linear_witness :
  ((forallb (fun y => negb (range_contains 2 y)) [(65, 2, 0)] = true
    /\ range_contains 2 (66, 1, 2) = true)
   /\ find_with_probes (range_contains 2) ([(65, 2, 0)] ++ (66, 1, 2) :: [])
      = (Some (66, 1, 2), S (length [(65, 2, 0)]))
   /\ resolve_symbol ([(65, 2, 0)] ++ (66, 1, 2) :: []) 2 = entry_symbol (66, 1, 2))
  /\ (forallb (fun y => negb (range_contains 5 y)) [(65, 2, 0); (66, 1, 2)] = true
      /\ find_with_probes (range_contains 5) [(65, 2, 0); (66, 1, 2)] = (None, 2%nat)
      /\ resolve_symbol [(65, 2, 0); (66, 1, 2)] 5 = 65).
Proof.
  destruct symbol_lookup_linear as [Hin Hout]. split.
  - split; [split; reflexivity|]. apply Hin; reflexivity.
  - assert (H : forallb (fun y => negb (range_contains 5 y)) [(65, 2, 0); (66, 1, 2)] = true)
      by reflexivity.
    split; [exact H|]. exact (Hout [(65, 2, 0); (66, 1, 2)] 5 H).
Defined.

(** C6: the frequency table built from any symbol sequence (of fewer than
    [2^64] symbols) lists strictly increasing symbol ids, each entry's
    cumulative start plus its count is the next entry's start, the counts
    sum to the total mass, and the last entry ends at the total mass. *)
Theorem frequency_table_invariant (h : HashIter) (syms : list Z) :
  hash_iter_ok h -> Z.of_nat (length syms) < 2 ^ 64 ->
  let fa := analyze_symbolic_frequencies h syms in
  (forall i e1 e2, nth_error (frequency_entries fa) i = Some e1 ->
     nth_error (frequency_entries fa) (S i) = Some e2 ->
     entry_symbol e1 < entry_symbol e2 /\ entry_start e1 + entry_count e1 = entry_start e2)
  /\ sum_entry_counts (frequency_entries fa) = total_frequency_mass fa
  /\ (forall pre e, frequency_entries fa = pre ++ [e] ->
        entry_start e + entry_count e = total_frequency_mass fa).
Proof.
  intros Hh Hlen fa.
  destruct (analyze_table h syms Hh Hlen) as (Ht & _ & Hs). fold fa in Ht, Hs.
  refine (conj _ (conj _ _)).
  - intros i e1 e2 H1 H2. split; [exact (Hs i e1 e2 H1 H2)|].
    exact (table_from_consecutive _ _ _ Ht i e1 e2 H1 H2).
  - pose proof (table_from_sum _ _ _ Ht). lia.
  - intros pre e He. rewrite He in Ht. exact (table_from_last _ _ _ _ Ht).
Qed.

Lemma frequency_table_invariant_witness :
  (hash_iter_ok insertion_order /\ Z.of_nat (length [65; 66; 65]) < 2 ^ 64)
  /\ let fa := analyze_symbolic_frequencies insertion_order [65; 66; 65] in
  (forall i e1 e2, nth_error (frequency_entries fa) i = Some e1 ->
     nth_error (frequency_entries fa) (S i) = Some e2 ->
     entry_symbol e1 < entry_symbol e2 /\ entry_start e1 + entry_count e1 = entry_start e2)
  /\ sum_entry_counts (frequency_entries fa) = total_frequency_mass fa
  /\ (forall pre e, frequency_entries fa = pre ++ [e] ->
        entry_start e + entry_count e = total_frequency_mass fa).
Proof.
  split; [split; [exact insertion_order_ok | simpl; lia]|].
  apply frequency_table_invariant; [exact insertion_order_ok | simpl; lia].
Defined.

(** C3 (counterexample): the encoder performs no check of the total mass:
    a run of [2^22 + 1] zero bytes is encoded into an artifact whose total
    frequency mass is [2^22 + 1], above the bound [2^22]. *)
Lemma precision_bound_counterexample :
  exists a, weave_compression_spell insertion_order (repeat Byte.x00 (Z.to_nat (2 ^ 22 + 1)))
            = Some a
         /\ total_frequency_essence a = 2 ^ 22 + 1.
Proof.
  rewrite weave_zeros by (try exact insertion_order_ok; lia).
  eexists. split; [reflexivity|]. cbn [total_frequency_essence]. apply Z2Nat.id. lia.
Qed.

(** C3 (amended): the encoder never fails on account of the total mass: a
    run of [n < 2^32] zero bytes, in particular one longer than [2^22], is
    encoded into an artifact whose total frequency mass is [n]. *)
Theorem encode_without_mass_check (h : HashIter) (n : nat) :
  hash_iter_ok h -> Z.of_nat n < 2 ^ 32 ->
  exists a, weave_compression_spell h (repeat Byte.x00 n) = Some a
         /\ total_frequency_essence a = Z.of_nat n.
Proof.
  intros Hh Hn. destruct n as [|n].
  - cbn [repeat]. rewrite (weave_empty h Hh). eexists. split; reflexivity.
  - rewrite (weave_zeros h (S n) Hh) by lia. eexists. split; reflexivity.
Qed.

Lemma encode_without_mass_check_witness :
  (hash_iter_ok insertion_order /\ Z.of_nat (Z.to_nat (2 ^ 22 + 1)) < 2 ^ 32)
  /\ exists a, weave_compression_spell insertion_order
                 (repeat Byte.x00 (Z.to_nat (2 ^ 22 + 1))) = Some a
              /\ total_frequency_essence a = Z.of_nat (Z.to_nat (2 ^ 22 + 1)).
Proof.
  split; [split; [exact insertion_order_ok | rewrite Z2Nat.id; lia]|].
  apply encode_without_mass_check; [exact insertion_order_ok | rewrite Z2Nat.id; lia].
Defined.

(** C4: two admissible iteration orders of the word-count [HashMap] give
    different dictionaries for the 1000-byte text ["foo bar "] x 125: the
    candidates ["foo"] and ["bar"] have equal savings, and the sort by
    savings keeps the hash order between them. *)
Theorem dictionary_depends_on_hash_order :
  hash_iter_ok insertion_order /\ hash_iter_ok reversed_order
  /\ option_map mystical_word_grimoire (weave_compression_spell insertion_order foo_bar_text)
     = Some [foo_word; bar_word]
  /\ option_map mystical_word_grimoire (weave_compression_spell reversed_order foo_bar_text)
     = Some [bar_word; foo_word].
Proof.
  refine (conj insertion_order_ok (conj reversed_order_ok (conj _ _))); vm_compute; reflexivity.
Qed.

(** X1: the frequency analysis does not depend on the iteration order of
    its [HashMap]: the sort by symbol id makes it deterministic. *)
Theorem frequency_analysis_deterministic (h1 h2 : HashIter) (syms : list Z) :
  hash_iter_ok h1 -> hash_iter_ok h2 ->
  analyze_symbolic_frequencies h1 syms = analyze_symbolic_frequencies h2 syms.
Proof. intros H1 H2. exact (analyze_deterministic h1 h2 syms H1 H2). Qed.

Lemma frequency_analysis_deterministic_witness :
  (hash_iter_ok insertion_order /\ hash_iter_ok reversed_order)
  /\ analyze_symbolic_frequencies insertion_order [66; 65; 66]
     = analyze_symbolic_frequencies reversed_order [66; 65; 66].
Proof.
  split; [exact (conj insertion_order_ok reversed_order_ok)|].
  apply frequency_analysis_deterministic; [exact insertion_order_ok | exact reversed_order_ok].
Defined.

(** C7: the encoder's artifact of [giant_word_text] has the dictionary word
    of [2^32] letters; [compress_data] writes its length as [u32] [0], and
    [decompress_data] then reads the word's letters as the table size and
    runs past the end of the buffer, although the artifact itself decodes
    to the text. *)
Lemma serialization_roundtrip_counterexample :
  exists a, weave_compression_spell insertion_order giant_word_text = Some a
    /\ unweave_compression_spell a = Some giant_word_text
    /\ deserialize_artifact (serialize_artifact a) = None
    /\ decompress_data (serialize_artifact a) = None.
Proof.
  exists (word_a_artifact (Z.to_nat (2 ^ 32))). unfold giant_word_text.
  assert (H1 : (1000 <= Z.to_nat (2 ^ 32))%nat) by lia.
  assert (H2 : Z.of_nat (Z.to_nat (2 ^ 32)) < 2 ^ 60) by lia.
  assert (H3 : Z.of_nat (Z.to_nat (2 ^ 32)) = 2 ^ 32) by lia.
  split; [apply weave_word_a; assumption|].
  split; [apply unweave_word_a|].
  assert (Hd : deserialize_artifact (serialize_artifact (word_a_artifact (Z.to_nat (2 ^ 32))))
               = None) by (apply deserialize_word_a; assumption).
  split; [exact Hd|]. unfold decompress_data. rewrite Hd. reflexivity.
Qed.

(** C7 (amended): for an artifact produced by the encoder whose dictionary
    words, table and bitstream have fewer than [2^32] bytes or entries (so
    that their [u32] length fields do not wrap), parsing the serialised
    buffer gives back the artifact itself, and [decompress_data] of the
    buffer decodes exactly as the artifact does. *)
Theorem compress_decompress_roundtrip (h : HashIter) (x : list Byte.byte)
  (a : CompressionArtifact) :
  hash_iter_ok h -> Z.of_nat (length x) < 2 ^ 64 ->
  weave_compression_spell h x = Some a ->
  Forall (fun w => Z.of_nat (length w) < 2 ^ 32) (mystical_word_grimoire a) ->
  Z.of_nat (length (mystical_frequency_codex a)) < 2 ^ 32 ->
  Z.of_nat (length (compressed_bit_stream a)) < 2 ^ 32 ->
  deserialize_artifact (serialize_artifact a) = Some a
  /\ decompress_data (serialize_artifact a) = unweave_compression_spell a.
Proof.
  intros Hh Hx Hw Hwl Hne Hnd.
  destruct (weave_serializable_parts h x a Hh Hx Hw) as (Hascii & Hnw & Hes & Ht).
  assert (Hd : deserialize_artifact (serialize_artifact a) = Some a).
  { apply deserialize_serialize. repeat split; try assumption; try lia.
    apply Forall_forall. intros w Hin. split.
    - exact (proj1 (Forall_forall _ _) Hascii w Hin).
    - exact (proj1 (Forall_forall _ _) Hwl w Hin). }
  split; [exact Hd|]. unfold decompress_data. rewrite Hd. reflexivity.
Qed.

Lemma compress_decompress_roundtrip_witness :
  (hash_iter_ok insertion_order /\ Z.of_nat (length [Byte.x41; Byte.x42]) < 2 ^ 64
   /\ weave_compression_spell insertion_order [Byte.x41; Byte.x42] = Some ab_artifact)
  /\ deserialize_artifact (serialize_artifact ab_artifact) = Some ab_artifact
  /\ decompress_data (serialize_artifact ab_artifact) = Some [Byte.x41; Byte.x42].
Proof.
  assert (Hw : weave_compression_spell insertion_order [Byte.x41; Byte.x42] = Some ab_artifact)
    by (vm_compute; reflexivity).
  assert (Hx : Z.of_nat (length [Byte.x41; Byte.x42]) < 2 ^ 64) by (simpl; lia).
  split; [exact (conj insertion_order_ok (conj Hx Hw))|].
  destruct (compress_decompress_roundtrip insertion_order [Byte.x41; Byte.x42] ab_artifact
              insertion_order_ok Hx Hw) as [Hd Hu]; [apply Forall_nil|simpl; lia|simpl; lia|].
  split; [exact Hd|]. rewrite Hu. vm_compute. reflexivity.
Defined.

(** C1 (counterexample): the text [">\r\x17" ++ "1>"] followed by
    15896360 zero bytes has 15896365 symbols, more than [2^22]; after the
    second symbol the encoder's interval is empty ([low = high + 1]) and
    its renormalisation loop never stops, so no artifact is produced and
    nothing is decoded. *)
Lemma roundtrip_counterexample : roundtrip insertion_order diverging_text = None.
Proof.
  unfold roundtrip. rewrite (weave_diverging insertion_order insertion_order_ok). reflexivity.
Qed.

(** C5 (counterexample): on the same text the encoder reaches, after the
    narrowing for its second symbol, a state with [high < low]. *)
Lemma interval_invariant_counterexample :
  let syms := transform_manuscript_to_symbols diverging_text
                (discover_profitable_word_enchantments insertion_order diverging_text) in
  exists s rest, enc_visited (analyze_symbolic_frequencies insertion_order syms) syms s rest true
  /\ enc_high s < enc_low s.
Proof.
  intros syms.
  assert (E : syms = [62; 13; 23; 49; 62] ++ repeat 0 diverging_zeros) by apply diverging_symbols.
  clearbody syms. subst syms. rewrite (analyze_diverging insertion_order insertion_order_ok).
  destruct diverging_visited as (s & rest & Hv & Hemp).
  exists s, rest. split; [exact Hv|].
  destruct (enc_empty_intervalb_spec s Hemp) as [_ ->]. lia.
Qed.

(** C5 (amended): when the input has at most [2^22] bytes (so the table's
    total is at most [2^22]), every state the encoder visits, and every
    state the decoder visits on the artifact it produced, satisfies
    [0 <= low <= high <= 2^24 - 1]: at initialisation, after each
    narrowing and after each renormalisation iteration. *)
Theorem interval_invariant_bounded (h : HashIter) (x : list Byte.byte) :
  hash_iter_ok h -> Z.of_nat (length x) <= 2 ^ 22 ->
  (forall s rest b,
     enc_visited (analyze_symbolic_frequencies h
                    (transform_manuscript_to_symbols x (discover_profitable_word_enchantments h x)))
       (transform_manuscript_to_symbols x (discover_profitable_word_enchantments h x)) s rest b ->
     interval_ok (enc_low s) (enc_high s))
  /\ (forall a, weave_compression_spell h x = Some a ->
      forall d n b, dec_visited (mystical_frequency_codex a) (total_frequency_essence a)
                      (dec_init a) d n b ->
      interval_ok (dec_low d) (dec_high d)).
Proof.
  intros Hh Hx.
  set (syms := transform_manuscript_to_symbols x (discover_profitable_word_enchantments h x)).
  pose proof (transform_length_le x (discover_profitable_word_enchantments h x)) as Hl.
  fold syms in Hl.
  assert (Hs : Z.of_nat (length syms) < 2 ^ 64) by lia.
  destruct (analyze_table h syms Hh Hs) as (Ht & Htot & _).
  set (fa := analyze_symbolic_frequencies h syms) in *.
  assert (HT : total_frequency_mass fa <= 2 ^ 22) by lia.
  split.
  - intros s rest b Hv. pose proof (enc_visited_interval fa syms Ht HT s rest b Hv) as H.
    destruct b; [exact H|exact (interval_settled_ok _ _ H)].
  - intros a Hw d n b Hv. destruct (weave_tables h x a Hw) as [Hc Hto].
    fold syms fa in Hc, Hto. rewrite Hc, Hto in Hv.
    pose proof (dec_visited_interval _ _ _ Ht HT (dec_init_settled a) d n b Hv) as H.
    destruct b; [exact H|exact (interval_settled_ok _ _ H)].
Qed.

Lemma interval_invariant_bounded_witness :
  Z.of_nat (length [Byte.x41; Byte.x42]) <= 2 ^ 22
  /\ interval_ok (dec_low (dec_init ab_artifact)) (dec_high (dec_init ab_artifact)).
Proof.
  assert (Hx : Z.of_nat (length [Byte.x41; Byte.x42]) <= 2 ^ 22) by (simpl; lia).
  assert (Hw : weave_compression_spell insertion_order [Byte.x41; Byte.x42] = Some ab_artifact)
    by (vm_compute; reflexivity).
  split; [exact Hx|].
  apply (proj2 (interval_invariant_bounded insertion_order [Byte.x41; Byte.x42]
                  insertion_order_ok Hx) ab_artifact Hw (dec_init ab_artifact) 2%nat false).
  exact (dv_init _ _ _).
Defined.

(** C1 (amended): for every hash order and every byte sequence [x] of at
    most [2^22] bytes (so at most [2^22] symbols, the bound under which
    the 24-bit interval never degenerates), encoding [x] terminates and
    decoding the artifact gives back exactly [x]. *)
Theorem roundtrip_bounded (h : HashIter) (x : list Byte.byte) :
  hash_iter_ok h -> Z.of_nat (length x) <= 2 ^ 22 -> roundtrip h x = Some x.
Proof.
  intros Hh Hx.
  set (ws := discover_profitable_word_enchantments h x).
  set (syms := transform_manuscript_to_symbols x ws).
  set (fa := analyze_symbolic_frequencies h syms).
  pose proof (transform_length_le x ws) as Hl. fold syms in Hl.
  assert (Hs : Z.of_nat (length syms) < 2 ^ 64) by lia.
  destruct (analyze_table h syms Hh Hs) as (Ht & Htot & _). fold fa in Ht, Htot.
  assert (HT : total_frequency_mass fa <= 2 ^ 22) by lia.
  assert (Hall : forall k, In k syms -> exists e, find_by_symbol (frequency_entries fa) k = Some e)
    by (intros k Hk; exact (analyze_has_entry h syms k Hh Hs Hk)).
  destruct (encode_all_sim fa Ht HT syms enc_init 0 ltac:(lia) ltac:(lia) enc_init_inv Hall)
    as (sf & Ef & Hsf & Hsim).
  assert (Hcap : vec_u32_capacity_ok (total_frequency_mass fa) = true)
    by (unfold vec_u32_capacity_ok; apply Z.leb_le; lia).
  rewrite (roundtrip_of h x ws syms fa sf eq_refl eq_refl eq_refl Ef Hcap).
  set (a := {| mystical_frequency_codex := frequency_entries fa;
               total_frequency_essence := total_frequency_mass fa;
               compressed_bit_stream := complete_compression_ritual (enc_writer sf);
               mystical_word_grimoire := ws |}).
  assert (Hfin : enc_future (stream_bit (compressed_bit_stream a)) sf)
    by (apply (enc_future_final sf (0 + 24 * Z.of_nat (length syms))); [exact Hsf|lia]).
  destruct (Hsim _ Hfin) as [_ Hdec].
  replace (Z.to_nat (total_frequency_mass fa)) with (length syms)
    by (rewrite Htot; symmetry; apply Nat2Z.id).
  fold a. rewrite (Hdec (dec_init a) (mirrors_init a)).
  f_equal. unfold syms.
  destruct (discover_words_ascii h x Hh) as [_ Hn].
  unfold transform_manuscript_to_symbols.
  rewrite transform_loop_reconstruct; [reflexivity| | |lia].
  - intros w Hw. pose proof (discover_words_long h x Hh w Hw). destruct w; cbn in *; [lia|discriminate].
  - fold ws in Hn. lia.
Qed.

Lemma roundtrip_bounded_witness :
  Z.of_nat (length [Byte.x41; Byte.x42]) <= 2 ^ 22
  /\ roundtrip insertion_order [Byte.x41; Byte.x42] = Some [Byte.x41; Byte.x42].
Proof.
  assert (Hx : Z.of_nat (length [Byte.x41; Byte.x42]) <= 2 ^ 22) by (simpl; lia).
  split; [exact Hx|].
  exact (roundtrip_bounded insertion_order [Byte.x41; Byte.x42] insertion_order_ok Hx).
Defined.


(* ------------------------------------------------------------------ *)
(** * Further properties of the code *)

(** X2: [bit_plus_follow] behaves exactly as [output_bit]: its own follow loop never runs, because [output_bit] has already reset the pending count it reads. *)
Lemma bit_plus_follow_is_output_bit (w : BitMagicWriter) (b : Z) :
  bit_plus_follow w b = output_bit w b.
Proof. reflexivity. Qed.

(** X3: On a well-formed writer, [bit_plus_follow w b] appends the bit [b] followed by one opposite bit per pending bit, keeps the writer well formed and leaves no bits pending. *)
Lemma bit_plus_follow_emits (w : BitMagicWriter) (b : Z) :
  writer_ok w -> 0 <= b <= 1 ->
  writer_ok (bit_plus_follow w b)
  /\ writer_bits (bit_plus_follow w b)
     = writer_bits w ++ b :: repeat (1 - b) (Z.to_nat (pending_mystical_bits w))
  /\ pending_mystical_bits (bit_plus_follow w b) = 0.
Proof. apply bit_plus_follow_spec. Qed.

Lemma bit_plus_follow_emits_witness :
  writer_ok (with_pending conjure_new 2) /\ 0 <= 0 <= 1
  /\ writer_bits (bit_plus_follow (with_pending conjure_new 2) 0) = [0; 1; 1].
Proof.
  assert (Hw : writer_ok (with_pending conjure_new 2)) by (unfold writer_ok; cbn; lia).
  split; [exact Hw|]. split; [lia|].
  assert (Hb : 0 <= 0 <= 1) by lia.
  destruct (bit_plus_follow_emits (with_pending conjure_new 2) 0 Hw Hb) as (_ & H & _).
  rewrite H. reflexivity.
Defined.

(** X4: Finishing a well-formed writer (with pending + 1 below 2^32) emits its bits so far, a 1, pending + 1 zeros and fewer than 8 zero padding bits. *)
Lemma complete_ritual_layout (w : BitMagicWriter) :
  writer_ok w -> 0 <= pending_mystical_bits w -> pending_mystical_bits w + 1 < 2 ^ 32 ->
  exists pad, (pad < 8)%nat
  /\ bits_of_bytes (complete_compression_ritual w)
     = writer_bits w ++ 1 :: repeat 0 (Z.to_nat (pending_mystical_bits w) + 1 + pad).
Proof.
  intros Hw Hp0 Hp1. unfold complete_compression_ritual.
  assert (Hu : u32_of (pending_mystical_bits w + 1) = pending_mystical_bits w + 1)
    by (unfold u32_of; apply Z.mod_small; lia).
  cbn [with_pending pending_mystical_bits]. rewrite Hu.
  destruct (Z.ltb_spec 0 (pending_mystical_bits w + 1)) as [_|]; [|lia].
  set (w1 := with_pending w (pending_mystical_bits w + 1)).
  assert (Hw1 : writer_ok w1) by exact Hw.
  destruct (bit_plus_follow_spec w1 1 Hw1 ltac:(lia)) as (Hw2 & Hb2 & _).
  set (w2 := bit_plus_follow w1 1) in *.
  replace (writer_bits w1) with (writer_bits w) in Hb2 by reflexivity.
  replace (1 - 1) with 0 in Hb2 by lia.
  assert (Hp : Z.to_nat (pending_mystical_bits w1) = (Z.to_nat (pending_mystical_bits w) + 1)%nat)
    by (cbn [w1 with_pending pending_mystical_bits]; lia).
  rewrite Hp in Hb2.
  destruct Hw2 as [Hn Hc].
  unfold writer_bits in Hb2.
  destruct (Z.ltb_spec 0 (bits_brewing_count w2)).
  - exists (Z.to_nat (8 - bits_brewing_count w2)). split; [lia|].
    unfold bits_of_bytes. rewrite flat_map_app. fold (bits_of_bytes (mystical_output_scroll w2)).
    cbn [flat_map]. rewrite app_nil_r, byte_val_byte_of.
    assert (Hsh : Z.shiftl (bit_accumulation_cauldron w2) (8 - bits_brewing_count w2)
                  = bit_accumulation_cauldron w2 * 2 ^ Z.of_nat (Z.to_nat (8 - bits_brewing_count w2)))
      by (rewrite Z.shiftl_mul_pow2 by lia; rewrite Z2Nat.id by lia; reflexivity).
    assert (Hlt : bit_accumulation_cauldron w2 * 2 ^ (8 - bits_brewing_count w2) < 2 ^ 8).
    { replace (2 ^ 8) with (2 ^ bits_brewing_count w2 * 2 ^ (8 - bits_brewing_count w2))
        by (rewrite <- Z.pow_add_r by lia; f_equal; lia).
      apply Z.mul_lt_mono_pos_r; [apply Z.pow_pos_nonneg; lia|lia]. }
    assert (Hv : u8_of (bit_accumulation_cauldron w2 * 2 ^ Z.of_nat (Z.to_nat (8 - bits_brewing_count w2)))
                 = bit_accumulation_cauldron w2 * 2 ^ Z.of_nat (Z.to_nat (8 - bits_brewing_count w2))).
    { rewrite Z2Nat.id by lia. unfold u8_of. apply Z.mod_small. split; [|exact Hlt].
      apply Z.mul_nonneg_nonneg; [lia|apply Z.pow_nonneg; lia]. }
    rewrite Hsh, Hv.
    replace 8%nat with (Z.to_nat (8 - bits_brewing_count w2) + Z.to_nat (bits_brewing_count w2))%nat
      at 1 by lia.
    rewrite Hv, bits_n_shift, app_assoc, Hb2.
    rewrite (repeat_app 0 (Z.to_nat (pending_mystical_bits w) + 1)).
    rewrite <- app_assoc. reflexivity.
  - exists 0%nat. split; [lia|]. rewrite Nat.add_0_r.
    replace (Z.to_nat (bits_brewing_count w2)) with 0%nat in Hb2 by lia.
    cbn [bits_n] in Hb2. rewrite app_nil_r in Hb2. exact Hb2.
Qed.

Lemma complete_ritual_layout_witness :
  writer_ok (with_pending conjure_new 2) /\ 0 <= pending_mystical_bits (with_pending conjure_new 2)
  /\ pending_mystical_bits (with_pending conjure_new 2) + 1 < 2 ^ 32
  /\ exists pad, (pad < 8)%nat
     /\ bits_of_bytes (complete_compression_ritual (with_pending conjure_new 2))
        = 1 :: repeat 0 (3 + pad).
Proof.
  assert (Hw : writer_ok (with_pending conjure_new 2)) by (unfold writer_ok; cbn; lia).
  assert (H0 : 0 <= pending_mystical_bits (with_pending conjure_new 2)) by (cbn; lia).
  assert (H1 : pending_mystical_bits (with_pending conjure_new 2) + 1 < 2 ^ 32) by (cbn; lia).
  split; [exact Hw|]. split; [exact H0|]. split; [exact H1|].
  exact (complete_ritual_layout (with_pending conjure_new 2) Hw H0 H1).
Defined.

(** X5: Reading a bit from a reader positioned at bit k of a byte stream returns bit k of the stream (MSB first, 0 past the end) and advances the reader to bit k + 1. *)
Lemma read_bit_next (scroll : list Byte.byte) (k : nat) (t : Z) :
  read_bit (reader_at scroll k t)
  = (nth k (bits_of_bytes scroll) 0, reader_at scroll (S k) t).
Proof. rewrite read_bit_at, stream_bit_nth. reflexivity. Qed.

(** X6: A fresh reader holds the first three bytes of the stream big-endian in its 24-bit window (missing bytes read as 0), with byte position min 3 len and bit position 0. *)
Lemma conjure_reads_first_three_bytes (scroll : list Byte.byte) :
  interval_position_tracker (conjure_from_scroll scroll)
  = byte_val (nth 0 scroll Byte.x00) * 2 ^ 16 + byte_val (nth 1 scroll Byte.x00) * 2 ^ 8
    + byte_val (nth 2 scroll Byte.x00)
  /\ byte_pos (conjure_from_scroll scroll) = Nat.min 3 (length scroll)
  /\ bit_pos (conjure_from_scroll scroll) = 0.
Proof.
  rewrite conjure_at. unfold reader_at.
  cbn [interval_position_tracker byte_pos bit_pos].
  split; [|split].
  - change 24%nat with (8 + 16)%nat. rewrite win_split.
    change 16%nat with (8 + 8)%nat at 2. rewrite win_split.
    rewrite <- (win_stream_byte scroll 0), <- (win_stream_byte scroll 1),
      <- (win_stream_byte scroll 2). cbn [Nat.mul Nat.add]. change (Z.of_nat 16) with 16. change (Z.of_nat 8) with 8. ring.
  - destruct (Nat.le_ge_cases 3 (length scroll)).
    + rewrite !Nat.min_l by lia. reflexivity.
    + rewrite !Nat.min_r by lia. rewrite Nat.mul_comm, Nat.div_mul by lia. reflexivity.
  - destruct (Nat.le_ge_cases 3 (length scroll)).
    + rewrite Nat.min_l by lia. reflexivity.
    + rewrite Nat.min_r by lia. rewrite Nat.mul_comm, Nat.Div0.mod_mul. reflexivity.
Qed.

(** X7: From a valid encoder state with pending + 25 below 2^32, the encoder renormalization loop stops, leaves the interval settled, keeps the writer well formed and only appends bits to its output. *)
Lemma enc_normalize_settles (s : EncState) :
  enc_ok s -> pending_mystical_bits (enc_writer s) + 25 < 2 ^ 32 ->
  exists s' suffix, enc_normalize s = Some s'
  /\ interval_settled (enc_low s') (enc_high s')
  /\ writer_ok (enc_writer s')
  /\ writer_bits (enc_writer s') = writer_bits (enc_writer s) ++ suffix.
Proof.
  intros Hok Hp. set (p0 := pending_mystical_bits (enc_writer s)).
  assert (Hp0 : 0 <= p0) by (unfold p0; destruct Hok as (_ & H & _); exact H).
  assert (Hinv : enc_loop_inv p0 s).
  { split; [exact Hok|]. exists 0. split; [lia|]. split; [unfold p0; lia|].
    destruct Hok as (_ & _ & Hi). unfold interval_ok in Hi. cbn. lia. }
  destruct (enc_loop_runs p0 s Hp0 Hp Hinv) as (s' & E & (Hok' & _) & Hset).
  set (Q := fun a => enc_loop_inv p0 a /\ exists suf, enc_bits a = enc_bits s ++ suf).
  assert (Hstep : forall a a', Q a -> enc_normalize_body a = Running a' -> Q a').
  { intros a a' [Ha (suf & Hsuf)] Ea.
    destruct (enc_loop_step p0 a a' Hp0 Hp Ha Ea) as [Ha' K]. split; [exact Ha'|].
    destruct K as [_ Hb _ _ _|_ Hb _ _ _|_ _ _ _ Hb _ _ _]; rewrite Hb, Hsuf.
    - eexists. rewrite <- app_assoc. reflexivity.
    - eexists. rewrite <- app_assoc. reflexivity.
    - exists suf. reflexivity. }
  assert (Hstop : forall a a', Q a -> enc_normalize_body a = Finished a' -> Q a').
  { intros a a' Ha Ea. rewrite (enc_loop_stop _ _ Ea). exact Ha. }
  assert (HQ : Q s) by (split; [exact Hinv|exists []; rewrite app_nil_r; reflexivity]).
  destruct (loop_pow_finished enc_normalize_body Q Q Hstep Hstop Hstop 64 s s' HQ E)
    as [_ (suf & Hsuf)].
  exists s', suf. unfold enc_normalize, run_loop. rewrite E.
  split; [reflexivity|]. split; [exact Hset|]. split; [exact (proj1 Hok')|exact Hsuf].
Qed.

Lemma enc_normalize_settles_witness :
  let s := {| enc_writer := conjure_new; enc_low := 6291456; enc_high := 6291457 |} in
  enc_ok s /\ pending_mystical_bits (enc_writer s) + 25 < 2 ^ 32
  /\ (exists s' suffix, enc_normalize s = Some s'
      /\ interval_settled (enc_low s') (enc_high s')
      /\ writer_ok (enc_writer s')
      /\ writer_bits (enc_writer s') = writer_bits (enc_writer s) ++ suffix)
  /\ option_map (fun s' => (enc_low s', enc_high s', length (writer_bits (enc_writer s'))))
       (enc_normalize s) = Some (0, ARITHMETIC_PRECISION_LIMIT, 23%nat).
Proof.
  intros s.
  assert (H0 : enc_ok s)
    by (unfold enc_ok, writer_ok, interval_ok, ARITHMETIC_PRECISION_LIMIT; cbn; lia).
  assert (H1 : pending_mystical_bits (enc_writer s) + 25 < 2 ^ 32) by (cbn; lia).
  split; [exact H0|]. split; [exact H1|].
  split; [exact (enc_normalize_settles s H0 H1)|]. vm_compute. reflexivity.
Defined.

(** X8: From any decoder state with a valid interval, the decoder renormalization loop stops and leaves the interval settled. *)
Lemma dec_normalize_settles (d : DecState) :
  interval_ok (dec_low d) (dec_high d) ->
  exists d', dec_normalize d = Some d' /\ interval_settled (dec_low d') (dec_high d').
Proof.
  intros Hd. set (P := fun a => interval_ok (dec_low a) (dec_high a)).
  assert (Hstep : forall a a', P a -> dec_normalize_body a = Running a' -> P a').
  { intros a a' Ha E. pose proof (dec_body_interval a) as Hb. rewrite E in Hb.
    exact (proj1 (norm_step_ok _ _ _ _ Ha Hb)). }
  assert (Hstop : forall a a', P a -> dec_normalize_body a = Finished a' -> P a').
  { intros a a' Ha E. pose proof (dec_body_interval a) as Hb. rewrite E in Hb.
    destruct Hb as [-> _]. exact Ha. }
  assert (Hset : forall a a', P a -> dec_normalize_body a = Finished a' ->
                 interval_settled (dec_low a') (dec_high a')).
  { intros a a' Ha E. pose proof (dec_body_interval a) as Hb. rewrite E in Hb.
    destruct Hb as [-> Hn]. exact (norm_step_settled _ _ Ha Hn). }
  assert (Hpos : forall a, P a -> 0 <= dec_measure a).
  { intros a Ha. unfold P, interval_ok in Ha. unfold dec_measure. coder_constants. lia. }
  assert (Hdec : forall a a', P a -> dec_normalize_body a = Running a' ->
                 P a' /\ dec_measure a' + 1 <= dec_measure a).
  { intros a a' Ha E. pose proof (dec_body_interval a) as Hb. rewrite E in Hb.
    destruct (norm_step_ok _ _ _ _ Ha Hb) as [Ha' HR]. split; [exact Ha'|].
    unfold P, interval_ok in Ha. unfold dec_measure. lia. }
  pose proof (loop_pow_measure dec_normalize_body P dec_measure Hdec Hpos 64 d Hd) as Hm.
  unfold dec_normalize, run_loop.
  destruct (loop_pow dec_normalize_body 64 d) as [d'|d'] eqn:E.
  - exists d'. split; [reflexivity|].
    exact (loop_pow_finished _ P _ Hstep Hstop Hset 64 d d' Hd E).
  - exfalso. destruct Hm as [Hd' Hm]. pose proof (Hpos d Hd). pose proof (Hpos d' Hd').
    unfold dec_measure in *. unfold P, interval_ok in Hd. coder_constants.
    change (2 ^ Z.of_nat 64) with (2 ^ 64) in Hm. lia.
Qed.

Lemma dec_normalize_settles_witness :
  let d := {| dec_reader := conjure_from_scroll [Byte.x5a; Byte.x3c; Byte.x96; Byte.xe1];
              dec_low := 6291456; dec_high := 6291457 |} in
  interval_ok (dec_low d) (dec_high d)
  /\ (exists d', dec_normalize d = Some d' /\ interval_settled (dec_low d') (dec_high d'))
  /\ option_map (fun d' => (dec_low d', dec_high d')) (dec_normalize d)
     = Some (0, ARITHMETIC_PRECISION_LIMIT).
Proof.
  intros d.
  assert (H : interval_ok (dec_low d) (dec_high d))
    by (unfold interval_ok, ARITHMETIC_PRECISION_LIMIT; cbn; lia).
  split; [exact H|]. split; [exact (dec_normalize_settles _ H)|].
  vm_compute. reflexivity.
Defined.

(** X9: Narrowing a settled interval by a symbol range [cs, cs + c) of a total T <= 2^22 gives the scaled sub-interval, which is non-empty and nested in the old one. *)
Lemma narrow_interval_nested (low high cs c T : Z) :
  interval_settled low high -> 0 <= cs -> 1 <= c -> cs + c <= T -> T <= 2 ^ 22 ->
  let '(low', high') := narrow_interval low high (u32_of cs) (u32_of (u64_of (cs + c))) T in
  low' = low + (high - low + 1) * cs / T
  /\ high' = low + (high - low + 1) * (cs + c) / T - 1
  /\ low <= low' /\ low' <= high' /\ high' <= high.
Proof.
  intros Hs Hcs Hc HcT HT.
  destruct (narrow_interval_settled low high cs c T Hs Hcs Hc HcT HT) as (E & H1 & H2 & H3).
  rewrite E. split; [reflexivity|]. split; [reflexivity|]. lia.
Qed.

Lemma narrow_interval_nested_witness :
  interval_settled 0 ARITHMETIC_PRECISION_LIMIT /\ 0 <= 1 /\ 1 <= 2 /\ 1 + 2 <= 4 /\ 4 <= 2 ^ 22
  /\ narrow_interval 0 ARITHMETIC_PRECISION_LIMIT (u32_of 1) (u32_of (u64_of (1 + 2))) 4
     = (4194304, 12582911).
Proof.
  assert (H : interval_settled 0 ARITHMETIC_PRECISION_LIMIT)
    by (unfold interval_settled; coder_constants; lia).
  assert (Ha : 0 <= 1) by lia. assert (Hb : 1 <= 2) by lia.
  assert (Hc : 1 + 2 <= 4) by lia. assert (Hd : 4 <= 2 ^ 22) by lia.
  refine (conj H (conj Ha (conj Hb (conj Hc (conj Hd _))))).
  pose proof (narrow_interval_nested 0 ARITHMETIC_PRECISION_LIMIT 1 2 4 H Ha Hb Hc Hd) as N.
  destruct (narrow_interval _ _ _ _ _) as [l h]. destruct N as (-> & -> & _).
  reflexivity.
Defined.

(** X10: If the reader window lies in the sub-interval of a symbol range [cs, cs + c) of a settled interval, the decoded cumulative target lies in [cs, cs + c). *)
Lemma decode_target_locates (r : BitMagicReader) (low high cs c T : Z) :
  interval_settled low high -> 0 <= cs -> 1 <= c -> cs + c <= T -> T <= 2 ^ 22 ->
  low + (high - low + 1) * cs / T <= interval_position_tracker r
  <= low + (high - low + 1) * (cs + c) / T - 1 ->
  exists t, decode_mystical_target r T low high = Some t /\ cs <= t < cs + c.
Proof. apply decode_target_in. Qed.

Lemma decode_target_locates_witness :
  let r := conjure_from_scroll [Byte.x80] in
  interval_settled 0 ARITHMETIC_PRECISION_LIMIT /\ 0 <= 1 /\ 1 <= 1 /\ 1 + 1 <= 2 /\ 2 <= 2 ^ 22
  /\ 0 + (ARITHMETIC_PRECISION_LIMIT - 0 + 1) * 1 / 2 <= interval_position_tracker r
     <= 0 + (ARITHMETIC_PRECISION_LIMIT - 0 + 1) * (1 + 1) / 2 - 1
  /\ exists t, decode_mystical_target r 2 0 ARITHMETIC_PRECISION_LIMIT = Some t /\ 1 <= t < 1 + 1.
Proof.
  intros r.
  assert (H : interval_settled 0 ARITHMETIC_PRECISION_LIMIT)
    by (unfold interval_settled; coder_constants; lia).
  assert (Ha : 0 <= 1) by lia. assert (Hb : 1 <= 1) by lia.
  assert (Hc : 1 + 1 <= 2) by lia. assert (Hd : 2 <= 2 ^ 22) by lia.
  assert (He : 0 + (ARITHMETIC_PRECISION_LIMIT - 0 + 1) * 1 / 2 <= interval_position_tracker r
               <= 0 + (ARITHMETIC_PRECISION_LIMIT - 0 + 1) * (1 + 1) / 2 - 1)
    by (vm_compute; split; discriminate).
  refine (conj H (conj Ha (conj Hb (conj Hc (conj Hd (conj He _)))))).
  exact (decode_target_locates r 0 ARITHMETIC_PRECISION_LIMIT 1 1 2 H Ha Hb Hc Hd He).
Defined.

(** X11: In a cumulative frequency table starting at 0 with total T < 2^32, every target t in [0, T) is resolved to the symbol of a table entry whose range contains t. *)
Lemma resolve_symbol_in_table (es : list (Z * Z * Z)) (total t : Z) :
  table_from 0 es total -> total < 2 ^ 32 -> 0 <= t < total ->
  exists e, In e es /\ entry_start e <= t < entry_start e + entry_count e
  /\ resolve_symbol es t = entry_symbol e.
Proof.
  intros Ht HT Hr. destruct (table_from_cover es 0 total t Ht Hr) as (e & Hin & He).
  exists e. split; [exact Hin|]. split; [exact He|].
  unfold resolve_symbol. rewrite (table_find_range es 0 total e t Ht ltac:(lia) HT Hin He).
  reflexivity.
Qed.

Lemma resolve_symbol_in_table_witness :
  table_from 0 (mystical_frequency_codex ab_artifact) (total_frequency_essence ab_artifact)
  /\ total_frequency_essence ab_artifact < 2 ^ 32
  /\ 0 <= 1 < total_frequency_essence ab_artifact
  /\ exists e, In e (mystical_frequency_codex ab_artifact)
     /\ entry_start e <= 1 < entry_start e + entry_count e
     /\ resolve_symbol (mystical_frequency_codex ab_artifact) 1 = entry_symbol e.
Proof.
  assert (H0 : table_from 0 (mystical_frequency_codex ab_artifact)
                 (total_frequency_essence ab_artifact)) by (cbn; lia).
  assert (H1 : total_frequency_essence ab_artifact < 2 ^ 32) by (cbn; lia).
  assert (H2 : 0 <= 1 < total_frequency_essence ab_artifact) by (cbn; lia).
  split; [exact H0|]. split; [exact H1|]. split; [exact H2|].
  exact (resolve_symbol_in_table _ _ 1 H0 H1 H2).
Defined.

(** X12: With fewer than 2^32 - 256 dictionary words, every symbol of the substitution is a byte value 0..255 or a reference 256 + i to an existing dictionary word i. *)
Lemma transform_references_valid (bs : list Byte.byte) (ws : list (list Byte.byte)) :
  Z.of_nat (length ws) < 2 ^ 32 - 256 ->
  Forall (fun s => 0 <= s <= 255 \/ (256 <= s /\ (Z.to_nat (s - 256) < length ws)%nat))
    (transform_manuscript_to_symbols bs ws).
Proof.
  intros Hws. unfold transform_manuscript_to_symbols.
  generalize (length bs) 0%nat. intros fuel. induction fuel as [|fuel IH]; intros pos;
    cbn [transform_loop]; [constructor|].
  destruct (pos <? length bs)%nat; [|constructor].
  pose proof (transform_step_spec bs ws pos) as Hs.
  destruct (transform_step bs ws pos) as [sym pos'].
  constructor; [|apply IH].
  destruct Hs as [[-> _]|(k & w & Hk & -> & _)].
  - left. apply byte_val_range.
  - assert (Hlt : (k < length ws)%nat) by (apply nth_error_Some; congruence).
    right. rewrite reference_symbol_small by lia. split; [lia|].
    rewrite Z.add_simpl_l, Nat2Z.id. exact Hlt.
Qed.

Lemma transform_references_valid_witness :
  Z.of_nat (length [the_word]) < 2 ^ 32 - 256
  /\ Forall (fun s => 0 <= s <= 255 \/ (256 <= s /\ (Z.to_nat (s - 256) < length [the_word])%nat))
       (transform_manuscript_to_symbols theme_text [the_word]).
Proof.
  assert (H : Z.of_nat (length [the_word]) < 2 ^ 32 - 256) by (cbn; lia).
  split; [exact H|]. exact (transform_references_valid theme_text [the_word] H).
Defined.

(** X14: The discovered dictionary has at most 25 words, each at least 3 bytes long and made of ASCII bytes, for every HashMap iteration order. *)
Lemma dictionary_shape (h : HashIter) (x : list Byte.byte) :
  hash_iter_ok h ->
  (length (discover_profitable_word_enchantments h x) <= 25)%nat
  /\ Forall (fun w => (3 <= length w)%nat /\ forallb ascii_byte w = true)
       (discover_profitable_word_enchantments h x).
Proof.
  intros Hh. destruct (discover_words_ascii h x Hh) as [Ha Hl].
  split; [exact Hl|]. apply Forall_forall. intros w Hw. split.
  - exact (discover_words_long h x Hh w Hw).
  - exact (proj1 (Forall_forall _ _) Ha w Hw).
Qed.

Lemma dictionary_shape_witness :
  hash_iter_ok insertion_order
  /\ (length (discover_profitable_word_enchantments insertion_order foo_bar_text) <= 25)%nat
  /\ Forall (fun w => (3 <= length w)%nat /\ forallb ascii_byte w = true)
       (discover_profitable_word_enchantments insertion_order foo_bar_text).
Proof.
  split; [exact insertion_order_ok|]. exact (dictionary_shape _ _ insertion_order_ok).
Defined.

(** X15: The discovered dictionary has no duplicate word, and each of its words occurs more than 3 times among the words counted from the input, for every HashMap iteration order. *)
Lemma dictionary_distinct_frequent (h : HashIter) (x : list Byte.byte) :
  hash_iter_ok h ->
  NoDup (discover_profitable_word_enchantments h x)
  /\ forall w, In w (discover_profitable_word_enchantments h x) ->
     exists f, In (w, f) (tokenize_words (lossy_chars x) [] []) /\ 3 < f.
Proof.
  intros [Hw _]. unfold discover_profitable_word_enchantments.
  destruct (length x <? MIN_DISCOVERY_LEN)%nat; [split; [constructor|intros w []]|].
  set (alm := tokenize_words (lossy_chars x) [] []).
  assert (Hnd : NoDup (map fst (iter_words h alm))).
  { apply (Permutation_NoDup (l := map fst alm)).
    - symmetry. apply Permutation_map. apply Hw.
    - apply tokenize_words_nodup. constructor. }
  destruct (profitable_candidates_nodup _ Hnd) as [H1 H2].
  set (cands := flat_map _ (iter_words h alm)) in *.
  set (sorted := sort_stable _ cands).
  assert (Hps : Permutation sorted cands) by apply sort_stable_perm.
  assert (Hs : NoDup (map (fun c => fst (fst c)) sorted)).
  { apply (Permutation_NoDup (l := map (fun c => fst (fst c)) cands)); [|exact H1].
    symmetry. now apply Permutation_map. }
  split.
  - rewrite <- (firstn_skipn MAX_GRIMOIRE_WORDS sorted) in Hs.
    rewrite map_app in Hs. exact (NoDup_app_remove_r _ _ Hs).
  - intros w Hin. apply in_map_iff in Hin as (c & <- & Hc).
    apply in_firstn, (Permutation_in _ Hps) in Hc.
    destruct (H2 c Hc) as (f & Hf & Hlt). exists f. split; [|exact Hlt].
    apply (Permutation_in _ (Hw _)) in Hf. exact Hf.
Qed.

Lemma dictionary_distinct_frequent_witness :
  hash_iter_ok insertion_order
  /\ NoDup (discover_profitable_word_enchantments insertion_order foo_bar_text)
  /\ forall w, In w (discover_profitable_word_enchantments insertion_order foo_bar_text) ->
     exists f, In (w, f) (tokenize_words (lossy_chars foo_bar_text) [] []) /\ 3 < f.
Proof.
  split; [exact insertion_order_ok|]. exact (dictionary_distinct_frequent _ _ insertion_order_ok).
Defined.

(** X16: The frequency table has an entry for each distinct symbol of the input, each entry counts exactly the occurrences of its symbol, and the total mass is the number of symbols. *)
Lemma frequency_counts_exact (h : HashIter) (syms : list Z) :
  hash_iter_ok h -> Z.of_nat (length syms) < 2 ^ 64 ->
  let fa := analyze_symbolic_frequencies h syms in
  (forall e, In e (frequency_entries fa) ->
     In (entry_symbol e) syms /\ entry_count e = occurrences (entry_symbol e) syms)
  /\ (forall k, In k syms -> exists e, In e (frequency_entries fa) /\ entry_symbol e = k)
  /\ total_frequency_mass fa = Z.of_nat (length syms).
Proof.
  intros Hh Hlen fa.
  destruct (analysis_pairs_spec h syms Hh Hlen) as (_ & _ & H3 & H4 & _).
  destruct (analyze_table h syms Hh Hlen) as (_ & Htot & _).
  unfold fa. rewrite analyze_unfold. cbn [frequency_entries total_frequency_mass].
  split; [|split].
  - intros e He. apply cumulate_entries in He. exact (H3 _ _ He).
  - intros k Hk. apply H4 in Hk. rewrite <- (cumulate_symbols 0) in Hk.
    apply in_map_iff in Hk. destruct Hk as (e & He & Hin). exists e. auto.
  - rewrite analyze_unfold in Htot. exact Htot.
Qed.

Lemma frequency_counts_exact_witness :
  hash_iter_ok reversed_order /\ Z.of_nat (length [65; 66; 65]) < 2 ^ 64
  /\ let fa := analyze_symbolic_frequencies reversed_order [65; 66; 65] in
     (forall e, In e (frequency_entries fa) ->
        In (entry_symbol e) [65; 66; 65]
        /\ entry_count e = occurrences (entry_symbol e) [65; 66; 65])
     /\ (forall k, In k [65; 66; 65] ->
           exists e, In e (frequency_entries fa) /\ entry_symbol e = k)
     /\ total_frequency_mass fa = Z.of_nat (length [65; 66; 65]).
Proof.
  assert (H : Z.of_nat (length [65; 66; 65]) < 2 ^ 64) by (cbn; lia).
  split; [exact reversed_order_ok|]. split; [exact H|].
  exact (frequency_counts_exact reversed_order [65; 66; 65] reversed_order_ok H).
Defined.

(** X17: The serialized artifact has length 20 + sum over words of (4 + word length) + 20 per table entry + the bitstream length. *)
Lemma compressed_layout_length (a : CompressionArtifact) :
  length (serialize_artifact a)
  = (20 + fold_right (fun w n => 4 + length w + n)%nat 0%nat (mystical_word_grimoire a)
     + 20 * length (mystical_frequency_codex a) + length (compressed_bit_stream a))%nat.
Proof.
  unfold serialize_artifact. rewrite !length_app, !length_le_bytes,
    length_flat_map_serialize_word, length_flat_map_serialize_entry. lia.
Qed.

(** X18: An input shorter than 20 bytes cannot be deserialized, and decompress_data fails on it. *)
Lemma decompress_short_input (buf : list Byte.byte) :
  (length buf < 20)%nat -> deserialize_artifact buf = None /\ decompress_data buf = None.
Proof.
  intros Hl.
  assert (Hd : deserialize_artifact buf = None).
  { unfold deserialize_artifact.
    destruct (read_le 4 buf 0) as [[wc c0]|] eqn:E0; [|reflexivity].
    destruct (read_words _ buf c0) as [[ws c1]|] eqn:E1; [|reflexivity].
    destruct (read_le 4 buf c1) as [[fc c2]|] eqn:E2; [|reflexivity].
    destruct (read_entries _ buf c2) as [[es c3]|] eqn:E3; [|reflexivity].
    destruct (read_le 8 buf c3) as [[t c4]|] eqn:E4; [|reflexivity].
    destruct (read_le 4 buf c4) as [[cl c5]|] eqn:E5; [|reflexivity].
    exfalso.
    apply read_le_cursor in E0 as [-> _]. apply read_words_cursor in E1.
    apply read_le_cursor in E2 as [-> _]. apply read_entries_cursor in E3.
    apply read_le_cursor in E4 as [-> _]. apply read_le_cursor in E5 as [-> H5].
    lia. }
  split; [exact Hd|]. unfold decompress_data. rewrite Hd. reflexivity.
Qed.

Lemma decompress_short_input_witness :
  (length (repeat Byte.x00 19) < 20)%nat
  /\ deserialize_artifact (repeat Byte.x00 19) = None
  /\ decompress_data (repeat Byte.x00 19) = None.
Proof.
  assert (H : (length (repeat Byte.x00 19) < 20)%nat) by (cbn; lia).
  split; [exact H|]. exact (decompress_short_input _ H).
Defined.

(** X19: Under the u32/u64 range conditions, deserializing a serialized artifact returns it with each dictionary word replaced by its lossy UTF-8 decoding; words need not be valid UTF-8. *)
Lemma serialization_roundtrip_lossy (a : CompressionArtifact) :
  Forall (fun w => Z.of_nat (length w) < 2 ^ 32) (mystical_word_grimoire a) ->
  Z.of_nat (length (mystical_word_grimoire a)) < 2 ^ 32 ->
  Forall entry_serializable (mystical_frequency_codex a) ->
  Z.of_nat (length (mystical_frequency_codex a)) < 2 ^ 32 ->
  0 <= total_frequency_essence a < 2 ^ 64 ->
  Z.of_nat (length (compressed_bit_stream a)) < 2 ^ 32 ->
  deserialize_artifact (serialize_artifact a)
  = Some {| mystical_frequency_codex := mystical_frequency_codex a;
            total_frequency_essence := total_frequency_essence a;
            compressed_bit_stream := compressed_bit_stream a;
            mystical_word_grimoire := map from_utf8_lossy (mystical_word_grimoire a) |}.
Proof.
  destruct a as [es total data ws].
  cbn [mystical_word_grimoire mystical_frequency_codex total_frequency_essence
    compressed_bit_stream].
  intros Hws Hnw Hes Hne Ht Hnd.
  unfold deserialize_artifact, serialize_artifact. cbn [mystical_word_grimoire
    mystical_frequency_codex total_frequency_essence compressed_bit_stream].
  rewrite !u32_of_length by assumption.
  set (buf := le_bytes 4 (Z.of_nat (length ws)) ++ flat_map serialize_word ws
    ++ le_bytes 4 (Z.of_nat (length es)) ++ flat_map serialize_entry es
    ++ le_bytes 8 total ++ le_bytes 4 (Z.of_nat (length data)) ++ data).
  erewrite (read_le_at 4 buf [] _ 0 (Z.of_nat (length ws)));
    [| unfold buf; reflexivity | reflexivity | simpl; lia].
  cbv beta iota. rewrite Nat2Z.id. cbn [Nat.add].
  pose proof (read_words_lossy ws Hws buf (le_bytes 4 (Z.of_nat (length ws)))
             (le_bytes 4 (Z.of_nat (length es)) ++ flat_map serialize_entry es
              ++ le_bytes 8 total ++ le_bytes 4 (Z.of_nat (length data)) ++ data)
             eq_refl) as Hrw.
  rewrite length_le_bytes in Hrw. rewrite Hrw. cbv beta iota.
  set (c1 := (4 + length (flat_map serialize_word ws))%nat).
  erewrite (read_le_at 4 buf (le_bytes 4 (Z.of_nat (length ws)) ++ flat_map serialize_word ws)
             _ c1 (Z.of_nat (length es)));
    [| unfold buf; rewrite <- !app_assoc; reflexivity
     | unfold c1; rewrite length_app, length_le_bytes; reflexivity | simpl; lia].
  cbv beta iota. rewrite Nat2Z.id.
  replace (c1 + 4)%nat with (length (le_bytes 4 (Z.of_nat (length ws))
      ++ flat_map serialize_word ws ++ le_bytes 4 (Z.of_nat (length es))))
    by (unfold c1; rewrite !length_app, !length_le_bytes; lia).
  rewrite (read_entries_serialized es Hes buf _
             (le_bytes 8 total ++ le_bytes 4 (Z.of_nat (length data)) ++ data))
    by (unfold buf; rewrite <- !app_assoc; reflexivity).
  cbv beta iota.
  erewrite (read_le_at 8 buf (le_bytes 4 (Z.of_nat (length ws))
      ++ flat_map serialize_word ws ++ le_bytes 4 (Z.of_nat (length es))
      ++ flat_map serialize_entry es) _ _ total);
    [| unfold buf; rewrite <- !app_assoc; reflexivity
     | rewrite !length_app; lia | simpl; lia].
  cbv beta iota.
  erewrite (read_le_at 4 buf (le_bytes 4 (Z.of_nat (length ws))
      ++ flat_map serialize_word ws ++ le_bytes 4 (Z.of_nat (length es))
      ++ flat_map serialize_entry es ++ le_bytes 8 total) data _ (Z.of_nat (length data)));
    [| unfold buf; rewrite <- !app_assoc; reflexivity
     | rewrite !length_app, !length_le_bytes; lia | simpl; lia].
  cbv beta iota. rewrite Nat2Z.id.
  rewrite (read_slice_at buf (le_bytes 4 (Z.of_nat (length ws))
      ++ flat_map serialize_word ws ++ le_bytes 4 (Z.of_nat (length es))
      ++ flat_map serialize_entry es ++ le_bytes 8 total
      ++ le_bytes 4 (Z.of_nat (length data))) data []);
    [| unfold buf; rewrite <- !app_assoc, app_nil_r; reflexivity
     | rewrite !length_app, !length_le_bytes; lia].
  reflexivity.
Qed.

Lemma serialization_roundtrip_lossy_witness :
  Forall (fun w => Z.of_nat (length w) < 2 ^ 32) (mystical_word_grimoire ff_word_artifact)
  /\ Z.of_nat (length (mystical_word_grimoire ff_word_artifact)) < 2 ^ 32
  /\ Forall entry_serializable (mystical_frequency_codex ff_word_artifact)
  /\ Z.of_nat (length (mystical_frequency_codex ff_word_artifact)) < 2 ^ 32
  /\ 0 <= total_frequency_essence ff_word_artifact < 2 ^ 64
  /\ Z.of_nat (length (compressed_bit_stream ff_word_artifact)) < 2 ^ 32
  /\ option_map mystical_word_grimoire (deserialize_artifact (serialize_artifact ff_word_artifact))
     = Some [[Byte.xef; Byte.xbf; Byte.xbd]].
Proof.
  assert (H1 : Forall (fun w => Z.of_nat (length w) < 2 ^ 32)
                 (mystical_word_grimoire ff_word_artifact))
    by (repeat constructor; cbn; lia).
  assert (H2 : Z.of_nat (length (mystical_word_grimoire ff_word_artifact)) < 2 ^ 32) by (cbn; lia).
  assert (H3 : Forall entry_serializable (mystical_frequency_codex ff_word_artifact))
    by (repeat constructor; unfold entry_symbol, entry_count, entry_start; cbn; lia).
  assert (H4 : Z.of_nat (length (mystical_frequency_codex ff_word_artifact)) < 2 ^ 32) by (cbn; lia).
  assert (H5 : 0 <= total_frequency_essence ff_word_artifact < 2 ^ 64) by (cbn; lia).
  assert (H6 : Z.of_nat (length (compressed_bit_stream ff_word_artifact)) < 2 ^ 32) by (cbn; lia).
  refine (conj H1 (conj H2 (conj H3 (conj H4 (conj H5 (conj H6 _)))))).
  rewrite (serialization_roundtrip_lossy ff_word_artifact H1 H2 H3 H4 H5 H6).
  vm_compute. reflexivity.
Defined.

(** X20: An artifact with an empty frequency table and a total below
    [2^61] (the capacity limit of the result vector) decodes to total
    zero bytes, whatever its bitstream and dictionary. *)
Lemma empty_table_decodes_zero_bytes (total : Z) (stream : list Byte.byte)
    (ws : list (list Byte.byte)) :
  total < 2 ^ 61 ->
  unweave_compression_spell {| mystical_frequency_codex := []; total_frequency_essence := total;
                               compressed_bit_stream := stream; mystical_word_grimoire := ws |}
  = Some (repeat Byte.x00 (Z.to_nat total)).
Proof.
  intros Ht. unfold unweave_compression_spell. cbv zeta.
  cbn [mystical_frequency_codex total_frequency_essence compressed_bit_stream
       mystical_word_grimoire].
  replace (vec_u32_capacity_ok total) with true
    by (symmetry; unfold vec_u32_capacity_ok; apply Z.leb_le; lia).
  cbn [negb].
  match goal with |- context [decode_symbols [] ?t ?n ?s] =>
    rewrite (decode_symbols_empty_table t n s) by (cbn [dec_high dec_low]; vm_compute; discriminate)
  end.
  f_equal. induction (Z.to_nat total) as [|n IH]; [reflexivity|]. cbn. rewrite IH. reflexivity.
Qed.

Lemma empty_table_decodes_zero_bytes_witness :
  3 < 2 ^ 61
  /\ unweave_compression_spell {| mystical_frequency_codex := []; total_frequency_essence := 3;
                                  compressed_bit_stream := [Byte.x5a];
                                  mystical_word_grimoire := [the_word] |}
     = Some [Byte.x00; Byte.x00; Byte.x00].
Proof.
  assert (H : 3 < 2 ^ 61) by lia.
  split; [exact H|].
  exact (empty_table_decodes_zero_bytes 3 [Byte.x5a] [the_word] H).
Defined.

(** X21: If every symbol of the frequency table is a byte value, a successful decode outputs exactly total bytes. *)
Lemma byte_table_output_length (a : CompressionArtifact) (out : list Byte.byte) :
  Forall (fun e => 0 <= entry_symbol e <= 255) (mystical_frequency_codex a) ->
  unweave_compression_spell a = Some out ->
  length out = Z.to_nat (total_frequency_essence a).
Proof.
  intros Hb. unfold unweave_compression_spell.
  destruct (negb (vec_u32_capacity_ok _)); [discriminate|].
  destruct (decode_symbols _ _ _ _) as [syms|] eqn:D; [|discriminate].
  intros E; injection E as <-.
  rewrite reconstruct_bytes_length.
  - exact (decode_symbols_length _ _ _ _ _ D).
  - apply decode_symbols_source in D. rewrite Forall_forall in D, Hb |- *.
    intros y Hy. destruct (D y Hy) as [Hin|[_ ->]]; [|lia].
    apply in_map_iff in Hin as [e [<- He]]. exact (Hb e He).
Qed.

Lemma byte_table_output_length_witness :
  Forall (fun e => 0 <= entry_symbol e <= 255) (mystical_frequency_codex ab_artifact) /\
  unweave_compression_spell ab_artifact = Some [Byte.x41; Byte.x42] /\
  length [Byte.x41; Byte.x42] = Z.to_nat (total_frequency_essence ab_artifact).
Proof.
  assert (H1 : Forall (fun e => 0 <= entry_symbol e <= 255) (mystical_frequency_codex ab_artifact))
    by (repeat constructor; cbn; lia).
  assert (H2 : unweave_compression_spell ab_artifact = Some [Byte.x41; Byte.x42]) by (vm_compute; reflexivity).
  split; [exact H1|]. split; [exact H2|].
  exact (byte_table_output_length ab_artifact [Byte.x41; Byte.x42] H1 H2).
Defined.
